(** * PodSweeper: the game model, the grid generator, the spawner and the
    reconciler, embedded from the Go sources and checked against the
    natural-language specification.

    Conventions of the embedding.
    - A Go [int] (64 bits) is a [Z]; every arithmetic operation of the source
      that can overflow is written with [wrap].
    - A Go slice is a [list]; an index expression [s[i]] is [index s i], which
      has no result ([None]) where Go panics with "index out of range".
    - A computation of type [option A] has no result exactly where the Go
      code panics (or, for the one loop modelled with fuel, where the fuel is
      exhausted; that loop is proved to finish within its fuel).
    - [time.Now()] is a clock reading handed to the operation that reads it. *)

From Stdlib Require Import ZArith Lia.
From Stdlib Require Import Ascii String.
From Stdlib Require Import Floats.SpecFloat.
From stdpp Require Import base option list list_numbers strings pretty gmap sets.

Local Open Scope Z_scope.

(** ** Machine integers *)

Definition int_min : Z := - 2 ^ 63.
Definition int_max : Z := 2 ^ 63 - 1.

(** Two's complement wrap-around of a 64-bit signed integer. *)
Definition wrap (z : Z) : Z := (z + 2 ^ 63) `mod` 2 ^ 64 - 2 ^ 63.

Definition in_int (z : Z) : Prop := int_min ≤ z ≤ int_max.

Lemma wrap_in_int z : in_int z → wrap z = z.
Proof.
  unfold in_int, int_min, int_max, wrap. intros H.
  rewrite Z.mod_small; lia.
Qed.

(** ** Slices *)

(** [s[i]]: panics unless [0 <= i < len(s)]. *)
Definition index {A} (s : list A) (i : Z) : option A :=
  if decide (0 ≤ i) then s !! Z.to_nat i else None.

(** [s[i] = v]: panics unless [0 <= i < len(s)]. *)
Definition set_index {A} (s : list A) (i : Z) (v : A) : option (list A) :=
  if decide (0 ≤ i < Z.of_nat (length s)) then Some (<[Z.to_nat i := v]> s)
  else None.

(** [m[x][y]] and [m[x][y] = v] on a slice of slices whose rows are separate
    allocations (as [NewGameState], [Clone] and the JSON decoder build them). *)
Definition index2 {A} (m : list (list A)) (x y : Z) : option A :=
  row ← index m x; index row y.

Definition set_index2 {A} (m : list (list A)) (x y : Z) (v : A)
  : option (list (list A)) :=
  row ← index m x; row' ← set_index row y v; set_index m x row'.

(** A left fold whose body may panic: the body of a [for ... range] loop. *)
Fixpoint foldlM {A B} (f : B → A → option B) (b : B) (l : list A) : option B :=
  match l with
  | [] => Some b
  | a :: l' => b' ← f b a; foldlM f b' l'
  end.

Lemma index_Some {A} (s : list A) i :
  0 ≤ i < Z.of_nat (length s) → is_Some (index s i).
Proof.
  intros H. unfold index. rewrite decide_True by lia.
  apply lookup_lt_is_Some. lia.
Qed.

Lemma index_inv {A} (s : list A) i a :
  index s i = Some a → 0 ≤ i < Z.of_nat (length s) ∧ s !! Z.to_nat i = Some a.
Proof.
  unfold index. case_decide; [|done]. intros Hl.
  split; [|done]. apply lookup_lt_Some in Hl. lia.
Qed.

(** ** Package game: the grid model (game.go) *)

Module Game.

(** [type GameStatus string] with its three named values. *)
Definition GameStatus := string.
Definition StatusPlaying : GameStatus := "playing".
Definition StatusWon : GameStatus := "won".
Definition StatusLost : GameStatus := "lost".

Record Coordinate := mkCoordinate { X : Z; Y : Z }.

Global Instance Coordinate_eq_dec : EqDecision Coordinate.
Proof. solve_decision. Defined.

(** [fmt.Sprintf("%d", n)]: signed decimal, which is stdpp's [pretty] on [Z]. *)
Definition itoa (n : Z) : string := pretty n.

(** [Coordinate.PodName] and [Coordinate.HintPodName]. *)
Definition PodName (c : Coordinate) : string :=
  "pod-" +:+ itoa (X c) +:+ "-" +:+ itoa (Y c).
Definition HintPodName (c : Coordinate) : string :=
  "hint-" +:+ itoa (X c) +:+ "-" +:+ itoa (Y c).

(** A [time.Time]; [zero_time] is its zero value ([IsZero]). *)
Definition Time := Z.
Definition zero_time : Time := 0.

Record GameState := mkGameState {
  Size : Z;
  Seed : Z;
  Level : Z;
  Status : GameStatus;
  MineMap : list (list bool);
  Revealed : list (list bool);
  HintCells : list Coordinate;
  MineCount : Z;
  StartedAt : Time;
  EndedAt : Time;
  Clicks : Z
}.

Definition set_Status (g : GameState) (s : GameStatus) (ended : Time) : GameState :=
  mkGameState (Size g) (Seed g) (Level g) s (MineMap g) (Revealed g)
    (HintCells g) (MineCount g) (StartedAt g) ended (Clicks g).

Definition set_Revealed (g : GameState) (r : list (list bool)) (clicks : Z)
  : GameState :=
  mkGameState (Size g) (Seed g) (Level g) (Status g) (MineMap g) r
    (HintCells g) (MineCount g) (StartedAt g) (EndedAt g) clicks.

Definition set_MineMap (g : GameState) (m : list (list bool)) (count : Z)
  : GameState :=
  mkGameState (Size g) (Seed g) (Level g) (Status g) m (Revealed g)
    (HintCells g) count (StartedAt g) (EndedAt g) (Clicks g).

Definition set_HintCells (g : GameState) (h : list Coordinate) : GameState :=
  mkGameState (Size g) (Seed g) (Level g) (Status g) (MineMap g) (Revealed g)
    h (MineCount g) (StartedAt g) (EndedAt g) (Clicks g).

(** [make([][]bool, size)] filled with [make([]bool, size)] rows.  [make]
    panics on a negative length. *)
Definition make_grid (size : Z) : option (list (list bool)) :=
  if decide (0 ≤ size)
  then Some (replicate (Z.to_nat size) (replicate (Z.to_nat size) false))
  else None.

Definition NewGameState (size : Z) (seed : Z) (now : Time) : option GameState :=
  mineMap ← make_grid size;
  revealed ← make_grid size;
  Some (mkGameState size seed 0 StatusPlaying mineMap revealed [] 0 now
          zero_time 0).

Definition IsValidCoordinate (g : GameState) (x y : Z) : bool :=
  bool_decide (0 ≤ x) && bool_decide (x < Size g) &&
  bool_decide (0 ≤ y) && bool_decide (y < Size g).

Definition IsMine (g : GameState) (x y : Z) : option bool :=
  if negb (IsValidCoordinate g x y) then Some false
  else index2 (MineMap g) x y.

Definition IsRevealed (g : GameState) (x y : Z) : option bool :=
  if negb (IsValidCoordinate g x y) then Some false
  else index2 (Revealed g) x y.

(** [Reveal]: the updated state and the returned flag. *)
Definition Reveal (g : GameState) (x y : Z) : option (GameState * bool) :=
  if negb (IsValidCoordinate g x y) then Some (g, false)
  else
    r ← index2 (Revealed g) x y;
    if (r : bool) then Some (g, false)
    else
      revealed' ← set_index2 (Revealed g) x y true;
      Some (set_Revealed g revealed' (wrap (Clicks g + 1)), true).

Definition SetMine (g : GameState) (x y : Z) : option (GameState * bool) :=
  if negb (IsValidCoordinate g x y) then Some (g, false)
  else
    m ← index2 (MineMap g) x y;
    if (m : bool) then Some (g, true)
    else
      mineMap' ← set_index2 (MineMap g) x y true;
      Some (set_MineMap g mineMap' (wrap (MineCount g + 1)), true).

(** The values taken by [dx] and [dy] in [for d := -1; d <= 1; d++]. *)
Definition deltas : list Z := [-1; 0; 1].

Definition AdjacentMines (g : GameState) (x y : Z) : option Z :=
  foldlM (λ count dx,
    foldlM (λ count dy,
      if bool_decide (dx = 0) && bool_decide (dy = 0) then Some count
      else
        m ← IsMine g (wrap (x + dx)) (wrap (y + dy));
        Some (if (m : bool) then wrap (count + 1) else count))
      count deltas)
    0 deltas.

Definition GetNeighbors (g : GameState) (x y : Z) : list Coordinate :=
  foldl (λ neighbors dx,
    foldl (λ neighbors dy,
      if bool_decide (dx = 0) && bool_decide (dy = 0) then neighbors
      else
        let nx := wrap (x + dx) in
        let ny := wrap (y + dy) in
        if IsValidCoordinate g nx ny
        then neighbors ++ [mkCoordinate nx ny]
        else neighbors)
      neighbors deltas)
    [] deltas.

Definition UnrevealedSafeCells (g : GameState) : option Z :=
  foldlM (λ count x,
    foldlM (λ count y,
      m ← index2 (MineMap g) x y;
      if (m : bool) then Some count
      else
        r ← index2 (Revealed g) x y;
        Some (if (r : bool) then count else wrap (count + 1)))
      count (seqZ 0 (Size g)))
    0 (seqZ 0 (Size g)).

Definition CheckVictory (g : GameState) : option bool :=
  n ← UnrevealedSafeCells g; Some (bool_decide (n = 0)).

Definition SetWon (g : GameState) (now : Time) : GameState :=
  set_Status g StatusWon now.

Definition SetLost (g : GameState) (now : Time) : GameState :=
  set_Status g StatusLost now.

Definition AddHintCell (g : GameState) (x y : Z) : GameState :=
  set_HintCells g (HintCells g ++ [mkCoordinate x y]).

(** [Clone]: a deep copy.  Each row is rebuilt by [make([]bool, g.Size)]
    followed by [copy], which copies [min(len(dst), len(src))] elements;
    [g.MineMap[i]] panics when the outer slice is too short. *)
Definition clone_row (size : Z) (src : list bool) : list bool :=
  take (Z.to_nat size) src ++
  replicate (Z.to_nat size - length src)%nat false.

Definition clone_grid (size : Z) (m : list (list bool))
  : option (list (list bool)) :=
  if decide (0 ≤ size)
  then mapM (λ i, row ← index m i; Some (clone_row size row)) (seqZ 0 size)
  else None.

Definition Clone (g : GameState) : option GameState :=
  mineMap ← clone_grid (Size g) (MineMap g);
  revealed ← clone_grid (Size g) (Revealed g);
  Some (mkGameState (Size g) (Seed g) (Level g) (Status g) mineMap revealed
          (HintCells g) (MineCount g) (StartedAt g) (EndedAt g) (Clicks g)).

(** [Coordinate.String], [fmt.Sprintf("(%d,%d)", c.X, c.Y)]. *)
Definition Coordinate_String (c : Coordinate) : string :=
  "(" +:+ itoa (X c) +:+ "," +:+ itoa (Y c) +:+ ")".

(** [Stats]: a [map[string]interface{}] whose values are [int]s and one
    [GameStatus]. *)
Inductive StatValue :=
  | StatInt (n : Z)
  | StatStatus (s : GameStatus).

Definition Stats (g : GameState) : option (gmap string StatValue) :=
  let totalCells := wrap (Size g * Size g) in
  revealedCount ←
    foldlM (λ count x,
      foldlM (λ count y,
        r ← index2 (Revealed g) x y;
        Some (if (r : bool) then wrap (count + 1) else count))
        count (seqZ 0 (Size g)))
      0 (seqZ 0 (Size g));
  remainingSafe ← UnrevealedSafeCells g;
  Some (list_to_map
          [("size", StatInt (Size g));
           ("level", StatInt (Level g));
           ("status", StatStatus (Status g));
           ("mines", StatInt (MineCount g));
           ("totalCells", StatInt totalCells);
           ("revealedCells", StatInt revealedCount);
           ("remainingSafe", StatInt remainingSafe);
           ("clicks", StatInt (Clicks g));
           ("hintPodsPlaced", StatInt (Z.of_nat (length (HintCells g))))]).

End Game.

(** ** Package grid: configuration and mine placement (generator.go) *)

Module Grid.
Import Game.

(** *** IEEE 754 binary64, from the specification of floats of the library *)

Definition float64 := spec_float.
Definition prec : Z := 53.
Definition emax : Z := 1024.

(** [float64(n)] for an [int] n (round to nearest even). *)
Definition f64_of_int (n : Z) : float64 := binary_normalize prec emax n 0 false.
Definition f64_mul : float64 → float64 → float64 := SFmul prec emax.
Definition f64_div : float64 → float64 → float64 := SFdiv prec emax.
Definition f64_lt : float64 → float64 → bool := SFltb.

(** The float64 nearest to the decimal constant [n / d], as the Go compiler
    rounds an untyped constant. *)
Definition f64_const (n d : Z) : float64 := f64_div (f64_of_int n) (f64_of_int d).

(** [int(f)]: truncation toward zero.  Where the value does not fit (or is a
    NaN or an infinity) the Go specification leaves the result to the
    implementation; amd64 gives the smallest [int]. *)
Definition f64_to_int (f : float64) : Z :=
  match f with
  | S754_zero _ => 0
  | S754_finite s m e =>
      let mag := if decide (0 ≤ e) then Z.pos m * 2 ^ e
                 else Z.pos m `div` 2 ^ (- e) in
      let v := if s then - mag else mag in
      if decide (in_int v) then v else int_min
  | _ => int_min
  end.

Definition DefaultSize : Z := 10.
Definition DefaultMineDensity : float64 := f64_const 15 100.
Definition MinMineDensity : float64 := f64_const 5 100.
Definition MaxMineDensity : float64 := f64_const 50 100.

Record Config := mkConfig {
  cfgSize : Z;
  cfgSeed : Z;
  MineDensity : float64;
  MinMineCount : Z;
  MaxMineCount : Z
}.

Definition DefaultConfig : Config :=
  mkConfig DefaultSize 0 DefaultMineDensity 1 0.

(** The error returned by [Validate], by the check that produced it. *)
Inductive ValidationError :=
  | SizeTooSmall | SizeTooLarge | DensityTooLow | DensityTooHigh
  | MinCountNegative | MaxCountNegative | MinExceedsMax.

(** [Validate]: [None] is the nil error. *)
Definition Validate (c : Config) : option ValidationError :=
  if decide (cfgSize c < 1) then Some SizeTooSmall
  else if decide (cfgSize c > 100) then Some SizeTooLarge
  else if f64_lt (MineDensity c) MinMineDensity then Some DensityTooLow
  else if f64_lt MaxMineDensity (MineDensity c) then Some DensityTooHigh
  else if decide (MinMineCount c < 0) then Some MinCountNegative
  else if decide (MaxMineCount c < 0) then Some MaxCountNegative
  else if decide (MaxMineCount c > 0 ∧ MinMineCount c > MaxMineCount c)
       then Some MinExceedsMax
  else None.

(** The three successive clamps of [CalculateMineCount]. *)
Definition enforce_min (c : Config) (mineCount : Z) : Z :=
  if decide (mineCount < MinMineCount c) then MinMineCount c else mineCount.

Definition enforce_max (c : Config) (mineCount : Z) : Z :=
  if decide (MaxMineCount c > 0 ∧ mineCount > MaxMineCount c)
  then MaxMineCount c else mineCount.

Definition enforce_cells (totalCells mineCount : Z) : Z :=
  let maxPossible := wrap (totalCells - 1) in
  if decide (mineCount > maxPossible) then maxPossible else mineCount.

Definition CalculateMineCount (c : Config) : Z :=
  let totalCells := wrap (cfgSize c * cfgSize c) in
  let mineCount := f64_to_int (f64_mul (f64_of_int totalCells) (MineDensity c)) in
  enforce_cells totalCells (enforce_max c (enforce_min c mineCount)).

(** *** The random source

    [math/rand] is not part of the repository: a source is any state machine
    with a seeding function and a draw [Intn] that stays in [[0, n)]. *)
Class RandSource := {
  rng : Type;
  NewSource : Z → rng;
  Intn : rng → Z → Z * rng;
  Intn_range : ∀ r n, 0 < n → 0 ≤ (Intn r n).1 < n
}.

Section Generator.
Context `{RandSource}.

(** [rng.Intn(n)] panics unless [n > 0]. *)
Definition Intn_call (r : rng) (n : Z) : option (Z * rng) :=
  if decide (0 < n) then Some (Intn r n) else None.

Record Generator := mkGenerator { config : Config; gen_rng : rng }.

(** [NewGenerator]; [global] is the value [rand.Int63()] yields when the
    configured seed is zero. *)
Definition NewGenerator (c : Config) (global : Z)
  : ValidationError + Generator :=
  match Validate c with
  | Some e => inl e
  | None =>
      let seed := if decide (cfgSeed c = 0) then global else cfgSeed c in
      inr (mkGenerator c (NewSource seed))
  end.

(** [positions[i], positions[j] = positions[j], positions[i]]. *)
Definition swap (positions : list Z) (i j : Z) : option (list Z) :=
  pj ← index positions j;
  pi ← index positions i;
  positions' ← set_index positions i pj;
  set_index positions' j pi.

(** The Fisher-Yates loop [for i := len(positions) - 1; i > 0; i--]. *)
Definition shuffle (positions : list Z) (r : rng) : option (list Z * rng) :=
  foldlM (λ '(positions, r) i,
    '(j, r') ← Intn_call r (wrap (i + 1));
    positions' ← swap positions i j;
    Some (positions', r'))
    (positions, r)
    (reverse (seqZ 1 (Z.of_nat (length positions) - 1))).

(** Go's [/] and [%] truncate toward zero and panic on a zero divisor. *)
Definition int_quot (a b : Z) : option Z :=
  if decide (b = 0) then None else Some (wrap (a ÷ b)).
Definition int_rem (a b : Z) : option Z :=
  if decide (b = 0) then None else Some (a `rem` b).

Definition placeMinesWithRNG (c : Config) (state : GameState) (r : rng)
  : option (GameState * rng) :=
  let mineCount := CalculateMineCount c in
  let totalCells := wrap (cfgSize c * cfgSize c) in
  if decide (totalCells < 0) then None
  else
    '(positions, r') ← shuffle (seqZ 0 totalCells) r;
    state' ← foldlM (λ state i,
                pos ← index positions i;
                x ← int_quot pos (cfgSize c);
                y ← int_rem pos (cfgSize c);
                fst <$> SetMine state x y)
              state (seqZ 0 mineCount);
    Some (state', r').

(** [Generate] draws from the generator's own stream and advances it. *)
Definition Generate (g : Generator) (now : Time)
  : option (GameState * Generator) :=
  state ← NewGameState (cfgSize (config g)) (cfgSeed (config g)) now;
  '(state', r') ← placeMinesWithRNG (config g) state (gen_rng g);
  Some (state', mkGenerator (config g) r').

(** [GenerateWithSeed] draws from a source of its own and leaves the
    generator's stream alone. *)
Definition GenerateWithSeed (g : Generator) (seed : Z) (now : Time)
  : option (GameState * Generator) :=
  let r := NewSource seed in
  state ← NewGameState (cfgSize (config g)) seed now;
  '(state', _) ← placeMinesWithRNG (config g) state r;
  Some (state', g).

(** [NewDefaultGenerator] drops the error of [NewGenerator]: its result is
    the generator, or the nil pointer ([None]). *)
Definition NewDefaultGenerator (global : Z) : option Generator :=
  match NewGenerator DefaultConfig global with
  | inl _ => None
  | inr gen => Some gen
  end.

(** [GenerateGrid]: the error of the validation, or the generated state;
    no result at all where the generation panics. *)
Definition GenerateGrid (size seed : Z) (density : float64) (global : Z)
    (now : Time) : option (ValidationError + GameState) :=
  let config := mkConfig size seed density 1 0 in
  match NewGenerator config global with
  | inl e => Some (inl e)
  | inr gen =>
      '(state, _) ← GenerateWithSeed gen seed now;
      Some (inr state)
  end.

(** [GenerateDefaultGrid] drops the error of [GenerateGrid]: the inner
    [None] is the nil pointer. *)
Definition GenerateDefaultGrid (seed : Z) (global : Z) (now : Time)
  : option (option GameState) :=
  r ← GenerateGrid DefaultSize seed DefaultMineDensity global now;
  match r with
  | inl _ => Some None
  | inr state => Some (Some state)
  end.

(** [type DifficultyPreset string] and its four named values. *)
Definition DifficultyPreset := string.
Definition DifficultyEasy : DifficultyPreset := "easy".
Definition DifficultyMedium : DifficultyPreset := "medium".
Definition DifficultyHard : DifficultyPreset := "hard".
Definition DifficultyExpert : DifficultyPreset := "expert".

Definition GetDifficultyConfig (preset : DifficultyPreset) : Config :=
  if decide (preset = DifficultyEasy)
  then mkConfig 8 0 (f64_const 10 100) 5 10
  else if decide (preset = DifficultyMedium)
  then mkConfig 10 0 (f64_const 15 100) 10 20
  else if decide (preset = DifficultyHard)
  then mkConfig 16 0 (f64_const 20 100) 40 60
  else if decide (preset = DifficultyExpert)
  then mkConfig 20 0 (f64_const 25 100) 80 120
  else DefaultConfig.

Definition GenerateWithDifficulty (preset : DifficultyPreset) (seed : Z)
    (global : Z) (now : Time) : option (ValidationError + GameState) :=
  let config := GetDifficultyConfig preset in
  let config := mkConfig (cfgSize config) seed (MineDensity config)
                  (MinMineCount config) (MaxMineCount config) in
  match NewGenerator config global with
  | inl e => Some (inl e)
  | inr gen =>
      '(state, _) ← GenerateWithSeed gen seed now;
      Some (inr state)
  end.

End Generator.

End Grid.

(** ** The orchestration API, as the code uses it

    The API server is not part of the repository.  It is modelled as the set
    of pods of the game namespace together with a schedule of faults: the
    n-th request fails with [fault n] when that is an error, and otherwise
    has the usual effect (creating an existing name is "already exists",
    reading or deleting a missing one is "not found").  Every request is
    logged, so that what was attempted can be stated. *)

Module Api.

(** Go [error] values, by the classification the code applies to them
    ([errors.IsNotFound], [IsAlreadyExists], [IsConflict], [ctx.Err()]);
    [Wrapped] is [fmt.Errorf("...: %w", err)]. *)
Inductive error :=
  | NotFound
  | AlreadyExists
  | Conflict
  | Canceled
  | ServerError
  | Failed (msg : string)
  | Wrapped (msg : string) (cause : error).

(** A function returning [(T, error)]. *)
Inductive res (A : Type) :=
  | Ok (a : A)
  | Err (e : error).
Global Arguments Ok {A} a.
Global Arguments Err {A} e.

Fixpoint IsNotFound (e : error) : bool :=
  match e with NotFound => true | Wrapped _ c => IsNotFound c | _ => false end.
Fixpoint IsAlreadyExists (e : error) : bool :=
  match e with AlreadyExists => true | Wrapped _ c => IsAlreadyExists c | _ => false end.
Fixpoint IsConflict (e : error) : bool :=
  match e with Conflict => true | Wrapped _ c => IsConflict c | _ => false end.

(** What the code writes into a pod: its component label, the hint
    annotation, and whether the pod carries a deletion timestamp. *)
Record Pod := mkPod {
  component : string;
  hint : option Z;
  terminating : bool
}.

Inductive Request :=
  | ReqGet (name : string)
  | ReqCreate (name : string)
  | ReqDelete (name : string)
  | ReqList
  | ReqWait.

Record Cluster := mkCluster {
  pods : gmap string Pod;
  requests : list Request;
  fault : nat → option error
}.

Definition issue (k : Cluster) (r : Request) : Cluster :=
  mkCluster (pods k) (requests k ++ [r]) (fault k).

Definition scheduled (k : Cluster) : option error :=
  fault k (length (requests k)).

(** [client.Get] *)
Definition Get (k : Cluster) (name : string) : Cluster * res Pod :=
  let k' := issue k (ReqGet name) in
  match scheduled k with
  | Some e => (k', Err e)
  | None =>
      match pods k !! name with
      | Some p => (k', Ok p)
      | None => (k', Err NotFound)
      end
  end.

(** [client.Create]; the returned error is [None] for nil. *)
Definition Create (k : Cluster) (name : string) (p : Pod)
  : Cluster * option error :=
  let k' := issue k (ReqCreate name) in
  match scheduled k with
  | Some e => (k', Some e)
  | None =>
      match pods k !! name with
      | Some _ => (k', Some AlreadyExists)
      | None => (mkCluster (<[name := p]> (pods k)) (requests k') (fault k), None)
      end
  end.

(** [client.Delete] *)
Definition Delete (k : Cluster) (name : string) : Cluster * option error :=
  let k' := issue k (ReqDelete name) in
  match scheduled k with
  | Some e => (k', Some e)
  | None =>
      match pods k !! name with
      | Some _ => (mkCluster (delete name (pods k)) (requests k') (fault k), None)
      | None => (k', Some NotFound)
      end
  end.

(** [client.List] restricted to the namespace: the names of its pods. *)
Definition List (k : Cluster) : Cluster * res (list (string * Pod)) :=
  let k' := issue k ReqList in
  match scheduled k with
  | Some e => (k', Err e)
  | None => (k', Ok (map_to_list (pods k)))
  end.

(** [client.List] with a label selector ([client.MatchingLabels]): the pods
    of the namespace that the selector [sel] matches. *)
Definition ListMatching (k : Cluster) (sel : Pod → bool)
  : Cluster * res (list (string * Pod)) :=
  let k' := issue k ReqList in
  match scheduled k with
  | Some e => (k', Err e)
  | None => (k', Ok (filter (λ item, sel item.2 = true) (map_to_list (pods k))))
  end.

(** The [select] between [ctx.Done()] and [time.After(delay)]: the wait is
    cut short with the context's error when the schedule says so. *)
Definition Wait (k : Cluster) : Cluster * option error :=
  let k' := issue k ReqWait in
  match scheduled k with
  | Some e => (k', Some e)
  | None => (k', None)
  end.

(** [client.IgnoreNotFound] *)
Definition IgnoreNotFound (e : option error) : option error :=
  match e with
  | Some e' => if IsNotFound e' then None else Some e'
  | None => None
  end.

End Api.

(** ** Package game: the persistent store (store.go) *)

Module Store.
Import Game Api.

(** The [Store] interface.  [Load] yields [Ok None] for "no game state";
    a result of [None] is a panic. *)
Class Store (S : Type) := {
  Load : S → option (S * res (option GameState));
  Save : S → GameState → option (S * option error);
  Delete : S → S * option error;
  Exists : S → S * res bool
}.

(** *** MemoryStore *)

Record MemoryStore := mkMemoryStore { mem_state : option GameState }.

Definition NewMemoryStore : MemoryStore := mkMemoryStore None.

Definition MemoryStore_Load (m : MemoryStore)
  : option (MemoryStore * res (option GameState)) :=
  match mem_state m with
  | None => Some (m, Ok None)
  | Some st => c ← Clone st; Some (m, Ok (Some c))
  end.

Definition MemoryStore_Save (m : MemoryStore) (state : GameState)
  : option (MemoryStore * option error) :=
  c ← Clone state; Some (mkMemoryStore (Some c), None).

Definition MemoryStore_Delete (m : MemoryStore) : MemoryStore * option error :=
  (mkMemoryStore None, None).

Definition MemoryStore_Exists (m : MemoryStore) : MemoryStore * res bool :=
  (m, Ok (bool_decide (mem_state m ≠ None))).

Definition MemoryStore_Reset (m : MemoryStore) : MemoryStore :=
  mkMemoryStore None.

Global Instance MemoryStore_Store : Store MemoryStore := {
  Load := MemoryStore_Load;
  Save := MemoryStore_Save;
  Delete := MemoryStore_Delete;
  Exists := MemoryStore_Exists
}.

(** *** SecretStore

    The Secret lives in the same API server; only its data map matters
    (reading a nil map finds nothing, writing to one panics).  The JSON
    encoding is [encoding/json], outside the repository: any pair of
    functions will do. *)

Class JSON := {
  ToJSON : GameState → res string;
  FromJSON : string → res GameState
}.

Definition StateKey : string := "state".

(** The [Data] field of a Secret: a map, or nil ([None]). *)
Definition SecretData : Type := option (gmap string string).

Record SecretStore := mkSecretStore {
  secret : option SecretData;
  secret_requests : nat;
  secret_fault : nat → option error
}.

Definition secret_issue (s : SecretStore) : SecretStore :=
  mkSecretStore (secret s) (S (secret_requests s)) (secret_fault s).

(** [client.Get] of the Secret. *)
Definition secret_get (s : SecretStore)
  : SecretStore * res SecretData :=
  let s' := secret_issue s in
  match secret_fault s (secret_requests s) with
  | Some e => (s', Err e)
  | None =>
      match secret s with
      | Some d => (s', Ok d)
      | None => (s', Err NotFound)
      end
  end.

(** [client.Create] and [client.Update] of the Secret. *)
Definition secret_create (s : SecretStore) (d : SecretData)
  : SecretStore * option error :=
  let s' := secret_issue s in
  match secret_fault s (secret_requests s) with
  | Some e => (s', Some e)
  | None =>
      match secret s with
      | Some _ => (s', Some AlreadyExists)
      | None => (mkSecretStore (Some d) (secret_requests s') (secret_fault s), None)
      end
  end.

Definition secret_update (s : SecretStore) (d : SecretData)
  : SecretStore * option error :=
  let s' := secret_issue s in
  match secret_fault s (secret_requests s) with
  | Some e => (s', Some e)
  | None =>
      match secret s with
      | Some _ => (mkSecretStore (Some d) (secret_requests s') (secret_fault s), None)
      | None => (s', Some NotFound)
      end
  end.

Definition secret_delete (s : SecretStore) : SecretStore * option error :=
  let s' := secret_issue s in
  match secret_fault s (secret_requests s) with
  | Some e => (s', Some e)
  | None =>
      match secret s with
      | Some _ => (mkSecretStore None (secret_requests s') (secret_fault s), None)
      | None => (s', Some NotFound)
      end
  end.

Section SecretStore.
Context `{JSON}.

Definition SecretStore_Load (s : SecretStore)
  : option (SecretStore * res (option GameState)) :=
  match secret_get s with
  | (s', Err e) =>
      if IsNotFound e then Some (s', Ok None)
      else Some (s', Err (Wrapped "failed to get secret" e))
  | (s', Ok data) =>
      match data ≫= (.!! StateKey) with
      | None => Some (s', Err (Failed "secret exists but missing 'state' key"))
      | Some bytes =>
          match FromJSON bytes with
          | Err e => Some (s', Err (Wrapped "failed to parse game state" e))
          | Ok state => Some (s', Ok (Some state))
          end
      end
  end.

Definition SecretStore_Save (s : SecretStore) (state : GameState)
  : option (SecretStore * option error) :=
  match ToJSON state with
  | Err e => Some (s, Some (Wrapped "failed to serialize game state" e))
  | Ok data =>
      match secret_get s with
      | (s', Err e) =>
          if IsNotFound e then
            match secret_create s' (Some {[ StateKey := data ]}) with
            | (s'', Some e') => Some (s'', Some (Wrapped "failed to create secret" e'))
            | (s'', None) => Some (s'', None)
            end
          else Some (s', Some (Wrapped "failed to get secret" e))
      | (s', Ok None) => None
      | (s', Ok (Some d)) =>
          match secret_update s' (Some (<[ StateKey := data ]> d)) with
          | (s'', Some e) =>
              if IsConflict e
              then Some (s'', Some (Wrapped "conflict updating secret (concurrent modification)" e))
              else Some (s'', Some (Wrapped "failed to update secret" e))
          | (s'', None) => Some (s'', None)
          end
      end
  end.

Definition SecretStore_Delete (s : SecretStore) : SecretStore * option error :=
  match secret_delete s with
  | (s', Some e) =>
      if IsNotFound e then (s', None)
      else (s', Some (Wrapped "failed to delete secret" e))
  | (s', None) => (s', None)
  end.

Definition SecretStore_Exists (s : SecretStore) : SecretStore * res bool :=
  match secret_get s with
  | (s', Err e) =>
      if IsNotFound e then (s', Ok false)
      else (s', Err (Wrapped "failed to check secret" e))
  | (s', Ok _) => (s', Ok true)
  end.

Global Instance SecretStore_Store : Store SecretStore := {
  Load := SecretStore_Load;
  Save := SecretStore_Save;
  Delete := SecretStore_Delete;
  Exists := SecretStore_Exists
}.

End SecretStore.

End Store.

(** ** Package spawner: materializing the grid (spawner.go) *)

Module Spawner.
Import Game Api.

Definition CellImage : string := "busybox:latest".
Definition DefaultBatchSize : Z := 10.
Definition DefaultRetryAttempts : Z := 3.
(** 500 * time.Millisecond, in nanoseconds. *)
Definition DefaultRetryDelay : Z := 500000000.
Definition DefaultNamespace : string := "podsweeper-game".

Record GridSpawnerConfig := mkGridSpawnerConfig {
  cfgNamespace : string;
  cfgCellImage : string;
  cfgBatchSize : Z;
  cfgRetryAttempts : Z;
  cfgRetryDelay : Z
}.

Record GridSpawner := mkGridSpawner {
  namespace : string;
  cellImage : string;
  batchSize : Z;
  retryAttempts : Z;
  retryDelay : Z
}.

Record SpawnResult := mkSpawnResult {
  TotalPods : Z;
  CreatedPods : Z;
  FailedPods : Z;
  FailedCoords : list Coordinate
}.

Definition NewGridSpawner (c : GridSpawnerConfig) : GridSpawner :=
  mkGridSpawner
    (if decide (cfgNamespace c = "") then DefaultNamespace else cfgNamespace c)
    (if decide (cfgCellImage c = "") then CellImage else cfgCellImage c)
    (if decide (cfgBatchSize c ≤ 0) then DefaultBatchSize else cfgBatchSize c)
    (if decide (cfgRetryAttempts c ≤ 0) then DefaultRetryAttempts
     else cfgRetryAttempts c)
    (if decide (cfgRetryDelay c ≤ 0) then DefaultRetryDelay else cfgRetryDelay c).

Definition buildCellPod (s : GridSpawner) (coord : Coordinate) : Pod :=
  mkPod "cell" None false.

(** The error built after the last attempt. *)
Definition after_attempts (lastErr : option error) : error :=
  match lastErr with
  | Some e => Wrapped "after attempts" e
  | None => Failed "after attempts"
  end.

(** The loop of [createPodWithRetry] over the remaining attempt numbers. *)
Fixpoint retry_loop (s : GridSpawner) (attempts : list Z) (k : Cluster)
    (coord : Coordinate) (lastErr : option error) : Cluster * option error :=
  match attempts with
  | [] => (k, Some (after_attempts lastErr))
  | attempt :: rest =>
      let '(k1, done) := if decide (attempt > 0) then Wait k else (k, None) in
      match done with
      | Some e => (k1, Some e)
      | None =>
          match Create k1 (PodName coord) (buildCellPod s coord) with
          | (k2, Some err) =>
              if IsAlreadyExists err then (k2, None)
              else retry_loop s rest k2 coord (Some err)
          | (k2, None) => (k2, None)
          end
      end
  end.

Definition createPodWithRetry (s : GridSpawner) (k : Cluster)
    (coord : Coordinate) : Cluster * option error :=
  retry_loop s (seqZ 0 (retryAttempts s)) k coord None.

(** The coordinates in the order of the two nested loops. *)
Definition all_coords (size : Z) : list Coordinate :=
  foldl (λ coords x,
    foldl (λ coords y, coords ++ [mkCoordinate x y]) coords (seqZ 0 size))
    [] (seqZ 0 size).

(** [coords[i:j]] *)
Definition slice {A} (l : list A) (i j : Z) : option (list A) :=
  if decide (0 ≤ i ≤ j ∧ j ≤ Z.of_nat (length l))
  then Some (take (Z.to_nat (j - i)) (drop (Z.to_nat i) l))
  else None.

(** The body of [for _, coord := range batch]. *)
Definition spawn_one (s : GridSpawner) (acc : Cluster * SpawnResult)
    (coord : Coordinate) : Cluster * SpawnResult :=
  let '(k, result) := acc in
  match createPodWithRetry s k coord with
  | (k', Some err) =>
      (k', mkSpawnResult (TotalPods result) (CreatedPods result)
             (wrap (FailedPods result + 1)) (FailedCoords result ++ [coord]))
  | (k', None) =>
      (k', mkSpawnResult (TotalPods result) (wrap (CreatedPods result + 1))
             (FailedPods result) (FailedCoords result))
  end.

(** The loop [for i := 0; i < len(coords); i += s.batchSize]. *)
Fixpoint batch_loop (fuel : nat) (s : GridSpawner) (coords : list Coordinate)
    (i : Z) (acc : Cluster * SpawnResult) : option (Cluster * SpawnResult) :=
  if decide (i < Z.of_nat (length coords)) then
    match fuel with
    | O => None
    | S fuel' =>
        let e := wrap (i + batchSize s) in
        let e := if decide (e > Z.of_nat (length coords))
                 then Z.of_nat (length coords) else e in
        batch ← slice coords i e;
        batch_loop fuel' s coords (wrap (i + batchSize s))
          (foldl (spawn_one s) acc batch)
    end
  else Some acc.

(** [SpawnGrid]: the cluster after the call, the result and the error. *)
Definition SpawnGrid (s : GridSpawner) (k : Cluster) (state : GameState)
  : option (Cluster * SpawnResult * option error) :=
  let total := wrap (Size state * Size state) in
  if decide (total < 0) then None
  else
    let coords := all_coords (Size state) in
    '(k', result) ← batch_loop (S (length coords)) s coords 0
                      (k, mkSpawnResult total 0 0 []);
    if decide (FailedPods result > 0)
    then Some (k', result, Some (Failed "failed to create pods"))
    else Some (k', result, None).

(** The body of the loop of [CleanupGrid]: the cluster, [lastErr] and the
    counter [deleted]. *)
Definition cleanup_step (acc : Cluster * option error * Z)
    (item : string * Pod) : Cluster * option error * Z :=
  let '(k, lastErr, deleted) := acc in
  match Api.Delete k item.1 with
  | (k', Some err) =>
      if negb (IsNotFound err) then (k', Some err, deleted)
      else (k', lastErr, deleted)
  | (k', None) => (k', lastErr, wrap (deleted + 1))
  end.

(** [CleanupGrid]; [app_label p] says that the pod carries the label
    [app.kubernetes.io/name=podsweeper], the selector of the listing. *)
Definition CleanupGrid (s : GridSpawner) (app_label : Pod → bool)
    (k : Cluster) : Cluster * option error :=
  match ListMatching k app_label with
  | (k', Err e) => (k', Some (Wrapped "failed to list pods" e))
  | (k', Ok items) =>
      let '(k'', lastErr, _) := foldl cleanup_step (k', None, 0) items in
      (k'', lastErr)
  end.

End Spawner.

(** ** Package controller: names, the reconciler and its handlers
    (game_controller.go, handlers.go) *)

Module Controller.
Import Game Api Store.

(** *** Pod names *)

Definition is_digit (c : ascii) : bool :=
  match c with
  | "0" | "1" | "2" | "3" | "4" | "5" | "6" | "7" | "8" | "9" => true
  | _ => false
  end%char.

Definition digit_val (c : ascii) : Z :=
  match c with
  | "1" => 1 | "2" => 2 | "3" => 3 | "4" => 4 | "5" => 5
  | "6" => 6 | "7" => 7 | "8" => 8 | "9" => 9 | _ => 0
  end%char.

Fixpoint all_digits (s : string) : bool :=
  match s with
  | "" => true
  | String c s' => is_digit c && all_digits s'
  end.

(** The value of a string of decimal digits, most significant first. *)
Fixpoint digits_val (acc : Z) (s : string) : Z :=
  match s with
  | "" => acc
  | String c s' => digits_val (10 * acc + digit_val c) s'
  end.

(** The regular expressions of the package all have the shape
    [^<prefix>(\d+)-(\d+)$]; one is given by its prefix.  In Go's syntax
    [\d] is an ASCII digit and [$] (without the [m] flag) is the end of the
    text. *)
Record Regexp := mkRegexp { prefix : string }.

Definition PodNameRegex : Regexp := mkRegexp "pod-".
Definition HintPodNameRegex : Regexp := mkRegexp "hint-".

(** What it is for [name] to match with the two groups [d1] and [d2]. *)
Definition matches (re : Regexp) (name d1 d2 : string) : Prop :=
  name = prefix re +:+ d1 +:+ "-" +:+ d2 ∧
  d1 ≠ "" ∧ all_digits d1 = true ∧ d2 ≠ "" ∧ all_digits d2 = true.

Fixpoint strip_prefix (p s : string) : option string :=
  match p with
  | "" => Some s
  | String c p' =>
      match s with
      | String c' s' => if decide (c = c') then strip_prefix p' s' else None
      | "" => None
      end
  end.

(** The longest prefix of digits, and the rest. *)
Fixpoint span_digits (s : string) : string * string :=
  match s with
  | "" => ("", "")
  | String c s' =>
      if is_digit c
      then let '(d, rest) := span_digits s' in (String c d, rest)
      else ("", s)
  end.

(** [re.FindStringSubmatch(name)]: the two groups, or [None] for nil. *)
Definition FindStringSubmatch (re : Regexp) (name : string)
  : option (string * string) :=
  rest ← strip_prefix (prefix re) name;
  let '(d1, rest1) := span_digits rest in
  if decide (d1 = "") then None
  else
    rest2 ← strip_prefix "-" rest1;
    let '(d2, rest3) := span_digits rest2 in
    if decide (d2 = "") then None
    else if decide (rest3 = "") then Some (d1, d2) else None.

Definition MatchString (re : Regexp) (name : string) : bool :=
  bool_decide (is_Some (FindStringSubmatch re name)).

(** [strconv.Atoi]: an optional sign, then one or more digits; a value
    outside the range of [int] is an error. *)
Definition Atoi (s : string) : option Z :=
  let '(neg, ds) :=
    match s with
    | String "-" s' => (true, s')
    | String "+" s' => (false, s')
    | _ => (false, s)
    end in
  if decide (ds = "") then None
  else if all_digits ds then
    let v := if (neg : bool) then - digits_val 0 ds else digits_val 0 ds in
    if decide (in_int v) then Some v else None
  else None.

Definition parse_with (re : Regexp) (name : string) : option Coordinate :=
  match FindStringSubmatch re name with
  | None => None
  | Some (m1, m2) =>
      match Atoi m1, Atoi m2 with
      | Some x, Some y => Some (mkCoordinate x y)
      | _, _ => None
      end
  end.

Definition ParsePodName (name : string) : option Coordinate :=
  parse_with PodNameRegex name.
Definition ParseHintPodName (name : string) : option Coordinate :=
  parse_with HintPodNameRegex name.
Definition IsPodName (name : string) : bool := MatchString PodNameRegex name.
Definition IsHintPodName (name : string) : bool :=
  MatchString HintPodNameRegex name.
Definition GeneratePodName (x y : Z) : string :=
  "pod-" +:+ itoa x +:+ "-" +:+ itoa y.
Definition GenerateHintPodName (x y : Z) : string :=
  "hint-" +:+ itoa x +:+ "-" +:+ itoa y.

(** *** Flood fill *)

(** The key of the visited map, [fmt.Sprintf("%d,%d", c.X, c.Y)]. *)
Definition key (c : Coordinate) : string := itoa (X c) +:+ "," +:+ itoa (Y c).

(** [visited[k]] on a [map[string]bool]: false for a missing key. *)
Definition visited_at (visited : gmap string bool) (k : string) : bool :=
  default false (visited !! k).

(** The body of [for _, neighbor := range state.GetNeighbors(...)], with the
    short-circuit evaluation of its condition. *)
Definition visit_neighbor (state : GameState)
    (acc : gmap string bool * list Coordinate) (neighbor : Coordinate)
  : option (gmap string bool * list Coordinate) :=
  let '(visited, queue) := acc in
  let nKey := key neighbor in
  if visited_at visited nKey then Some acc
  else
    r ← IsRevealed state (X neighbor) (Y neighbor);
    if (r : bool) then Some acc
    else
      m ← IsMine state (X neighbor) (Y neighbor);
      if (m : bool) then Some acc
      else Some (<[nKey := true]> visited, queue ++ [neighbor]).

(** The loop [for len(queue) > 0]; one unit of fuel per iteration. *)
Fixpoint bfs_loop (fuel : nat) (state : GameState)
    (visited : gmap string bool) (queue empty boundary : list Coordinate)
  : option (list Coordinate * list Coordinate) :=
  match queue with
  | [] => Some (empty, boundary)
  | current :: queue' =>
      match fuel with
      | O => None
      | S fuel' =>
          adjacentMines ← AdjacentMines state (X current) (Y current);
          if decide (adjacentMines = 0) then
            '(visited', queue'') ←
              foldlM (visit_neighbor state) (visited, queue')
                (GetNeighbors state (X current) (Y current));
            bfs_loop fuel' state visited' queue'' (empty ++ [current]) boundary
          else
            bfs_loop fuel' state visited queue' empty (boundary ++ [current])
      end
  end.

(** Iterations that are always enough: one per cell and one for the start. *)
Definition bfs_fuel (state : GameState) : nat :=
  S (Z.to_nat (Size state * Size state)).

Definition bfsPropagation (state : GameState) (start : Coordinate)
  : option (list Coordinate * list Coordinate) :=
  bfs_loop (bfs_fuel state) state {[ key start := true ]} [start] [] [].

(** *** Handlers

    A handler acts on the store and on the cluster, and reads the clock once
    at most.  Its result is [None] where the Go code panics; otherwise the
    world after the call and the returned error ([None] for nil).  Log
    output is not modelled. *)

Section Reconciler.
Context {S : Type} `{!Store S}.

Definition World : Type := S * Cluster.

Definition Outcome : Type := option (World * option error).

(** [spawnHintPod]: the pod carries the hint value as an annotation. *)
Definition spawnHintPod (k : Cluster) (coords : Coordinate) (hintValue : Z)
  : Cluster * option error :=
  Create k (HintPodName coords) (mkPod "hint" (Some hintValue) false).

Definition spawnExplosionPod (k : Cluster) (coords : Coordinate)
  : Cluster * option error :=
  Create k "explosion" (mkPod "explosion" None false).

Definition spawnVictoryPod (k : Cluster) (state : GameState)
  : Cluster * option error :=
  Create k "victory" (mkPod "victory" None false).

Definition deletePod (k : Cluster) (coords : Coordinate)
  : Cluster * option error :=
  let '(k', e) := Api.Delete k (PodName coords) in (k', IgnoreNotFound e).

(** [wipeGamePods]: a failed deletion is logged and the loop goes on. *)
Definition wipeGamePods (k : Cluster) : Cluster * option error :=
  match List k with
  | (k', Err e) => (k', Some e)
  | (k', Ok items) =>
      (foldl (λ k (item : string * Pod),
          if IsPodName item.1 || IsHintPodName item.1
          then (Api.Delete k item.1).1 else k)
        k' items, None)
  end.

Definition handleVictory (w : World) (state : GameState) (now : Time)
  : Outcome :=
  let '(store, k) := w in
  let state := SetWon state now in
  '(store', err) ← Save store state;
  match err with
  | Some e => Some ((store', k), Some e)
  | None =>
      match spawnVictoryPod k state with
      | (k', Some e) => Some ((store', k'), Some e)
      | (k', None) => Some ((store', k'), None)
      end
  end.

Definition HandleMineHit (w : World) (state : GameState)
    (coords : Coordinate) (now : Time) : Outcome :=
  let '(store, k) := w in
  '(state, _) ← Reveal state (X coords) (Y coords);
  let state := SetLost state now in
  '(store', err) ← Save store state;
  match err with
  | Some e => Some ((store', k), Some e)
  | None =>
      match wipeGamePods k with
      | (k', Some e) => Some ((store', k'), Some e)
      | (k', None) =>
          match spawnExplosionPod k' coords with
          | (k'', Some e) => Some ((store', k''), Some e)
          | (k'', None) => Some ((store', k''), None)
          end
      end
  end.

Definition HandleHintCell (w : World) (state : GameState)
    (coords : Coordinate) (hintValue : Z) (now : Time) : Outcome :=
  let '(store, k) := w in
  '(state, _) ← Reveal state (X coords) (Y coords);
  let state := AddHintCell state (X coords) (Y coords) in
  match spawnHintPod k coords hintValue with
  | (k', Some e) => Some ((store, k'), Some e)
  | (k', None) =>
      won ← CheckVictory state;
      if (won : bool) then handleVictory (store, k') state now
      else
        '(store', err) ← Save store state;
        Some ((store', k'), err)
  end.

(** The loop over the boundary cells of [HandleEmptyCell]; the errors of
    [deletePod] and [spawnHintPod] are logged and dropped. *)
Definition reveal_boundary (acc : GameState * Cluster) (c : Coordinate)
  : option (GameState * Cluster) :=
  let '(state, k) := acc in
  hintValue ← AdjacentMines state (X c) (Y c);
  '(state, _) ← Reveal state (X c) (Y c);
  let state := AddHintCell state (X c) (Y c) in
  let k := (deletePod k c).1 in
  let k := (spawnHintPod k c hintValue).1 in
  Some (state, k).

Definition HandleEmptyCell (w : World) (state : GameState)
    (coords : Coordinate) (now : Time) : Outcome :=
  let '(store, k) := w in
  '(toReveal, boundaryHints) ← bfsPropagation state coords;
  state ← foldlM (λ state c, fst <$> Reveal state (X c) (Y c)) state toReveal;
  let k := foldl (λ k c, (deletePod k c).1) k toReveal in
  '(state, k) ← foldlM reveal_boundary (state, k) boundaryHints;
  won ← CheckVictory state;
  if (won : bool) then handleVictory (store, k) state now
  else
    '(store', err) ← Save store state;
    Some ((store', k), err).

(** *** The reconciler *)

(** The [Handlers] field of the controller. *)
Record GameHandlers := mkGameHandlers {
  onMineHit : World → GameState → Coordinate → Time → Outcome;
  onHintCell : World → GameState → Coordinate → Z → Time → Outcome;
  onEmptyCell : World → GameState → Coordinate → Time → Outcome
}.

Definition NewGameHandlers : GameHandlers :=
  mkGameHandlers HandleMineHit HandleHintCell HandleEmptyCell.

Record GameController := mkGameController {
  Namespace : string;
  Handlers : GameHandlers
}.

Definition NewGameController (namespace : string) : GameController :=
  mkGameController namespace NewGameHandlers.

Definition handlePodDeletion (r : GameController) (w : World)
    (coords : Coordinate) (now : Time) : Outcome :=
  let '(store, k) := w in
  '(store', loaded) ← Load store;
  match loaded with
  | Err e => Some ((store', k), Some e)
  | Ok None => Some ((store', k), None)
  | Ok (Some state) =>
      if decide (Status state ≠ StatusPlaying) then Some ((store', k), None)
      else
        revealed ← IsRevealed state (X coords) (Y coords);
        if (revealed : bool) then Some ((store', k), None)
        else
          mine ← IsMine state (X coords) (Y coords);
          if (mine : bool)
          then onMineHit (Handlers r) (store', k) state coords now
          else
            adjacentMines ← AdjacentMines state (X coords) (Y coords);
            if decide (adjacentMines > 0)
            then onHintCell (Handlers r) (store', k) state coords
                   adjacentMines now
            else onEmptyCell (Handlers r) (store', k) state coords now
  end.

Definition Reconcile (r : GameController) (w : World)
    (reqNamespace reqName : string) (now : Time) : Outcome :=
  if decide (reqNamespace ≠ Namespace r) then Some (w, None)
  else
    match ParsePodName reqName with
    | None => Some (w, None)
    | Some coords =>
        let '(store, k) := w in
        match Get k reqName with
        | (k', Err e) =>
            if IsNotFound e then handlePodDeletion r (store, k') coords now
            else Some ((store, k'), Some e)
        | (k', Ok pod) =>
            if terminating pod then Some ((store, k'), None)
            else Some ((store, k'), None)
        end
    end.

End Reconciler.

End Controller.

(** * Properties *)

(** ** Well-formed game states *)

Section GameFacts.
Import Game.

(** A matrix of [size] rows of [size] cells. *)
Definition grid_wf (size : Z) (m : list (list bool)) : Prop :=
  Z.of_nat (length m) = size ∧
  Forall (λ row, Z.of_nat (length row) = size) m.

(** The invariant on the shape of a state: both matrices are [Size] by
    [Size], and the number of cells is an [int]. *)
Definition wf (g : GameState) : Prop :=
  grid_wf (Size g) (MineMap g) ∧ grid_wf (Size g) (Revealed g) ∧
  Size g * Size g ≤ int_max.

Definition in_grid (g : GameState) (x y : Z) : Prop :=
  0 ≤ x < Size g ∧ 0 ≤ y < Size g.

Lemma IsValidCoordinate_true g x y :
  IsValidCoordinate g x y = true ↔ in_grid g x y.
Proof.
  unfold IsValidCoordinate, in_grid.
  rewrite !andb_true_iff, !bool_decide_eq_true. lia.
Qed.

Lemma IsValidCoordinate_false g x y :
  IsValidCoordinate g x y = false ↔ ¬ in_grid g x y.
Proof.
  rewrite <- IsValidCoordinate_true. destruct (IsValidCoordinate g x y); naive_solver.
Qed.

Lemma grid_wf_row size m x row :
  grid_wf size m → index m x = Some row → Z.of_nat (length row) = size.
Proof.
  intros [_ Hrows] Hx. apply index_inv in Hx as [_ Hx].
  rewrite Forall_lookup in Hrows. by eapply Hrows.
Qed.

Lemma index2_is_Some size m x y :
  grid_wf size m → 0 ≤ x < size → 0 ≤ y < size → is_Some (index2 m x y).
Proof.
  intros Hwf Hx Hy. unfold index2.
  destruct (index_Some m x) as [row Hrow]; [destruct Hwf; lia|].
  rewrite Hrow. simpl. apply index_Some.
  rewrite (grid_wf_row _ _ _ _ Hwf Hrow). lia.
Qed.

Lemma set_index_Some {A} (s : list A) i v :
  0 ≤ i < Z.of_nat (length s) → set_index s i v = Some (<[Z.to_nat i := v]> s).
Proof. intros Hi. unfold set_index. by rewrite decide_True. Qed.

Lemma index_insert_eq {A} (s : list A) i v :
  0 ≤ i < Z.of_nat (length s) → index (<[Z.to_nat i := v]> s) i = Some v.
Proof.
  intros Hi. unfold index. rewrite decide_True by lia.
  apply list_lookup_insert_eq. lia.
Qed.

Lemma index_insert_ne {A} (s : list A) i j v :
  0 ≤ i → i ≠ j → index (<[Z.to_nat i := v]> s) j = index s j.
Proof.
  intros Hi Hne. unfold index. case_decide; [|done].
  apply list_lookup_insert_ne. lia.
Qed.

(** Writing one cell of a well-formed matrix: the write succeeds, keeps the
    shape, is read back, and leaves every other cell as it was. *)
Lemma set_index2_spec size m x y v :
  grid_wf size m → 0 ≤ x < size → 0 ≤ y < size →
  ∃ m', set_index2 m x y v = Some m' ∧ grid_wf size m' ∧
        index2 m' x y = Some v ∧
        ∀ x' y', (x', y') ≠ (x, y) → index2 m' x' y' = index2 m x' y'.
Proof.
  intros Hwf Hx Hy. unfold set_index2.
  destruct (index_Some m x) as [row Hrow]; [destruct Hwf; lia|].
  pose proof (grid_wf_row _ _ _ _ Hwf Hrow) as Hlen.
  rewrite Hrow. simpl.
  rewrite set_index_Some by lia. simpl.
  destruct Hwf as [Hm Hrows].
  rewrite set_index_Some by lia.
  eexists. split; [done|]. split; [|split].
  - split; [by rewrite length_insert|].
    apply Forall_insert; [done|]. by rewrite length_insert.
  - unfold index2. rewrite index_insert_eq by lia. simpl.
    apply index_insert_eq. lia.
  - intros x' y' Hne. unfold index2.
    destruct (decide (x' = x)) as [->|Hxx].
    + rewrite index_insert_eq by lia. rewrite Hrow. simpl.
      apply index_insert_ne; [lia|]. congruence.
    + by rewrite index_insert_ne by lia.
Qed.

Lemma IsMine_is_Some g x y : wf g → is_Some (IsMine g x y).
Proof.
  intros (Hm & _ & _). unfold IsMine.
  destruct (IsValidCoordinate g x y) eqn:Hv; simpl; [|done].
  apply IsValidCoordinate_true in Hv as [??]. by eapply index2_is_Some.
Qed.

Lemma IsRevealed_is_Some g x y : wf g → is_Some (IsRevealed g x y).
Proof.
  intros (_ & Hr & _). unfold IsRevealed.
  destruct (IsValidCoordinate g x y) eqn:Hv; simpl; [|done].
  apply IsValidCoordinate_true in Hv as [??]. by eapply index2_is_Some.
Qed.

Lemma IsMine_outside g x y : ¬ in_grid g x y → IsMine g x y = Some false.
Proof.
  intros Hv%IsValidCoordinate_false. unfold IsMine. by rewrite Hv.
Qed.

Lemma IsRevealed_outside g x y :
  ¬ in_grid g x y → IsRevealed g x y = Some false.
Proof.
  intros Hv%IsValidCoordinate_false. unfold IsRevealed. by rewrite Hv.
Qed.

Lemma IsMine_true_in_grid g x y : IsMine g x y = Some true → in_grid g x y.
Proof.
  unfold IsMine. destruct (IsValidCoordinate g x y) eqn:Hv; simpl; [|done].
  intros _. by apply IsValidCoordinate_true.
Qed.

Lemma IsRevealed_true_in_grid g x y :
  IsRevealed g x y = Some true → in_grid g x y.
Proof.
  unfold IsRevealed. destruct (IsValidCoordinate g x y) eqn:Hv; simpl; [|done].
  intros _. by apply IsValidCoordinate_true.
Qed.

(** [AdjacentMines] neither panics nor leaves [[0, 8]] on a well-formed
    state, whatever the coordinate. *)
Lemma AdjacentMines_is_Some g x y :
  wf g → ∃ n, AdjacentMines g x y = Some n ∧ 0 ≤ n ≤ 8.
Proof.
  intros Hwf. unfold AdjacentMines, deltas. simpl.
  repeat match goal with
  | |- context [IsMine g ?a ?b] =>
      let b' := fresh "m" in
      destruct (IsMine_is_Some g a b Hwf) as [b' ->]; simpl
  end.
  eexists; split; [done|].
  destruct m, m0, m1, m2, m3, m4, m5, m6; vm_compute; split; discriminate.
Qed.

End GameFacts.

(** ** The operations of the grid model and its invariants *)

Section GameInvariants.
Import Game.

(** The number of true entries of a row and of a matrix. *)
Definition count_row (row : list bool) : Z :=
  Z.of_nat (length (filter (λ b, b = true) row)).

Definition count_mines (m : list (list bool)) : Z :=
  foldr (λ row n, count_row row + n) 0 m.

(** The data-model invariant: the shape, and [MineCount] is the live count. *)
Definition Inv (g : GameState) : Prop :=
  wf g ∧ MineCount g = count_mines (MineMap g).

(** A revealed cell of [g] is still revealed in [g']. *)
Definition revealed_mono (g g' : GameState) : Prop :=
  ∀ x y, IsRevealed g x y = Some true → IsRevealed g' x y = Some true.

(** The transitions the specification allows for the status. *)
Definition status_step_ok (s s' : GameStatus) : Prop :=
  s' = s ∨ (s = StatusPlaying ∧ (s' = StatusWon ∨ s' = StatusLost)).

(** The five mutators, as one type. *)
Inductive Op :=
  | OpSetMine (x y : Z)
  | OpReveal (x y : Z)
  | OpSetWon (now : Time)
  | OpSetLost (now : Time)
  | OpAddHintCell (x y : Z).

Definition run_op (o : Op) (g : GameState) : option GameState :=
  match o with
  | OpSetMine x y => fst <$> SetMine g x y
  | OpReveal x y => fst <$> Reveal g x y
  | OpSetWon now => Some (SetWon g now)
  | OpSetLost now => Some (SetLost g now)
  | OpAddHintCell x y => Some (AddHintCell g x y)
  end.

Definition keeps_status (o : Op) : bool :=
  match o with
  | OpSetWon _ | OpSetLost _ => false
  | _ => true
  end.

Lemma count_row_bounds row : 0 ≤ count_row row ≤ Z.of_nat (length row).
Proof.
  unfold count_row. pose proof (length_filter (λ b, b = true) row). lia.
Qed.

Lemma count_row_insert row i :
  row !! i = Some false → count_row (<[i := true]> row) = count_row row + 1.
Proof.
  intros Hi. unfold count_row.
  rewrite <- (take_drop_middle row i false Hi) at 2.
  rewrite insert_take_drop by (by eapply lookup_lt_Some).
  rewrite !filter_app, !length_app, !filter_cons.
  rewrite decide_True by done. rewrite decide_False by done.
  simpl. lia.
Qed.

Lemma count_mines_app m1 m2 :
  count_mines (m1 ++ m2) = count_mines m1 + count_mines m2.
Proof.
  induction m1 as [|row m1 IH]; simpl; [done|]. rewrite IH. lia.
Qed.

Lemma count_mines_insert m i row row' :
  m !! i = Some row →
  count_mines (<[i := row']> m) = count_mines m - count_row row + count_row row'.
Proof.
  intros Hi.
  rewrite <- (take_drop_middle m i row Hi) at 2.
  rewrite insert_take_drop by (by eapply lookup_lt_Some).
  rewrite !count_mines_app. simpl. lia.
Qed.

Lemma count_mines_bounds size m :
  grid_wf size m → 0 ≤ count_mines m ≤ size * size.
Proof.
  intros [Hlen Hrows].
  assert (0 ≤ count_mines m ≤ Z.of_nat (length m) * size) as Hb; [|by rewrite Hlen in Hb].
  clear Hlen. induction Hrows as [|row m Hrow Hrows IH]; simpl; [lia|].
  pose proof (count_row_bounds row). lia.
Qed.

Lemma set_index2_count m x y m' :
  index2 m x y = Some false → set_index2 m x y true = Some m' →
  count_mines m' = count_mines m + 1.
Proof.
  unfold index2, set_index2. intros Hget Hset.
  destruct (index m x) as [row|] eqn:Hrow; simpl in *; [|done].
  unfold set_index in Hset.
  repeat case_decide; simplify_option_eq.
  apply index_inv in Hrow as [_ Hrow]. apply index_inv in Hget as [_ Hget].
  rewrite (count_mines_insert _ _ row) by done.
  rewrite count_row_insert by done. lia.
Qed.

(** [SetMine] on a state that satisfies the invariant. *)
Lemma SetMine_spec g x y :
  Inv g →
  ∃ g' ok, SetMine g x y = Some (g', ok) ∧ Inv g' ∧
    ok = IsValidCoordinate g x y ∧
    Size g' = Size g ∧ Status g' = Status g ∧ Revealed g' = Revealed g ∧
    Clicks g' = Clicks g ∧
    (ok = false → g' = g) ∧
    (ok = true → IsMine g' x y = Some true) ∧
    (∀ x' y', (x', y') ≠ (x, y) → IsMine g' x' y' = IsMine g x' y') ∧
    (IsMine g x y = Some true → g' = g).
Proof.
  intros HInv. pose proof HInv as [Hwf Hcount]. unfold SetMine.
  destruct (IsValidCoordinate g x y) eqn:Hv; simpl.
  2:{ exists g, false. unfold IsMine. rewrite Hv. simpl.
      split_and!; done. }
  pose proof Hv as [Hx Hy]%IsValidCoordinate_true.
  destruct Hwf as (Hm & Hr & Hsz).
  destruct (index2_is_Some _ _ x y Hm Hx Hy) as [m Hget]. rewrite Hget. simpl.
  destruct m.
  { exists g, true. unfold IsMine. rewrite Hv. simpl.
    split_and!; done. }
  destruct (set_index2_spec _ _ x y true Hm Hx Hy)
    as (m' & Hset & Hm' & Hread & Hothers).
  rewrite Hset. simpl.
  pose proof (set_index2_count _ _ _ _ Hget Hset) as Hc.
  pose proof (count_mines_bounds _ _ Hm').
  pose proof (count_mines_bounds _ _ Hm).
  eexists _, true. split; [done|].
  assert (wrap (MineCount g + 1) = count_mines m') as Hw.
  { rewrite wrap_in_int; [lia|]. unfold in_int, int_min, int_max in *. lia. }
  split_and!; simpl; try done.
  - intros _. unfold IsMine, IsValidCoordinate. simpl.
    unfold IsValidCoordinate in Hv. by rewrite Hv.
  - intros x' y' Hne. unfold IsMine, IsValidCoordinate. simpl.
    by rewrite Hothers.
  - unfold IsMine. rewrite Hv, Hget. done.
Qed.

(** [Reveal] on a well-formed state. *)
Lemma Reveal_spec g x y :
  wf g →
  ∃ g' ok, Reveal g x y = Some (g', ok) ∧ wf g' ∧
    Size g' = Size g ∧ Status g' = Status g ∧ MineMap g' = MineMap g ∧
    MineCount g' = MineCount g ∧ HintCells g' = HintCells g ∧
    ok = (IsValidCoordinate g x y &&
          negb (default false (IsRevealed g x y))) ∧
    (ok = false → g' = g) ∧
    (ok = true → IsRevealed g' x y = Some true ∧
                 Clicks g' = wrap (Clicks g + 1)) ∧
    (∀ x' y', (x', y') ≠ (x, y) → IsRevealed g' x' y' = IsRevealed g x' y').
Proof.
  intros Hwf. unfold Reveal, IsRevealed.
  destruct (IsValidCoordinate g x y) eqn:Hv; simpl.
  2:{ exists g, false. split_and!; done. }
  pose proof Hv as [Hx Hy]%IsValidCoordinate_true.
  pose proof Hwf as (Hm & Hr & Hsz).
  destruct (index2_is_Some _ _ x y Hr Hx Hy) as [r Hget]. rewrite Hget. simpl.
  destruct r.
  { exists g, false. split_and!; done. }
  destruct (set_index2_spec _ _ x y true Hr Hx Hy)
    as (r' & Hset & Hr' & Hread & Hothers).
  rewrite Hset. simpl.
  eexists _, true. split; [done|].
  split_and!; simpl; try done.
  - intros _. unfold IsValidCoordinate in *. simpl. by rewrite Hv.
  - intros x' y' Hne. unfold IsValidCoordinate. simpl. by rewrite Hothers.
Qed.

Lemma Reveal_mono g x y g' ok :
  wf g → Reveal g x y = Some (g', ok) → revealed_mono g g'.
Proof.
  intros Hwf Hrev.
  destruct (Reveal_spec g x y Hwf) as (g1 & ok1 & Heq & _ & _ & _ & _ & _ & _ & _ & Hno & Hyes & Hothers).
  rewrite Hrev in Heq. injection Heq as <- <-.
  intros x' y' Hxy.
  destruct (decide ((x', y') = (x, y))) as [[= -> ->]|Hne].
  - destruct ok; [by apply Hyes|]. by rewrite Hno.
  - by rewrite Hothers.
Qed.

End GameInvariants.

Section GameOperations.
Import Game.

Lemma revealed_mono_same_matrix g g' :
  Size g' = Size g → Revealed g' = Revealed g → revealed_mono g g'.
Proof.
  intros Hs Hr x y. unfold IsRevealed, IsValidCoordinate. by rewrite Hs, Hr.
Qed.

(** A state that has been won, then lost: the setters do not look at the
    status they overwrite. *)
Definition won_state : GameState :=
  mkGameState 1 0 0 StatusWon [[false]] [[true]] [] 0 1 2 1.

(** C5, the claim as stated fails: [SetLost] takes a state whose status is
    Won to one whose status is Lost, a transition out of a terminal status. *)
Lemma C5_setters_overwrite_terminal_status :
  Inv won_state ∧
  run_op (OpSetLost 3) won_state = Some (SetLost won_state 3) ∧
  Status won_state = StatusWon ∧
  Status (SetLost won_state 3) = StatusLost ∧
  ¬ status_step_ok (Status won_state) (Status (SetLost won_state 3)).
Proof.
  split_and!; try done.
  - split; [|done]. split_and!; try done.
    + split; [done|]. by repeat constructor.
    + split; [done|]. by repeat constructor.
  - intros [H|[H _]]; discriminate H.
Qed.

(** C5, amended: every operation of the grid model succeeds on a state that
    satisfies the invariant and preserves it (matrices of [Size] rows and
    columns, [MineCount] equal to the number of mines); a revealed cell stays
    revealed; a [SetMine] on a cell that already holds a mine changes
    nothing; [SetMine], [Reveal] and [AddHintCell] leave the status alone;
    [SetWon] and [SetLost] set it to Won and to Lost whatever it was, so
    that from Playing the only transitions are Playing to Won and Playing to
    Lost. *)
Theorem C5_operations_preserve_invariants (o : Op) (g : GameState) :
  Inv g →
  ∃ g', run_op o g = Some g' ∧
    Inv g' ∧
    Size g' = Size g ∧
    Z.of_nat (length (MineMap g')) = Size g' ∧
    Z.of_nat (length (Revealed g')) = Size g' ∧
    MineCount g' = count_mines (MineMap g') ∧
    revealed_mono g g' ∧
    (∀ x y, o = OpSetMine x y → IsMine g x y = Some true → g' = g) ∧
    (keeps_status o = true → Status g' = Status g) ∧
    (∀ now, o = OpSetWon now → Status g' = StatusWon) ∧
    (∀ now, o = OpSetLost now → Status g' = StatusLost) ∧
    (Status g = StatusPlaying → status_step_ok (Status g) (Status g')).
Proof.
  intros HInv.
  assert (∀ g', Inv g' → Z.of_nat (length (MineMap g')) = Size g' ∧
            Z.of_nat (length (Revealed g')) = Size g' ∧
            MineCount g' = count_mines (MineMap g')) as Hshape.
  { intros g' [([? _] & [? _] & _) ?]. done. }
  destruct o as [x y|x y|now|now|x y]; simpl.
  - destruct (SetMine_spec g x y HInv)
      as (g' & ok & -> & HInv' & _ & Hsz & Hst & Hrev & _ & _ & _ & _ & Hdup).
    exists g'. simpl. destruct (Hshape g' HInv') as (? & ? & ?).
    split_and!; try done.
    + by apply revealed_mono_same_matrix.
    + intros x' y' [= -> ->]. apply Hdup.
    + intros _. left. done.
  - pose proof HInv as [Hwf Hcount].
    destruct (Reveal_spec g x y Hwf)
      as (g' & ok & Heq & Hwf' & Hsz & Hst & Hmm & Hmc & _).
    rewrite Heq. exists g'. simpl.
    assert (Inv g') as HInv' by (split; [done|]; by rewrite Hmc, Hmm).
    destruct (Hshape g' HInv') as (? & ? & ?).
    split_and!; try done.
    + by eapply Reveal_mono.
    + intros _. left. done.
  - exists (SetWon g now). destruct (Hshape g HInv) as (? & ? & ?).
    split_and!; try done.
    + by apply revealed_mono_same_matrix.
    + intros ->. right. split; [done|]. by left.
  - exists (SetLost g now). destruct (Hshape g HInv) as (? & ? & ?).
    split_and!; try done.
    + by apply revealed_mono_same_matrix.
    + intros ->. right. split; [done|]. by right.
  - exists (AddHintCell g x y). destruct (Hshape g HInv) as (? & ? & ?).
    split_and!; try done.
    + by apply revealed_mono_same_matrix.
    + intros _. by left.
Qed.

(** A fresh 2 by 2 grid with one mine, used to exercise the theorems. *)
Definition sample_state : GameState :=
  mkGameState 2 0 0 StatusPlaying
    [[true; false]; [false; false]] [[false; false]; [false; false]]
    [] 1 1 zero_time 0.

Lemma C5_operations_preserve_invariants_witness :
  Inv sample_state ∧
  ∃ g', run_op (OpReveal 1 1) sample_state = Some g' ∧
    Inv g' ∧
    Size g' = Size sample_state ∧
    Z.of_nat (length (MineMap g')) = Size g' ∧
    Z.of_nat (length (Revealed g')) = Size g' ∧
    MineCount g' = count_mines (MineMap g') ∧
    revealed_mono sample_state g' ∧
    (∀ x y, OpReveal 1 1 = OpSetMine x y →
       IsMine sample_state x y = Some true → g' = sample_state) ∧
    (keeps_status (OpReveal 1 1) = true → Status g' = Status sample_state) ∧
    (∀ now, OpReveal 1 1 = OpSetWon now → Status g' = StatusWon) ∧
    (∀ now, OpReveal 1 1 = OpSetLost now → Status g' = StatusLost) ∧
    (Status sample_state = StatusPlaying →
     status_step_ok (Status sample_state) (Status g')).
Proof.
  assert (Inv sample_state) as HInv.
  { split; [|reflexivity]. split_and!; try done.
    - split; [reflexivity|]. by repeat constructor.
    - split; [reflexivity|]. by repeat constructor. }
  split; [exact HInv|].
  apply (C5_operations_preserve_invariants (OpReveal 1 1) sample_state HInv).
Defined.

End GameOperations.

(** ** The guards of the reconciler *)

Section ReconcilerGuards.
Import Game Api Store Controller.

(** A cluster without pods and without faults. *)
Definition empty_cluster : Cluster := mkCluster ∅ [] (λ _, None).

Lemma Clone_wf g : wf g → Clone g = Some g.
Proof.
  intros (Hm & Hr & _).
  assert (∀ m, grid_wf (Size g) m → clone_grid (Size g) m = Some m) as Hgrid.
  { intros m [Hlen Hrows]. unfold clone_grid.
    rewrite decide_True by lia.
    apply mapM_Some_2. apply Forall2_same_length_lookup_2.
    { rewrite length_seqZ. lia. }
    intros i z row Hz Hrow. apply lookup_seqZ in Hz as [-> Hi].
    unfold index. rewrite decide_True by lia. simpl.
    replace (Z.to_nat (0 + Z.of_nat i)) with i by lia.
    rewrite Hrow. simpl. f_equal.
    rewrite Forall_lookup in Hrows. specialize (Hrows _ _ Hrow).
    unfold clone_row.
    rewrite take_ge by lia.
    replace (Z.to_nat (Size g) - length row)%nat with 0%nat by lia.
    simpl. by rewrite app_nil_r. }
  unfold Clone. rewrite (Hgrid _ Hm), (Hgrid _ Hr). simpl. by destruct g.
Qed.

(** The reconciler ignores an event when the store holds no state. *)
Lemma handlePodDeletion_absent {S} `{!Store S} (r : GameController)
    (store store' : S) k c now :
  Load store = Some (store', Ok None) →
  handlePodDeletion r (store, k) c now = Some ((store', k), None).
Proof. intros HL. unfold handlePodDeletion. rewrite HL. done. Qed.

(** The reconciler ignores an event when the game is over. *)
Lemma handlePodDeletion_terminal {S} `{!Store S} (r : GameController)
    (store store' : S) k c now st :
  Load store = Some (store', Ok (Some st)) →
  Status st ≠ StatusPlaying →
  handlePodDeletion r (store, k) c now = Some ((store', k), None).
Proof.
  intros HL Hst. unfold handlePodDeletion. rewrite HL. simpl.
  by rewrite decide_True.
Qed.

(** The reconciler ignores an event on a cell that is already revealed. *)
Lemma handlePodDeletion_revealed {S} `{!Store S} (r : GameController)
    (store store' : S) k c now st :
  Load store = Some (store', Ok (Some st)) →
  IsRevealed st (X c) (Y c) = Some true →
  handlePodDeletion r (store, k) c now = Some ((store', k), None).
Proof.
  intros HL Hrev. unfold handlePodDeletion. rewrite HL. simpl.
  case_decide; [done|]. rewrite Hrev. done.
Qed.

(** C6: on a well-formed state, revealing an unrevealed cell of the grid
    returns true and adds one to [Clicks]; revealing it again returns false
    and changes nothing (neither the revealed matrix nor [Clicks]); and the
    reconciler ignores a deletion whose cell is already revealed, whatever
    its handlers are. *)
Theorem C6_reveal_is_idempotent {S} `{!Store S} (g : GameState) (x y : Z) :
  wf g → in_grid g x y → IsRevealed g x y = Some false →
  ∃ g1,
    Reveal g x y = Some (g1, true) ∧
    Clicks g1 = wrap (Clicks g + 1) ∧
    (Clicks g < int_max → int_min ≤ Clicks g → Clicks g1 = Clicks g + 1) ∧
    IsRevealed g1 x y = Some true ∧
    Reveal g1 x y = Some (g1, false) ∧
    ∀ (r : GameController) (store store' : S) k now,
      Load store = Some (store', Ok (Some g1)) →
      handlePodDeletion r (store, k) (mkCoordinate x y) now
      = Some ((store', k), None).
Proof.
  intros Hwf Hin Hrev.
  destruct (Reveal_spec g x y Hwf)
    as (g1 & ok & Heq & Hwf1 & _ & _ & _ & _ & _ & Hok & _ & Hyes & _).
  apply IsValidCoordinate_true in Hin. rewrite Hin, Hrev in Hok.
  simpl in Hok. subst ok. destruct (Hyes eq_refl) as [Hrev1 Hclicks].
  exists g1. split_and!; try done.
  - intros Hmax Hmin. rewrite Hclicks. apply wrap_in_int.
    unfold in_int, int_min, int_max in *. lia.
  - destruct (Reveal_spec g1 x y Hwf1)
      as (g2 & ok2 & Heq2 & _ & _ & _ & _ & _ & _ & Hok2 & Hno & _).
    rewrite Hrev1 in Hok2. rewrite andb_false_r in Hok2. subst ok2.
    by rewrite (Hno eq_refl) in Heq2.
  - intros r store store' k now HL.
    by eapply handlePodDeletion_revealed.
Qed.

Lemma C6_reveal_is_idempotent_witness :
  wf sample_state ∧ in_grid sample_state 1 1 ∧
  IsRevealed sample_state 1 1 = Some false ∧
  ∃ g1,
    Reveal sample_state 1 1 = Some (g1, true) ∧
    Clicks g1 = wrap (Clicks sample_state + 1) ∧
    (Clicks sample_state < int_max → int_min ≤ Clicks sample_state →
     Clicks g1 = Clicks sample_state + 1) ∧
    IsRevealed g1 1 1 = Some true ∧
    Reveal g1 1 1 = Some (g1, false) ∧
    ∀ (r : GameController) (store store' : MemoryStore) k now,
      Load store = Some (store', Ok (Some g1)) →
      handlePodDeletion r (store, k) (mkCoordinate 1 1) now
      = Some ((store', k), None).
Proof.
  assert (wf sample_state) as Hwf.
  { split_and!; try done.
    - split; [reflexivity|]. by repeat constructor.
    - split; [reflexivity|]. by repeat constructor. }
  assert (in_grid sample_state 1 1) as Hin by (unfold in_grid; simpl; lia).
  split_and!; [exact Hwf|exact Hin|reflexivity|].
  apply (C6_reveal_is_idempotent sample_state 1 1 Hwf Hin eq_refl).
Defined.

(** C7: when [Load] yields the absent value, or a state whose status is not
    Playing, the reconciler returns no error, runs no handler (the outcome
    is the same for every set of handlers) and leaves the world as [Load]
    left it; [Load] itself never changes the stored document, and on a store
    that holds nothing it yields the absent value, not an error. *)
Theorem C7_no_active_game_is_ignored {S} `{!Store S} `{!JSON}
    (r : GameController) (store store' : S) (k : Cluster) (c : Coordinate)
    (now : Time) (loaded : option GameState) :
  Load store = Some (store', Ok loaded) →
  (∀ st, loaded = Some st → Status st ≠ StatusPlaying) →
  handlePodDeletion r (store, k) c now = Some ((store', k), None) ∧
  (∀ m : MemoryStore,
     mem_state m = None → Load m = Some (m, Ok None)) ∧
  (∀ (m : MemoryStore) out, Load m = Some out → out.1 = m) ∧
  (∀ s : SecretStore,
     secret s = None → secret_fault s (secret_requests s) = None →
     Load s = Some (secret_issue s, Ok None)) ∧
  (∀ (s : SecretStore) out, Load s = Some out → secret out.1 = secret s).
Proof.
  intros HL Hst. split_and!.
  - destruct loaded as [st|].
    + eapply handlePodDeletion_terminal; [done|]. by apply Hst.
    + by apply handlePodDeletion_absent.
  - intros m Hm. simpl. unfold MemoryStore_Load. by rewrite Hm.
  - intros m out. simpl. unfold MemoryStore_Load.
    destruct (mem_state m) as [st|]; [|by intros [= <-]].
    destruct (Clone st); simpl; [|done]. by intros [= <-].
  - intros s Hs Hf. simpl. unfold SecretStore_Load, secret_get.
    by rewrite Hf, Hs.
  - intros s out. simpl. unfold SecretStore_Load, secret_get.
    repeat case_match; simplify_eq; by intros [= <-].
Qed.

(** A codec that encodes nothing, to instantiate the Secret store. *)
Definition null_JSON : JSON :=
  {| ToJSON := λ _, Ok "{}"; FromJSON := λ _, Err (Failed "not a game state") |}.

Lemma C7_no_active_game_is_ignored_witness :
  Load NewMemoryStore = Some (NewMemoryStore, Ok None) ∧
  (∀ st : GameState, None = Some st → Status st ≠ StatusPlaying) ∧
  handlePodDeletion (NewGameController "podsweeper-game")
    (NewMemoryStore, empty_cluster) (mkCoordinate 0 0) 1
  = Some ((NewMemoryStore, empty_cluster), None) ∧
  (∀ m : MemoryStore,
     mem_state m = None → Load m = Some (m, Ok None)) ∧
  (∀ (m : MemoryStore) out, Load m = Some out → out.1 = m) ∧
  (∀ s : SecretStore,
     secret s = None → secret_fault s (secret_requests s) = None →
     @Load _ (@SecretStore_Store null_JSON) s = Some (secret_issue s, Ok None)) ∧
  (∀ (s : SecretStore) out,
     @Load _ (@SecretStore_Store null_JSON) s = Some out →
     secret out.1 = secret s).
Proof.
  assert (∀ st : GameState, @None GameState = Some st →
            Status st ≠ StatusPlaying) as Hst by (intros st; discriminate).
  assert (Load NewMemoryStore = Some (NewMemoryStore, Ok None)) as HL
    by reflexivity.
  split; [exact HL|]. split; [exact Hst|].
  apply (@C7_no_active_game_is_ignored MemoryStore _ null_JSON
           (NewGameController "podsweeper-game") NewMemoryStore NewMemoryStore
           empty_cluster (mkCoordinate 0 0) 1 None HL Hst).
Defined.

End ReconcilerGuards.

(** ** The mine count of the generator *)

Section MineCount.
Import Game Grid.

(** The float64 product that [CalculateMineCount] truncates. *)
Definition density_product (c : Config) : float64 :=
  f64_mul (f64_of_int (cfgSize c * cfgSize c)) (MineDensity c).

(** The upper clamp: [MaxMineCount] when it is set. *)
Definition cap_max (c : Config) (v : Z) : Z :=
  if decide (MaxMineCount c > 0) then Z.min (MaxMineCount c) v else v.

(** The count as the specification words it: the exact product of the number
    of cells and of the density, rounded to the nearest integer, then clamped
    to [minMineCount, min(maxMineCount or infinity, size * size - 1)]. *)
Definition round_nearest (num den : Z) : Z := (2 * num + den) `div` (2 * den).

Definition spec_rounded_product (c : Config) : Z :=
  let total := cfgSize c * cfgSize c in
  match MineDensity c with
  | S754_finite false m e =>
      if decide (0 ≤ e) then total * Z.pos m * 2 ^ e
      else round_nearest (total * Z.pos m) (2 ^ (- e))
  | _ => 0
  end.

Definition spec_mine_count (c : Config) : Z :=
  let total := cfgSize c * cfgSize c in
  Z.min (Z.min (if decide (MaxMineCount c > 0) then MaxMineCount c
                else total - 1) (total - 1))
        (Z.max (MinMineCount c) (spec_rounded_product c)).

Lemma Validate_None c :
  Validate c = None →
  1 ≤ cfgSize c ≤ 100 ∧ 0 ≤ MinMineCount c ∧ 0 ≤ MaxMineCount c ∧
  (MaxMineCount c > 0 → MinMineCount c ≤ MaxMineCount c) ∧
  f64_lt (MineDensity c) MinMineDensity = false ∧
  f64_lt MaxMineDensity (MineDensity c) = false.
Proof.
  unfold Validate. intros Hv.
  destruct (f64_lt (MineDensity c) MinMineDensity);
    destruct (f64_lt MaxMineDensity (MineDensity c));
    repeat case_decide; try discriminate.
  split_and!; try done; lia.
Qed.

(** A 4 by 4 grid at density 0.3: the product is 4.8. *)
Definition config_4_03 : Config := mkConfig 4 0 (f64_const 30 100) 1 0.

(** C4, the claim as stated fails: the code truncates the product where the
    specification rounds it.  At size 4 and density 0.3 the configuration is
    valid, the code places 4 mines and the rounded count is 5. *)
Lemma C4_count_is_truncated_not_rounded :
  Validate config_4_03 = None ∧
  CalculateMineCount config_4_03 = 4 ∧
  spec_mine_count config_4_03 = 5.
Proof. split_and!; reflexivity. Qed.

(** The three clamps of [CalculateMineCount], read as bounds. *)
Lemma CalculateMineCount_clamped (c : Config) :
  Validate c = None →
  let total := cfgSize c * cfgSize c in
  let raw := f64_to_int (density_product c) in
  CalculateMineCount c
    = Z.min (total - 1) (cap_max c (Z.max (MinMineCount c) raw)) ∧
  Z.min (MinMineCount c) (total - 1) ≤ CalculateMineCount c ∧
  CalculateMineCount c
    ≤ Z.min (if decide (MaxMineCount c > 0) then MaxMineCount c
             else total - 1) (total - 1) ∧
  0 ≤ CalculateMineCount c < total.
Proof.
  intros Hv total raw.
  destruct (Validate_None c Hv) as (Hsize & Hmin & Hmax & Hmm & _ & _).
  assert (1 ≤ total ≤ 10000) as Htotal by (unfold total; nia).
  assert (wrap total = total) as Hw1.
  { apply wrap_in_int. unfold in_int, int_min, int_max. lia. }
  assert (wrap (total - 1) = total - 1) as Hw2.
  { apply wrap_in_int. unfold in_int, int_min, int_max. lia. }
  unfold CalculateMineCount. fold total. rewrite Hw1.
  change (f64_to_int (f64_mul (f64_of_int total) (MineDensity c))) with raw.
  unfold enforce_cells, enforce_max, enforce_min, cap_max. rewrite Hw2.
  repeat case_decide; lia.
Qed.

(** C4, amended: for every valid configuration the mine count is the float64
    product [float64(size * size) * density] truncated toward zero, raised to
    [minMineCount], lowered to [maxMineCount] when that is set, and lowered
    to [size * size - 1]; it lies between [min(minMineCount, size*size - 1)]
    and [min(maxMineCount or size*size - 1, size*size - 1)], is not negative,
    and leaves at least one safe cell. *)
Theorem C4_mine_count_bounds (c : Config) :
  Validate c = None →
  let total := cfgSize c * cfgSize c in
  let raw := f64_to_int (density_product c) in
  CalculateMineCount c
    = Z.min (total - 1) (cap_max c (Z.max (MinMineCount c) raw)) ∧
  Z.min (MinMineCount c) (total - 1) ≤ CalculateMineCount c ∧
  CalculateMineCount c
    ≤ Z.min (if decide (MaxMineCount c > 0) then MaxMineCount c
             else total - 1) (total - 1) ∧
  0 ≤ CalculateMineCount c < total.
Proof. apply CalculateMineCount_clamped. Qed.

Lemma C4_mine_count_bounds_witness :
  Validate config_4_03 = None ∧
  (let total := cfgSize config_4_03 * cfgSize config_4_03 in
   let raw := f64_to_int (density_product config_4_03) in
   CalculateMineCount config_4_03
     = Z.min (total - 1) (cap_max config_4_03 (Z.max (MinMineCount config_4_03) raw)) ∧
   Z.min (MinMineCount config_4_03) (total - 1) ≤ CalculateMineCount config_4_03 ∧
   CalculateMineCount config_4_03
     ≤ Z.min (if decide (MaxMineCount config_4_03 > 0)
              then MaxMineCount config_4_03 else total - 1) (total - 1) ∧
   0 ≤ CalculateMineCount config_4_03 < total).
Proof.
  split; [reflexivity|].
  apply (C4_mine_count_bounds config_4_03). reflexivity.
Defined.

End MineCount.

(** ** Coordinates outside the grid *)

Section OutOfGrid.
Import Game Api Store Controller.

(** Outside the grid the four accessors answer false and change nothing. *)
Lemma accessors_outside_grid g x y :
  ¬ in_grid g x y →
  IsMine g x y = Some false ∧ IsRevealed g x y = Some false ∧
  Reveal g x y = Some (g, false) ∧ SetMine g x y = Some (g, false).
Proof.
  intros Hout. split_and!.
  - by apply IsMine_outside.
  - by apply IsRevealed_outside.
  - apply IsValidCoordinate_false in Hout. unfold Reveal. by rewrite Hout.
  - apply IsValidCoordinate_false in Hout. unfold SetMine. by rewrite Hout.
Qed.

Lemma foldl_preserves {A B} (P : B → Prop) (f : B → A → B) l b :
  P b → (∀ b a, P b → P (f b a)) → P (foldl f b l).
Proof.
  intros Hb Hstep. revert b Hb.
  induction l as [|a l IH]; intros b Hb; simpl; [done|]. by apply IH, Hstep.
Qed.

Lemma GetNeighbors_in_grid g x y c :
  c ∈ GetNeighbors g x y → in_grid g (X c) (Y c).
Proof.
  revert c. apply Forall_forall. unfold GetNeighbors.
  apply foldl_preserves; [by constructor|]. intros ns dx Hns.
  apply foldl_preserves; [done|]. clear ns Hns. intros ns dy Hns.
  destruct (bool_decide (dx = 0) && bool_decide (dy = 0)); [done|]. simpl.
  destruct (IsValidCoordinate g (wrap (x + dx)) (wrap (y + dy))) eqn:Hv;
    [|done].
  apply Forall_app. split; [done|]. constructor; [|constructor].
  by apply IsValidCoordinate_true.
Qed.

(** A 3 by 3 game in progress with one mine, in the corner (0,0). *)
Definition corner_mine_state : GameState :=
  mkGameState 3 0 0 StatusPlaying
    [[true; false; false]; [false; false; false]; [false; false; false]]
    [[false; false; false]; [false; false; false]; [false; false; false]]
    [] 1 1 zero_time 0.

(** Its nine cell pods. *)
Definition corner_mine_cluster : Cluster :=
  mkCluster
    (list_to_map ((λ c, (PodName c, mkPod "cell" None false))
                    <$> Spawner.all_coords 3))
    [] (λ _, None).

(** C10: the deletion of a pod named "pod-3-1" is accepted on a 3 by 3 grid
    although (3,1) is outside it.  The accessors do answer false there, but
    the reconciler goes on to the flood fill, which starts from (3,1), takes
    its in-grid neighbours (2,0), (2,1), (2,2) and reveals the grid from
    them: the revealed matrix changes and the game is won. *)
Theorem C10_deletion_next_to_the_grid_floods_it :
  ParsePodName "pod-3-1" = Some (mkCoordinate 3 1) ∧
  ¬ in_grid corner_mine_state 3 1 ∧
  IsRevealed corner_mine_state 3 1 = Some false ∧
  IsMine corner_mine_state 3 1 = Some false ∧
  AdjacentMines corner_mine_state 3 1 = Some 0 ∧
  GetNeighbors corner_mine_state 3 1
    = [mkCoordinate 2 0; mkCoordinate 2 1; mkCoordinate 2 2] ∧
  ∃ st' k',
    Reconcile (NewGameController "podsweeper-game")
      (mkMemoryStore (Some corner_mine_state), corner_mine_cluster)
      "podsweeper-game" "pod-3-1" 7
    = Some ((mkMemoryStore (Some st'), k'), None) ∧
    MineMap st' = MineMap corner_mine_state ∧
    Revealed st'
      = [[false; true; true]; [true; true; true]; [true; true; true]] ∧
    Revealed st' ≠ Revealed corner_mine_state ∧
    Clicks st' = 8 ∧
    Status st' = StatusWon.
Proof.
  split_and!; try reflexivity.
  - unfold in_grid. simpl. lia.
  - eexists _, _. split; [vm_compute; reflexivity|].
    split_and!; try reflexivity. discriminate.
Qed.

End OutOfGrid.

(** ** Decimal rendering *)

Section Decimal.
Import Game Controller.

Fixpoint has_char (a : ascii) (s : string) : bool :=
  match s with
  | EmptyString => false
  | String c s' => bool_decide (c = a) || has_char a s'
  end.

(** The characters [%d] can print: digits and the minus sign. *)
Fixpoint numeric (s : string) : bool :=
  match s with
  | EmptyString => true
  | String c s' => (is_digit c || bool_decide (c = "-"%char)) && numeric s'
  end.

Lemma pretty_N_char_digit x :
  (x < 10)%N →
  is_digit (pretty_N_char x) = true ∧ digit_val (pretty_N_char x) = Z.of_N x.
Proof.
  intros Hx.
  assert (x = 0 ∨ x = 1 ∨ x = 2 ∨ x = 3 ∨ x = 4 ∨ x = 5 ∨ x = 6 ∨ x = 7
          ∨ x = 8 ∨ x = 9)%N as Hcases by lia.
  repeat (destruct Hcases as [->|Hcases]); try done. by subst x.
Qed.

Lemma all_digits_app s1 s2 :
  all_digits (s1 +:+ s2) = all_digits s1 && all_digits s2.
Proof.
  induction s1 as [|c s1 IH]; simpl; [done|]. rewrite IH. by rewrite andb_assoc.
Qed.

Lemma digits_val_app a s1 s2 :
  digits_val a (s1 +:+ s2) = digits_val (digits_val a s1) s2.
Proof. revert a. induction s1 as [|c s1 IH]; intros a; simpl; [done|]. apply IH. Qed.

Lemma string_length_app (s1 s2 : string) :
  String.length (s1 +:+ s2) = (String.length s1 + String.length s2)%nat.
Proof. induction s1 as [|c s1 IH]; simpl; [done|]. by rewrite IH. Qed.

Lemma append_nil_l (s : string) : "" +:+ s = s.
Proof. reflexivity. Qed.

Lemma append_cons c (s1 s2 : string) :
  String c s1 +:+ s2 = String c (s1 +:+ s2).
Proof. reflexivity. Qed.

Lemma append_nil_r (s : string) : s +:+ "" = s.
Proof. induction s as [|c s IH]; [done|]. rewrite append_cons. by f_equal. Qed.

Lemma append_assoc (s1 s2 s3 : string) :
  (s1 +:+ s2) +:+ s3 = s1 +:+ s2 +:+ s3.
Proof.
  induction s1 as [|c s1 IH]; [done|]. rewrite !append_cons. by f_equal.
Qed.

(** The digits of [x] are put in front of the accumulator. *)
Lemma pretty_N_go_app x s : pretty_N_go x s = pretty_N_go x "" +:+ s.
Proof.
  revert s. induction (N.lt_wf_0 x) as [x _ IH]; intros s.
  destruct (decide (x = 0)%N) as [->|Hx]; [done|].
  rewrite (pretty_N_go_step x s), (pretty_N_go_step x "") by lia.
  assert (x `div` 10 < x)%N as Hlt by (apply N.div_lt; lia).
  rewrite (IH _ Hlt (String _ s)), (IH _ Hlt (String _ "")).
  by rewrite append_assoc, append_cons, append_nil_l.
Qed.

Lemma pretty_N_go_digits x :
  all_digits (pretty_N_go x "") = true ∧
  ∀ a, digits_val a (pretty_N_go x "")
       = a * 10 ^ Z.of_nat (String.length (pretty_N_go x "")) + Z.of_N x.
Proof.
  induction (N.lt_wf_0 x) as [x _ IH].
  destruct (decide (x = 0)%N) as [->|Hx].
  { rewrite pretty_N_go_0. simpl. split; [done|]. intros a. lia. }
  rewrite pretty_N_go_step by lia. rewrite pretty_N_go_app.
  destruct (IH (x `div` 10)%N) as [IHd IHv]; [apply N.div_lt; lia|].
  destruct (pretty_N_char_digit (x `mod` 10)%N) as [Hd Hv];
    [by apply N.mod_lt|].
  split.
  - rewrite all_digits_app, IHd. simpl. by rewrite Hd.
  - intros a. rewrite digits_val_app, IHv, string_length_app. simpl.
    rewrite Hv. rewrite Nat2Z.inj_add, Z.pow_add_r by lia.
    pose proof (N.div_mod x 10). change (10 ^ Z.of_nat 1) with 10. lia.
Qed.

Lemma pretty_N_go_nonempty x : (0 < x)%N → pretty_N_go x "" ≠ "".
Proof.
  intros Hx. rewrite pretty_N_go_step by done. rewrite pretty_N_go_app.
  by destruct (pretty_N_go (x `div` 10) "").
Qed.

(** A natural number prints as a non-empty string of digits that reads back
    as the number. *)
Lemma itoa_nonneg n :
  0 ≤ n →
  itoa n ≠ "" ∧ all_digits (itoa n) = true ∧ digits_val 0 (itoa n) = n.
Proof.
  intros Hn. unfold itoa, pretty, pretty_Z.
  destruct n as [|p|p]; [done| |lia].
  unfold pretty, pretty_positive, pretty, pretty_N.
  rewrite decide_False by done.
  destruct (pretty_N_go_digits (N.pos p)) as [Hd Hv].
  split_and!; [by apply pretty_N_go_nonempty|done|].
  rewrite Hv. simpl. lia.
Qed.

Lemma digit_numeric s : all_digits s = true → numeric s = true.
Proof.
  induction s as [|c s IH]; simpl; [done|].
  intros [Hc Hs]%andb_true_iff. rewrite Hc. simpl. by apply IH.
Qed.

Lemma itoa_numeric n : numeric (itoa n) = true.
Proof.
  destruct (decide (0 ≤ n)) as [Hn|Hn].
  { apply digit_numeric. by apply itoa_nonneg. }
  destruct n as [|p|p]; [lia|lia|].
  destruct (itoa_nonneg (Z.pos p)) as (_ & Hd & _); [lia|].
  unfold itoa, pretty, pretty_Z in *. simpl. by apply digit_numeric.
Qed.

Lemma numeric_no_comma s : numeric s = true → has_char ","%char s = false.
Proof.
  induction s as [|c s IH]; simpl; [done|].
  intros [Hc Hs]%andb_true_iff. rewrite IH by done.
  rewrite orb_false_r. apply bool_decide_eq_false. intros ->. done.
Qed.

(** Cutting at the first comma is unambiguous. *)
Lemma split_at_comma s1 t1 s2 t2 :
  has_char ","%char s1 = false → has_char ","%char s2 = false →
  s1 +:+ String ","%char t1 = s2 +:+ String ","%char t2 → s1 = s2 ∧ t1 = t2.
Proof.
  revert s2. induction s1 as [|c s1 IH]; intros [|c' s2]; simpl.
  - intros _ _ [= ->]. done.
  - intros _ Hc [= <- _]. by rewrite bool_decide_eq_true_2 in Hc.
  - intros Hc _ [= -> _]. by rewrite bool_decide_eq_true_2 in Hc.
  - intros [_ H1]%orb_false_iff [_ H2]%orb_false_iff [= -> Heq].
    destruct (IH _ H1 H2 Heq) as [-> ->]. done.
Qed.

(** The key of the visited map identifies the coordinate. *)
Lemma key_inj c1 c2 : key c1 = key c2 → c1 = c2.
Proof.
  unfold key. intros Heq.
  apply split_at_comma in Heq as [Hx Hy];
    [|apply numeric_no_comma, itoa_numeric..].
  apply (inj pretty) in Hx. apply (inj pretty) in Hy.
  destruct c1, c2; simpl in *. by subst.
Qed.

End Decimal.

(** ** The flood fill *)

Section FloodFill.
Import Game Controller.

Variable g : GameState.
Hypothesis Hwf : wf g.
Variable start : Coordinate.

Definition adjacent (c : Coordinate) : option Z :=
  AdjacentMines g (X c) (Y c).

(** What the loop requires of a neighbour before it enqueues it. *)
Definition enqueueable (c : Coordinate) : Prop :=
  in_grid g (X c) (Y c) ∧
  IsMine g (X c) (Y c) = Some false ∧
  IsRevealed g (X c) (Y c) = Some false.

(** The cells of the grid, row by row. *)
Definition grid_cells : list Coordinate :=
  (λ i, mkCoordinate (i `div` Size g) (i `mod` Size g))
    <$> seqZ 0 (Size g * Size g).

Lemma in_grid_cells c : in_grid g (X c) (Y c) → c ∈ grid_cells.
Proof.
  intros [Hx Hy]. unfold grid_cells. apply list_elem_of_fmap.
  exists (X c * Size g + Y c). split.
  - assert ((X c * Size g + Y c) `div` Size g = X c) as ->.
    { rewrite Z.div_add_l by lia. rewrite Z.div_small by lia. lia. }
    assert ((X c * Size g + Y c) `mod` Size g = Y c) as ->.
    { rewrite (Z.add_comm (X c * Size g)), Z.mod_add by lia.
      by rewrite Z.mod_small by lia. }
    by destruct c.
  - apply elem_of_seqZ. nia.
Qed.

(** No more coordinates than cells, and one for the start. *)
Lemma visited_bound (l : list Coordinate) :
  NoDup l →
  (∀ c, c ∈ l → c = start ∨ in_grid g (X c) (Y c)) →
  (length l ≤ S (Z.to_nat (Size g * Size g)))%nat.
Proof.
  intros Hnd Hin.
  assert (l ⊆+ start :: grid_cells) as Hsub.
  { apply NoDup_submseteq; [done|]. intros c Hc.
    destruct (Hin c Hc) as [->|Hg]; [by left|].
    right. by apply in_grid_cells. }
  apply submseteq_length in Hsub. simpl in Hsub.
  unfold grid_cells in Hsub. by rewrite length_fmap, length_seqZ in Hsub.
Qed.

Lemma visited_at_insert visited c c' :
  visited_at (<[key c := true]> visited) (key c') = true ↔
  c' = c ∨ visited_at visited (key c') = true.
Proof.
  unfold visited_at. destruct (decide (c' = c)) as [->|Hne].
  - rewrite lookup_insert_eq. simpl. split; [by left|done].
  - rewrite lookup_insert_ne by (intros Hk; by apply key_inj in Hk).
    split; [by right|]. by intros [?|?].
Qed.

(** The loop over the neighbours of a dequeued cell: it appends to the queue
    cells that were not visited, are in the grid, hold no mine and are not
    revealed, and marks them visited as it appends them. *)
Lemma visit_neighbors_spec (seen ns : list Coordinate) visited queue :
  Forall (λ c, in_grid g (X c) (Y c)) ns →
  NoDup (seen ++ queue) →
  (∀ c, visited_at visited (key c) = true ↔ c ∈ seen ++ queue) →
  ∃ visited' added,
    foldlM (visit_neighbor g) (visited, queue) ns
      = Some (visited', queue ++ added) ∧
    NoDup (seen ++ queue ++ added) ∧
    (∀ c, visited_at visited' (key c) = true ↔ c ∈ seen ++ queue ++ added) ∧
    (∀ c, c ∈ added → enqueueable c ∧ c ∈ ns).
Proof.
  intros Hns. revert visited queue.
  induction Hns as [|n ns Hn Hns IH]; intros visited queue Hnd Hvis.
  { exists visited, []. simpl. rewrite !app_nil_r. split_and!; try done.
    intros c Hc. by apply elem_of_nil in Hc. }
  assert (∀ visited' added,
    foldlM (visit_neighbor g) (visited, queue) ns
      = Some (visited', queue ++ added) ∧
    NoDup (seen ++ queue ++ added) ∧
    (∀ c, visited_at visited' (key c) = true ↔ c ∈ seen ++ queue ++ added) ∧
    (∀ c, c ∈ added → enqueueable c ∧ c ∈ ns) →
    foldlM (visit_neighbor g) (visited, queue) ns
      = Some (visited', queue ++ added) ∧
    NoDup (seen ++ queue ++ added) ∧
    (∀ c, visited_at visited' (key c) = true ↔ c ∈ seen ++ queue ++ added) ∧
    (∀ c, c ∈ added → enqueueable c ∧ c ∈ n :: ns)) as Hskip.
  { intros v a (? & ? & ? & Ha). split_and!; try done.
    intros c Hc. destruct (Ha c Hc). split; [done|]. by right. }
  simpl. unfold visit_neighbor at 1.
  destruct (visited_at visited (key n)) eqn:Hseen.
  { simpl. destruct (IH visited queue Hnd Hvis) as (v & a & H).
    exists v, a. by apply Hskip. }
  destruct (IsRevealed_is_Some g (X n) (Y n) Hwf) as [r Hr]. rewrite Hr. simpl.
  destruct r.
  { simpl. destruct (IH visited queue Hnd Hvis) as (v & a & H).
    exists v, a. by apply Hskip. }
  destruct (IsMine_is_Some g (X n) (Y n) Hwf) as [m Hm]. rewrite Hm. simpl.
  destruct m.
  { simpl. destruct (IH visited queue Hnd Hvis) as (v & a & H).
    exists v, a. by apply Hskip. }
  assert (n ∉ seen ++ queue) as Hfresh.
  { intros Hin. apply Hvis in Hin. congruence. }
  destruct (IH (<[key n := true]> visited) (queue ++ [n]))
    as (v & a & Hfold & Hnd' & Hvis' & Ha).
  { rewrite app_assoc. apply NoDup_app. split_and!; [done| |apply NoDup_singleton].
    intros c Hc ->%list_elem_of_singleton. done. }
  { intros c. rewrite visited_at_insert, Hvis.
    rewrite (app_assoc seen queue [n]), (elem_of_app _ [n]).
    rewrite list_elem_of_singleton. tauto. }
  exists v, (n :: a). rewrite <- app_assoc in Hfold, Hnd', Hvis'.
  simpl in *. split_and!; try done.
  intros c [->|Hc]%elem_of_cons.
  - split; [done|]. by left.
  - destruct (Ha c Hc). split; [done|]. by right.
Qed.

(** The invariant of the loop [for len(queue) > 0]. *)
Record bfs_inv (visited : gmap string bool)
    (queue empty boundary : list Coordinate) : Prop := {
  inv_nodup : NoDup (empty ++ boundary ++ queue);
  inv_visited : ∀ c, visited_at visited (key c) = true ↔
                     c ∈ empty ++ boundary ++ queue;
  inv_empty : ∀ c, c ∈ empty → adjacent c = Some 0;
  inv_boundary : ∀ c, c ∈ boundary → ∃ n, adjacent c = Some n ∧ 0 < n;
  inv_origin : ∀ c, c ∈ empty ++ boundary ++ queue →
                    c = start ∨ enqueueable c
}.

(** What the loop returns. *)
Record bfs_post (empty boundary : list Coordinate) : Prop := {
  post_nodup : NoDup (empty ++ boundary);
  post_empty : ∀ c, c ∈ empty → adjacent c = Some 0;
  post_boundary : ∀ c, c ∈ boundary → ∃ n, adjacent c = Some n ∧ 0 < n;
  post_origin : ∀ c, c ∈ empty ++ boundary → c = start ∨ enqueueable c
}.

Lemma bfs_loop_spec fuel visited queue empty boundary :
  bfs_inv visited queue empty boundary →
  (S (Z.to_nat (Size g * Size g))
     ≤ fuel + length empty + length boundary)%nat →
  ∃ e b, bfs_loop fuel g visited queue empty boundary = Some (e, b) ∧
    bfs_post e b ∧
    (∀ c, c ∈ empty ++ boundary ++ queue → c ∈ e ++ b).
Proof.
  revert visited queue empty boundary.
  induction fuel as [|fuel IH]; intros visited queue empty boundary HI Hfuel.
  - destruct queue as [|current queue].
    + exists empty, boundary. simpl. destruct HI.
      rewrite app_nil_r in *. split_and!; [done| |done]. by constructor.
    + exfalso. destruct HI as [Hnd _ _ _ Horigin].
      pose proof (visited_bound _ Hnd) as Hb.
      rewrite !length_app in Hb. simpl in Hb.
      assert (∀ c, c ∈ empty ++ boundary ++ current :: queue →
                c = start ∨ in_grid g (X c) (Y c)) as Hg.
      { intros c Hc. destruct (Horigin c Hc) as [?|[? _]]; auto. }
      specialize (Hb Hg). lia.
  - destruct queue as [|current queue].
    + exists empty, boundary. simpl. destruct HI.
      rewrite app_nil_r in *. split_and!; [done| |done]. by constructor.
    + simpl.
      destruct (AdjacentMines_is_Some g (X current) (Y current) Hwf)
        as (n & Hadj & Hn).
      rewrite Hadj. simpl. destruct HI as [Hnd Hvis Hempty Hbound Horigin].
      assert ((empty ++ [current]) ++ boundary ++ queue
              ≡ₚ empty ++ boundary ++ current :: queue) as Hperm.
      { rewrite <- app_assoc. apply Permutation_app_head. simpl.
        apply Permutation_middle. }
      destruct (decide (n = 0)) as [->|Hnz].
      * destruct (visit_neighbors_spec ((empty ++ [current]) ++ boundary)
                    (GetNeighbors g (X current) (Y current)) visited queue)
          as (visited' & added & Hfold & Hnd' & Hvis' & Hadded).
        { apply Forall_forall. intros c. apply GetNeighbors_in_grid. }
        { rewrite <- app_assoc. by rewrite Hperm. }
        { intros c. rewrite Hvis. rewrite <- (app_assoc _ boundary queue).
          by rewrite Hperm. }
        rewrite Hfold. simpl.
        destruct (IH visited' (queue ++ added) (empty ++ [current]) boundary)
          as (e & b & Hloop & Hpost & Hall).
        { rewrite <- (app_assoc _ boundary) in Hnd', Hvis'.
          split; try done.
          - intros c [Hc|Hc]%elem_of_app; [auto|].
            apply list_elem_of_singleton in Hc. by subst c.
          - intros c Hc.
            assert (c ∈ (empty ++ [current]) ++ boundary ++ queue
                    ∨ c ∈ added) as [Hold|Hnew].
            { rewrite !elem_of_app in Hc. rewrite !elem_of_app. tauto. }
            + rewrite Hperm in Hold. auto.
            + right. by apply Hadded. }
        { rewrite length_app. simpl. lia. }
        exists e, b. split_and!; try done.
        intros c Hc. apply Hall. rewrite <- Hperm in Hc.
        rewrite !elem_of_app in Hc. rewrite !elem_of_app. tauto.
      * destruct (IH visited queue empty (boundary ++ [current]))
          as (e & b & Hloop & Hpost & Hall).
        { assert (empty ++ (boundary ++ [current]) ++ queue
                  = empty ++ boundary ++ current :: queue) as Heq.
          { by rewrite <- (app_assoc boundary). }
          split; rewrite ?Heq; try done.
          intros c [Hc|Hc]%elem_of_app; [auto|].
          apply list_elem_of_singleton in Hc. subst c.
          exists n. split; [done|lia]. }
        { rewrite length_app. simpl. lia. }
        exists e, b. split_and!; try done.
        intros c Hc. apply Hall.
        rewrite !elem_of_app, elem_of_cons in Hc.
        rewrite !elem_of_app, list_elem_of_singleton. tauto.
Qed.

Lemma bfs_start_inv : bfs_inv {[ key start := true ]} [start] [] [].
Proof.
  split; simpl.
  - apply NoDup_singleton.
  - intros c. unfold visited_at. rewrite list_elem_of_singleton.
    destruct (decide (c = start)) as [->|Hne].
    + by rewrite lookup_singleton_eq.
    + rewrite lookup_singleton_ne by (intros Hk; by apply key_inj in Hk).
      naive_solver.
  - intros c Hc. by apply elem_of_nil in Hc.
  - intros c Hc. by apply elem_of_nil in Hc.
  - intros c ->%list_elem_of_singleton. by left.
Qed.

End FloodFill.

Section FloodFillResult.
Import Game Controller.

(** One step of the loop over the neighbours: either nothing changes, or the
    neighbour was not visited, is not revealed and holds no mine, and it is
    appended to the queue and marked visited in the same step. *)
Lemma visit_neighbor_marks_on_enqueue g visited queue n acc :
  visit_neighbor g (visited, queue) n = Some acc →
  acc = (visited, queue) ∨
  (acc = (<[key n := true]> visited, queue ++ [n]) ∧
   visited_at acc.1 (key n) = true ∧
   visited_at visited (key n) = false ∧
   IsRevealed g (X n) (Y n) = Some false ∧
   IsMine g (X n) (Y n) = Some false).
Proof.
  unfold visit_neighbor.
  destruct (visited_at visited (key n)) eqn:Hv; [intros [= <-]; by left|].
  destruct (IsRevealed g (X n) (Y n)) as [[]|]; simpl;
    [intros [= <-]; by left| |done].
  destruct (IsMine g (X n) (Y n)) as [[]|]; simpl;
    [intros [= <-]; by left| |done].
  intros [= <-]. right. split_and!; try done.
  simpl. unfold visited_at. by rewrite lookup_insert_eq.
Qed.

(** More fuel does not change a result. *)
Lemma bfs_loop_more_fuel n m g visited queue empty boundary r :
  bfs_loop n g visited queue empty boundary = Some r → (n ≤ m)%nat →
  bfs_loop m g visited queue empty boundary = Some r.
Proof.
  revert m visited queue empty boundary.
  induction n as [|n IH]; intros m visited queue empty boundary Hr Hle;
    destruct queue as [|current queue]; simpl in Hr.
  - by destruct m.
  - done.
  - by destruct m.
  - destruct m as [|m]; [lia|]. simpl.
    destruct (AdjacentMines g (X current) (Y current)) as [a|]; simpl in *;
      [|done].
    destruct (decide (a = 0)).
    + destruct (foldlM (visit_neighbor g) (visited, queue)
                  (GetNeighbors g (X current) (Y current)))
        as [[visited' queue']|]; simpl in *; [|done].
      apply IH; [done|lia].
    + apply IH; [done|lia].
Qed.

(** C1: on every well-formed state and from every start coordinate the flood
    fill returns, within one iteration per cell of the grid plus one, and
    more fuel gives the same result.  The two lists it returns have no
    coordinate twice and none in common, so no coordinate is dequeued and
    classified twice; every entry of the first has adjacency count zero and
    every entry of the second a positive one; and every entry other than
    the start was enqueued as a neighbour inside the grid that holds no
    mine and was not revealed.  The start is classified, in the first list
    when its adjacency count is zero.  A neighbour is marked visited in the
    step that enqueues it, and only a neighbour that was not visited is
    enqueued. *)
Theorem C1_flood_fill (g : GameState) (start : Coordinate) :
  wf g →
  ∃ empty boundary,
    bfsPropagation g start = Some (empty, boundary) ∧
    (∀ fuel, (bfs_fuel g ≤ fuel)%nat →
       bfs_loop fuel g {[ key start := true ]} [start] [] []
       = Some (empty, boundary)) ∧
    NoDup (empty ++ boundary) ∧
    (length empty + length boundary ≤ bfs_fuel g)%nat ∧
    (∀ c, c ∈ empty → AdjacentMines g (X c) (Y c) = Some 0) ∧
    (∀ c, c ∈ boundary →
       ∃ n, AdjacentMines g (X c) (Y c) = Some n ∧ 0 < n) ∧
    (∀ c, c ∈ empty ++ boundary →
       c = start ∨
       (in_grid g (X c) (Y c) ∧ IsMine g (X c) (Y c) = Some false ∧
        IsRevealed g (X c) (Y c) = Some false)) ∧
    start ∈ empty ++ boundary ∧
    (AdjacentMines g (X start) (Y start) = Some 0 → start ∈ empty) ∧
    (∀ visited queue n acc,
       visit_neighbor g (visited, queue) n = Some acc →
       acc = (visited, queue) ∨
       (acc = (<[key n := true]> visited, queue ++ [n]) ∧
        visited_at acc.1 (key n) = true ∧
        visited_at visited (key n) = false ∧
        IsRevealed g (X n) (Y n) = Some false ∧
        IsMine g (X n) (Y n) = Some false)).
Proof.
  intros Hwf.
  destruct (bfs_loop_spec g Hwf start (bfs_fuel g) {[ key start := true ]}
              [start] [] [] (bfs_start_inv g start))
    as (e & b & Hloop & [Hnd Hempty Hbound Horigin] & Hall).
  { unfold bfs_fuel. simpl. lia. }
  assert (start ∈ e ++ b) as Hstart by (apply Hall; simpl; by left).
  exists e, b. split_and!; try done.
  - intros fuel Hfuel. by eapply bfs_loop_more_fuel.
  - rewrite <- length_app. apply (visited_bound g start); [done|].
    intros c Hc. destruct (Horigin c Hc) as [?|[? _]]; auto.
  - intros Hzero. apply elem_of_app in Hstart as [?|Hb]; [done|].
    destruct (Hbound _ Hb) as (n & Hn & Hpos). unfold adjacent in Hn.
    rewrite Hzero in Hn. injection Hn as <-. lia.
  - intros visited queue n acc. apply visit_neighbor_marks_on_enqueue.
Qed.

Lemma C1_flood_fill_witness :
  wf corner_mine_state ∧
  ∃ empty boundary,
    bfsPropagation corner_mine_state (mkCoordinate 2 2)
    = Some (empty, boundary) ∧
    (∀ fuel, (bfs_fuel corner_mine_state ≤ fuel)%nat →
       bfs_loop fuel corner_mine_state
         {[ key (mkCoordinate 2 2) := true ]} [mkCoordinate 2 2] [] []
       = Some (empty, boundary)) ∧
    NoDup (empty ++ boundary) ∧
    (length empty + length boundary ≤ bfs_fuel corner_mine_state)%nat ∧
    (∀ c, c ∈ empty → AdjacentMines corner_mine_state (X c) (Y c) = Some 0) ∧
    (∀ c, c ∈ boundary →
       ∃ n, AdjacentMines corner_mine_state (X c) (Y c) = Some n ∧ 0 < n) ∧
    (∀ c, c ∈ empty ++ boundary →
       c = mkCoordinate 2 2 ∨
       (in_grid corner_mine_state (X c) (Y c) ∧
        IsMine corner_mine_state (X c) (Y c) = Some false ∧
        IsRevealed corner_mine_state (X c) (Y c) = Some false)) ∧
    mkCoordinate 2 2 ∈ empty ++ boundary ∧
    (AdjacentMines corner_mine_state 2 2 = Some 0 →
     mkCoordinate 2 2 ∈ empty) ∧
    (∀ visited queue n acc,
       visit_neighbor corner_mine_state (visited, queue) n = Some acc →
       acc = (visited, queue) ∨
       (acc = (<[key n := true]> visited, queue ++ [n]) ∧
        visited_at acc.1 (key n) = true ∧
        visited_at visited (key n) = false ∧
        IsRevealed corner_mine_state (X n) (Y n) = Some false ∧
        IsMine corner_mine_state (X n) (Y n) = Some false)).
Proof.
  assert (wf corner_mine_state) as Hwf.
  { split_and!; try done.
    - split; [reflexivity|]. by repeat constructor.
    - split; [reflexivity|]. by repeat constructor. }
  split; [exact Hwf|].
  apply (C1_flood_fill corner_mine_state (mkCoordinate 2 2) Hwf).
Defined.

End FloodFillResult.

(** ** Pod names *)

Section PodNames.
Import Game Api Store Controller.

Lemma strip_prefix_Some p s r : strip_prefix p s = Some r ↔ s = p +:+ r.
Proof.
  revert s. induction p as [|c p IH]; intros s; simpl.
  { rewrite append_nil_l. split; [by intros [= ->]|by intros ->]. }
  rewrite append_cons. destruct s as [|c' s]; [done|].
  case_decide as Hc.
  - subst c'. rewrite IH. split; [by intros ->|by intros [= ->]].
  - split; [done|]. intros [= -> _]. done.
Qed.

Lemma strip_prefix_app p r : strip_prefix p (p +:+ r) = Some r.
Proof. by apply strip_prefix_Some. Qed.

(** A string that does not begin with a digit. *)
Definition no_leading_digit (s : string) : Prop :=
  match s with
  | EmptyString => True
  | String c _ => is_digit c = false
  end.

Lemma span_digits_app d r :
  all_digits d = true → no_leading_digit r → span_digits (d +:+ r) = (d, r).
Proof.
  intros Hd Hr. induction d as [|c d IH].
  - rewrite append_nil_l. destruct r as [|c r]; simpl in *; [done|].
    by rewrite Hr.
  - simpl in Hd. apply andb_true_iff in Hd as [Hc Hd].
    rewrite append_cons. simpl. rewrite Hc. by rewrite IH.
Qed.

Lemma span_digits_inv s d r :
  span_digits s = (d, r) →
  s = d +:+ r ∧ all_digits d = true ∧ no_leading_digit r.
Proof.
  revert d r. induction s as [|c s IH]; intros d r; simpl.
  { intros [= <- <-]. done. }
  destruct (is_digit c) eqn:Hc.
  - destruct (span_digits s) as [d' r'] eqn:Hs. intros [= <- <-].
    destruct (IH d' r' eq_refl) as (-> & Hd & Hr).
    rewrite append_cons. simpl. by rewrite Hc, Hd.
  - intros [= <- <-]. rewrite append_nil_l. simpl. done.
Qed.

Local Arguments strip_prefix : simpl never.
Local Arguments span_digits : simpl never.

(** The matcher finds the two groups exactly when the name matches the
    regular expression with these groups. *)
Lemma FindStringSubmatch_matches re name d1 d2 :
  FindStringSubmatch re name = Some (d1, d2) ↔ matches re name d1 d2.
Proof.
  unfold FindStringSubmatch, matches. split.
  - destruct (strip_prefix (prefix re) name) as [rest|] eqn:Hp; simpl; [|done].
    apply strip_prefix_Some in Hp as ->.
    destruct (span_digits rest) as [e1 rest1] eqn:H1.
    apply span_digits_inv in H1 as (-> & Hd1 & _).
    case_decide as He1; [done|].
    destruct (strip_prefix "-" rest1) as [rest2|] eqn:Hdash; simpl; [|done].
    apply strip_prefix_Some in Hdash as ->.
    destruct (span_digits rest2) as [e2 rest3] eqn:H2.
    apply span_digits_inv in H2 as (-> & Hd2 & _).
    case_decide as He2; [done|]. case_decide as He3; [|done].
    intros [= <- <-]. subst rest3.
    rewrite append_nil_r. done.
  - intros (-> & Hn1 & Hd1 & Hn2 & Hd2).
    rewrite strip_prefix_app. simpl.
    rewrite (span_digits_app d1 ("-" +:+ d2)) by done.
    rewrite decide_False by done.
    rewrite strip_prefix_app. simpl.
    rewrite <- (append_nil_r d2) at 1.
    rewrite (span_digits_app d2 "") by done.
    rewrite decide_False by done. by rewrite decide_True.
Qed.

Lemma digits_val_nonneg a s : 0 ≤ a → 0 ≤ digits_val a s.
Proof.
  revert a. induction s as [|c s IH]; intros a Ha; simpl; [done|].
  apply IH. assert (0 ≤ digit_val c); [|lia].
  unfold digit_val. repeat case_match; lia.
Qed.

(** [Atoi] on a non-empty string of digits: its value, unless that does
    not fit an [int]. *)
Lemma Atoi_digits d :
  d ≠ "" → all_digits d = true →
  Atoi d = if decide (digits_val 0 d ≤ int_max) then Some (digits_val 0 d)
           else None.
Proof.
  intros Hne Hd. unfold Atoi.
  destruct d as [|c d]; [done|].
  assert (c ≠ "-"%char ∧ c ≠ "+"%char) as [Hm Hp].
  { simpl in Hd. apply andb_true_iff in Hd as [Hc _].
    split; intros ->; discriminate. }
  assert ((match String c d with
           | String "-" s' => (true, s')
           | String "+" s' => (false, s')
           | _ => (false, String c d)
           end) = (false, String c d)) as ->.
  { destruct c as [[] [] [] [] [] [] [] []]; try done. }
  rewrite decide_False by done. rewrite Hd.
  pose proof (digits_val_nonneg 0 (String c d)).
  unfold in_int, int_min. repeat case_decide; try done; lia.
Qed.

(** [parse_with] succeeds exactly on the names that match and whose two
    numbers fit an [int]. *)
Lemma parse_with_spec re name c :
  parse_with re name = Some c ↔
  ∃ d1 d2, matches re name d1 d2 ∧
    digits_val 0 d1 = X c ∧ digits_val 0 d2 = Y c ∧
    X c ≤ int_max ∧ Y c ≤ int_max.
Proof.
  unfold parse_with. split.
  - destruct (FindStringSubmatch re name) as [[d1 d2]|] eqn:Hm; [|done].
    apply FindStringSubmatch_matches in Hm.
    pose proof Hm as (_ & Hn1 & Hd1 & Hn2 & Hd2).
    rewrite (Atoi_digits d1), (Atoi_digits d2) by done.
    repeat case_decide; try done. intros [= <-]. simpl.
    exists d1, d2. done.
  - intros (d1 & d2 & Hm & Hx & Hy & Hxm & Hym).
    pose proof Hm as (_ & Hn1 & Hd1 & Hn2 & Hd2).
    apply FindStringSubmatch_matches in Hm. rewrite Hm.
    rewrite (Atoi_digits d1), (Atoi_digits d2) by done.
    rewrite Hx, Hy. rewrite !decide_True by done. by destruct c.
Qed.

(** A generated name parses back to its coordinate. *)
Lemma parse_with_generated re c :
  0 ≤ X c ≤ int_max → 0 ≤ Y c ≤ int_max →
  parse_with re (prefix re +:+ itoa (X c) +:+ "-" +:+ itoa (Y c)) = Some c.
Proof.
  intros Hx Hy. apply parse_with_spec.
  destruct (itoa_nonneg (X c)) as (? & ? & ?); [lia|].
  destruct (itoa_nonneg (Y c)) as (? & ? & ?); [lia|].
  exists (itoa (X c)), (itoa (Y c)). unfold matches.
  split_and!; try done; lia.
Qed.

Lemma Reconcile_not_a_game_pod {S} `{!Store.Store S} (r : GameController)
    (w : World) ns name now :
  ParsePodName name = None → Reconcile r w ns name now = Some (w, None).
Proof.
  intros Hp. unfold Reconcile. case_decide; [done|]. by rewrite Hp.
Qed.

End PodNames.

Section PodNameClaims.
Import Game Api Store Controller.

(** The pattern the specification gives for grid cells. *)
Definition SpecCellRegex : Regexp := mkRegexp "cell-".

(** A game in progress in the store, and no pod in the cluster. *)
Definition sample_world : World :=
  (mkMemoryStore (Some sample_state), empty_cluster).

(** C2, the claim as stated fails.  "cell-1-1" matches the pattern the
    specification gives for grid cells, yet neither parse function accepts
    it and the reconciler ignores it; "pod-1-1" matches neither pattern of
    the specification, yet it is parsed and its deletion is a game event;
    and "hint-1-1", which the hint pattern matches, is ignored by the
    reconciler. *)
Lemma C2_cells_are_named_pod_not_cell :
  matches SpecCellRegex "cell-1-1" "1" "1" ∧
  ParsePodName "cell-1-1" = None ∧
  ParseHintPodName "cell-1-1" = None ∧
  Reconcile (NewGameController "podsweeper-game") sample_world
    "podsweeper-game" "cell-1-1" 5 = Some (sample_world, None) ∧
  FindStringSubmatch SpecCellRegex "pod-1-1" = None ∧
  FindStringSubmatch HintPodNameRegex "pod-1-1" = None ∧
  ParsePodName "pod-1-1" = Some (mkCoordinate 1 1) ∧
  Reconcile (NewGameController "podsweeper-game") sample_world
    "podsweeper-game" "pod-1-1" 5 ≠ Some (sample_world, None) ∧
  matches HintPodNameRegex "hint-1-1" "1" "1" ∧
  Reconcile (NewGameController "podsweeper-game") sample_world
    "podsweeper-game" "hint-1-1" 5 = Some (sample_world, None) ∧
  PodName (mkCoordinate 1 1) = "pod-1-1".
Proof.
  split_and!; try reflexivity; by vm_compute.
Qed.

(** C2, amended: [ParsePodName] accepts exactly the names that match
    [^pod-(\d+)-(\d+)$] and whose two numbers fit an [int], and returns these
    numbers; [ParseHintPodName] does the same for [^hint-(\d+)-(\d+)$].  The
    reconciler treats a name as a game event if and only if [ParsePodName]
    accepts it: it ignores every name that [ParsePodName] rejects, the names
    of hint pods among them, without a request to the server; and for a
    name that [ParsePodName] accepts, in the namespace of the game, it looks
    the pod up and, when the pod is gone, handles the deletion at the
    coordinate that was parsed (a pod that is still there, or a failed
    lookup, ends the call).  A name in another namespace is ignored.  The
    names the system gives, "pod-x-y" to the pod of a cell and "hint-x-y" to
    a hint pod, parse back to the coordinate. *)
Theorem C2_pod_names {S} `{!Store.Store S} (name : string) (c : Coordinate) :
  (ParsePodName name = Some c ↔
     ∃ d1 d2, matches PodNameRegex name d1 d2 ∧
       digits_val 0 d1 = X c ∧ digits_val 0 d2 = Y c ∧
       X c ≤ int_max ∧ Y c ≤ int_max) ∧
  (ParseHintPodName name = Some c ↔
     ∃ d1 d2, matches HintPodNameRegex name d1 d2 ∧
       digits_val 0 d1 = X c ∧ digits_val 0 d2 = Y c ∧
       X c ≤ int_max ∧ Y c ≤ int_max) ∧
  (ParsePodName name = None →
     ∀ (r : GameController) (w : World) ns now,
       Reconcile r w ns name now = Some (w, None)) ∧
  (ParseHintPodName name = Some c → ParsePodName name = None) ∧
  PodName c = GeneratePodName (X c) (Y c) ∧
  HintPodName c = GenerateHintPodName (X c) (Y c) ∧
  PodName c = "pod-" +:+ itoa (X c) +:+ "-" +:+ itoa (Y c) ∧
  HintPodName c = "hint-" +:+ itoa (X c) +:+ "-" +:+ itoa (Y c) ∧
  (0 ≤ X c ≤ int_max → 0 ≤ Y c ≤ int_max →
     ParsePodName (PodName c) = Some c ∧
     ParseHintPodName (HintPodName c) = Some c) ∧
  (ParsePodName name = Some c →
     ∀ (r : GameController) (store : S) (k : Cluster) now,
       Reconcile r (store, k) (Namespace r) name now
       = match Get k name with
         | (k', Err e) =>
             if IsNotFound e then handlePodDeletion r (store, k') c now
             else Some ((store, k'), Some e)
         | (k', Ok pod) => Some ((store, k'), None)
         end) ∧
  (ParsePodName name = Some c →
     ∀ (r : GameController) (store : S) (k : Cluster) now,
       scheduled k = None → pods k !! name = None →
       Reconcile r (store, k) (Namespace r) name now
       = handlePodDeletion r (store, issue k (ReqGet name)) c now) ∧
  (ParsePodName name = Some c →
     ∀ (r : GameController) (store : S) (k : Cluster) now,
       scheduled k = None → is_Some (pods k !! name) →
       Reconcile r (store, k) (Namespace r) name now
       = Some ((store, issue k (ReqGet name)), None)) ∧
  (∀ (r : GameController) (w : World) ns now,
     ns ≠ Namespace r → Reconcile r w ns name now = Some (w, None)).
Proof.
  assert (ParsePodName name = Some c →
            ∀ (r : GameController) (store : S) (k : Cluster) now,
              Reconcile r (store, k) (Namespace r) name now
              = match Get k name with
                | (k', Err e) =>
                    if IsNotFound e then handlePodDeletion r (store, k') c now
                    else Some ((store, k'), Some e)
                | (k', Ok pod) => Some ((store, k'), None)
                end) as Hevent.
  { intros Hp r store k now. unfold Reconcile.
    rewrite decide_False by (intros Hne; by apply Hne). rewrite Hp.
    destruct (Get k name) as [k' [pod|e]]; [|done].
    by destruct (terminating pod). }
  split_and!; try done.
  - apply parse_with_spec.
  - apply parse_with_spec.
  - intros Hp r w ns now. by apply Reconcile_not_a_game_pod.
  - intros (d1 & d2 & (-> & _) & _)%parse_with_spec.
    unfold ParsePodName, parse_with, FindStringSubmatch. done.
  - intros Hx Hy. split.
    + by apply (parse_with_generated PodNameRegex).
    + by apply (parse_with_generated HintPodNameRegex).
  - intros Hp r store k now Hs Hk. rewrite (Hevent Hp).
    unfold Get. by rewrite Hs, Hk.
  - intros Hp r store k now Hs [p Hk]. rewrite (Hevent Hp).
    unfold Get. by rewrite Hs, Hk.
  - intros r w ns now Hns. unfold Reconcile. by rewrite decide_True.
Qed.

End PodNameClaims.

(** ** The generator *)

Section GeneratorFacts.
Import Game Grid.
Context `{RandSource}.

(** A loop whose body keeps an invariant and does not panic on the elements
    it meets runs to its end. *)
Lemma foldlM_invariant {A B} (P : B → Prop) (Q : A → Prop)
    (f : B → A → option B) l b :
  P b → Forall Q l →
  (∀ b a, P b → Q a → ∃ b', f b a = Some b' ∧ P b') →
  ∃ b', foldlM f b l = Some b' ∧ P b'.
Proof.
  intros Hb Hl Hstep. revert b Hb.
  induction Hl as [|a l Ha Hl IH]; intros b Hb; simpl; [by exists b|].
  destruct (Hstep b a Hb Ha) as (b' & -> & Hb'). simpl. by apply IH.
Qed.

Lemma swap_total (positions : list Z) i j :
  0 ≤ i < Z.of_nat (length positions) →
  0 ≤ j < Z.of_nat (length positions) →
  ∃ positions', swap positions i j = Some positions' ∧
    length positions' = length positions.
Proof.
  intros Hi Hj. unfold swap.
  destruct (index_Some positions j Hj) as [pj ->].
  destruct (index_Some positions i Hi) as [pi ->]. simpl.
  rewrite set_index_Some by done. simpl.
  rewrite set_index_Some by (by rewrite length_insert).
  eexists. split; [done|]. by rewrite !length_insert.
Qed.

(** The shuffle never indexes outside the slice. *)
Lemma shuffle_total (positions : list Z) (r : rng) :
  Z.of_nat (length positions) ≤ int_max →
  ∃ positions' r', shuffle positions r = Some (positions', r') ∧
    length positions' = length positions.
Proof.
  intros Hlen. unfold shuffle.
  destruct (foldlM_invariant
    (λ acc : list Z * rng, length acc.1 = length positions)
    (λ i, 1 ≤ i < Z.of_nat (length positions))
    (λ '(positions, r) i,
       '(j, r') ← Intn_call r (wrap (i + 1));
       positions' ← swap positions i j;
       Some (positions', r'))
    (reverse (seqZ 1 (Z.of_nat (length positions) - 1))) (positions, r))
    as ([positions' r'] & Hfold & Hl); [done| |..].
  - apply Forall_forall. intros i Hi.
    apply elem_of_reverse, elem_of_seqZ in Hi. lia.
  - intros [ps r0] i Hps Hi. simpl in Hps.
    assert (wrap (i + 1) = i + 1) as ->.
    { apply wrap_in_int. unfold in_int, int_min, int_max in *. lia. }
    unfold Intn_call. rewrite decide_True by lia.
    pose proof (Intn_range r0 (i + 1)) as Hj.
    destruct (Intn r0 (i + 1)) as [j r1]. simpl in *.
    destruct (swap_total ps i j) as (ps' & -> & Hps'); [lia|lia|].
    simpl. eexists. split; [done|]. simpl. lia.
  - by exists positions', r'.
Qed.

Lemma NewGameState_Inv size seed now :
  0 ≤ size → size * size ≤ int_max →
  ∃ st, NewGameState size seed now = Some st ∧ Inv st ∧
    Size st = size ∧ Seed st = seed ∧ Status st = StatusPlaying ∧
    MineCount st = 0 ∧ Clicks st = 0 ∧ HintCells st = [] ∧
    EndedAt st = zero_time ∧ StartedAt st = now.
Proof.
  intros Hsize Hfit. unfold NewGameState, make_grid.
  rewrite decide_True by done. simpl. eexists. split; [done|].
  assert (grid_wf size
            (replicate (Z.to_nat size) (replicate (Z.to_nat size) false)))
    as Hgrid.
  { split; [rewrite length_replicate; lia|].
    apply Forall_replicate. rewrite length_replicate. lia. }
  split_and!; try done. split; [by split_and!|]. simpl.
  generalize (Z.to_nat size) at 1. intros n.
  induction n as [|n IH]; simpl; [done|]. rewrite <- IH.
  unfold count_row.
  assert (filter (λ b, b = true) (replicate (Z.to_nat size) false) = []) as ->;
    [|done].
  generalize (Z.to_nat size). intros k.
  induction k as [|k IHk]; simpl; [done|].
  by rewrite filter_cons, decide_False.
Qed.

Lemma SetMine_Seed g x y g' ok :
  SetMine g x y = Some (g', ok) → Seed g' = Seed g.
Proof.
  unfold SetMine. destruct (negb _); [by intros [= <- _]|].
  destruct (index2 (MineMap g) x y) as [[]|]; simpl; [by intros [= <- _]| |done].
  destruct (set_index2 (MineMap g) x y true); simpl; [|done].
  by intros [= <- _].
Qed.

(** On a valid configuration [placeMinesWithRNG] runs to its end and keeps
    the invariant of the state it is given. *)
Lemma placeMinesWithRNG_total (c : Config) (state : GameState) (r : rng) :
  Validate c = None → Inv state →
  ∃ state' r', placeMinesWithRNG c state r = Some (state', r') ∧
    Inv state' ∧ Size state' = Size state ∧ Status state' = Status state ∧
    Revealed state' = Revealed state ∧ Clicks state' = Clicks state ∧
    Seed state' = Seed state.
Proof.
  intros Hv HInv. unfold placeMinesWithRNG.
  pose proof (CalculateMineCount_clamped c Hv) as (_ & _ & _ & Hcount).
  destruct (Validate_None c Hv) as (Hsize & _).
  assert (1 ≤ cfgSize c * cfgSize c ≤ 10000) as Htotal by nia.
  assert (wrap (cfgSize c * cfgSize c) = cfgSize c * cfgSize c) as ->.
  { apply wrap_in_int. unfold in_int, int_min, int_max. lia. }
  rewrite decide_False by lia.
  destruct (shuffle_total (seqZ 0 (cfgSize c * cfgSize c)) r)
    as (positions & r' & -> & Hlen).
  { rewrite length_seqZ. unfold int_max. lia. }
  rewrite length_seqZ in Hlen. simpl.
  destruct (foldlM_invariant
    (λ st, Inv st ∧ Size st = Size state ∧ Status st = Status state ∧
           Revealed st = Revealed state ∧ Clicks st = Clicks state ∧
           Seed st = Seed state)
    (λ i, 0 ≤ i < CalculateMineCount c)
    (λ state i,
       pos ← index positions i;
       x ← int_quot pos (cfgSize c);
       y ← int_rem pos (cfgSize c);
       fst <$> SetMine state x y)
    (seqZ 0 (CalculateMineCount c)) state)
    as (state' & Hfold & Hstate'); [done| |..].
  - apply Forall_forall. intros i Hi. apply elem_of_seqZ in Hi. lia.
  - intros st i (HI & Hs & Hst & Hr & Hc & Hsd) Hi.
    destruct (index_Some positions i) as [pos ->]; [lia|]. simpl.
    unfold int_quot, int_rem. rewrite !decide_False by lia. simpl.
    destruct (SetMine_spec st (wrap (pos ÷ cfgSize c)) (pos `rem` cfgSize c) HI)
      as (st' & ok & Hset & HI' & _ & Hs' & Hst' & Hr' & Hc' & _).
    pose proof (SetMine_Seed _ _ _ _ _ Hset) as Hsd'.
    rewrite Hset. simpl. exists st'. split; [done|]. split_and!; congruence.
  - rewrite Hfold. simpl. exists state', r'. split; [done|]. tauto.
Qed.

End GeneratorFacts.

Section GeneratorClaims.
Import Game Grid.

(** Two configurations that generate alike: they may differ in [Seed] only. *)
Definition config_equiv (c1 c2 : Config) : Prop :=
  cfgSize c1 = cfgSize c2 ∧ MineDensity c1 = MineDensity c2 ∧
  MinMineCount c1 = MinMineCount c2 ∧ MaxMineCount c1 = MaxMineCount c2.

(** Two states with the same mine layout; they may differ in their clocks. *)
Definition same_layout (a b : GameState) : Prop :=
  Size a = Size b ∧ Seed a = Seed b ∧
  MineMap a = MineMap b ∧ MineCount a = MineCount b.

(** Two runs that both panic, or end in states with the same layout. *)
Definition same_outcome (o1 o2 : option GameState) : Prop :=
  match o1, o2 with
  | Some a, Some b => same_layout a b
  | None, None => True
  | _, _ => False
  end.

Lemma SetMine_same_layout a b x y :
  same_layout a b →
  same_outcome (fst <$> SetMine a x y) (fst <$> SetMine b x y).
Proof.
  intros (Hsz & Hseed & Hm & Hc). unfold SetMine, IsValidCoordinate.
  rewrite Hsz, Hm, Hc.
  destruct (negb _); simpl; [done|].
  destruct (index2 (MineMap b) x y) as [[]|]; simpl; [done| |done].
  destruct (set_index2 (MineMap b) x y true); simpl; done.
Qed.

Lemma place_same_layout (positions : list Z) (size : Z) l a b :
  same_layout a b →
  same_outcome
    (foldlM (λ state i,
               pos ← index positions i;
               x ← int_quot pos size;
               y ← int_rem pos size;
               fst <$> SetMine state x y) a l)
    (foldlM (λ state i,
               pos ← index positions i;
               x ← int_quot pos size;
               y ← int_rem pos size;
               fst <$> SetMine state x y) b l).
Proof.
  revert a b. induction l as [|i l IH]; intros a b Hab; simpl; [done|].
  destruct (index positions i) as [pos|]; simpl; [|done].
  destruct (int_quot pos size) as [x|]; simpl; [|done].
  destruct (int_rem pos size) as [y|]; simpl; [|done].
  pose proof (SetMine_same_layout a b x y Hab) as Hstep.
  destruct (SetMine a x y) as [[a' oka]|], (SetMine b x y) as [[b' okb]|];
    simpl in *; try done.
  by apply IH.
Qed.

(** C8: for every seed, [GenerateWithSeed] on two generators with
    equivalent valid configurations returns, and returns the same mine map
    and mine count, whatever the state of the streams the two generators own
    and whatever the clock says: the call draws from a source of its own,
    seeded with the seed it is given, and hands the generator back as it
    was. *)
Theorem C8_same_seed_same_layout `{RandSource} (g1 g2 : Generator)
    (seed : Z) (now1 now2 : Time) :
  Validate (config g1) = None →
  config_equiv (config g1) (config g2) →
  ∃ s1 s2,
    GenerateWithSeed g1 seed now1 = Some (s1, g1) ∧
    GenerateWithSeed g2 seed now2 = Some (s2, g2) ∧
    MineMap s1 = MineMap s2 ∧ MineCount s1 = MineCount s2 ∧
    Size s1 = Size s2 ∧ Seed s1 = seed ∧ Seed s2 = seed ∧
    Inv s1.
Proof.
  intros Hv (Hs & Hd & Hmin & Hmax).
  destruct (Validate_None _ Hv) as (Hsize & _).
  destruct (NewGameState_Inv (cfgSize (config g1)) seed now1)
    as (st1 & Hnew1 & HI1 & Hsz1 & Hseed1 & _); [lia|unfold int_max; nia|].
  destruct (NewGameState_Inv (cfgSize (config g1)) seed now2)
    as (st2 & Hnew2 & HI2 & Hsz2 & Hseed2 & _); [lia|unfold int_max; nia|].
  assert (same_layout st1 st2) as Hst.
  { unfold NewGameState, make_grid in Hnew1, Hnew2.
    case_decide; [|done]. simpl in *.
    injection Hnew1 as <-. injection Hnew2 as <-. done. }
  destruct (placeMinesWithRNG_total (config g1) st1 (NewSource seed) Hv HI1)
    as (s1 & r1 & Hplace1 & HI1' & _ & _ & _ & _ & Hseed1').
  assert (CalculateMineCount (config g2) = CalculateMineCount (config g1))
    as Hcount.
  { unfold CalculateMineCount, enforce_cells, enforce_max, enforce_min.
    by rewrite Hs, Hd, Hmin, Hmax. }
  unfold GenerateWithSeed. rewrite <- Hs, Hnew1, Hnew2. simpl.
  rewrite Hplace1. simpl.
  unfold placeMinesWithRNG in Hplace1 |- *. rewrite Hcount, <- Hs.
  case_decide; [done|].
  destruct (shuffle _ (NewSource seed)) as [[positions r']|]; simpl in *;
    [|done].
  pose proof (place_same_layout positions (cfgSize (config g1))
                (seqZ 0 (CalculateMineCount (config g1))) st1 st2 Hst)
    as Hsame.
  destruct (foldlM _ st1 _) as [s1'|]; simpl in *; [|done].
  injection Hplace1 as -> ->.
  destruct (foldlM _ st2 _) as [s2|]; simpl in *; [|done].
  destruct Hsame as (Hsz & Hsd & Hm & Hc).
  exists s1, s2. split_and!; try done; congruence.
Qed.
End GeneratorClaims.

Section GeneratorWitness.
Import Game Grid.

(** A linear congruential generator, to instantiate the random source. *)
Definition lcg_next (r : Z) : Z :=
  (r * 6364136223846793005 + 1442695040888963407) `mod` 2 ^ 64.

Definition lcg_Intn (r n : Z) : Z * Z := (lcg_next r `mod` n, lcg_next r).

Lemma lcg_Intn_range r n : 0 < n → 0 ≤ (lcg_Intn r n).1 < n.
Proof. intros Hn. simpl. by apply Z.mod_pos_bound. Qed.

Definition lcg : RandSource :=
  {| rng := Z; NewSource := λ seed, seed; Intn := lcg_Intn;
     Intn_range := lcg_Intn_range |}.

(** Two generators with the same 3 by 3 configuration up to the seed
    field, whose own streams are in different states. *)
Definition generator_a : @Generator lcg :=
  @mkGenerator lcg (mkConfig 3 0 (f64_const 30 100) 1 0) 11.
Definition generator_b : @Generator lcg :=
  @mkGenerator lcg (mkConfig 3 99 (f64_const 30 100) 1 0) 22.

Lemma C8_same_seed_same_layout_witness :
  Validate (config generator_a) = None ∧
  config_equiv (config generator_a) (config generator_b) ∧
  ∃ s1 s2,
    GenerateWithSeed generator_a 42 1000 = Some (s1, generator_a) ∧
    GenerateWithSeed generator_b 42 2000 = Some (s2, generator_b) ∧
    MineMap s1 = MineMap s2 ∧ MineCount s1 = MineCount s2 ∧
    Size s1 = Size s2 ∧ Seed s1 = 42 ∧ Seed s2 = 42 ∧
    Inv s1.
Proof.
  assert (config_equiv (config generator_a) (config generator_b)) as He
    by (split_and!; reflexivity).
  split; [reflexivity|]. split; [exact He|].
  apply (@C8_same_seed_same_layout lcg generator_a generator_b 42 1000 2000
           eq_refl He).
Defined.

End GeneratorWitness.

(** ** The spawner *)

Section SpawnerFacts.
Import Game Api Spawner.

Lemma all_coords_bind size :
  all_coords size = x ← seqZ 0 size; mkCoordinate x <$> seqZ 0 size.
Proof.
  unfold all_coords.
  assert (∀ x l acc,
            foldl (λ coords y, coords ++ [mkCoordinate x y]) acc l
            = acc ++ (mkCoordinate x <$> l)) as Hinner.
  { intros x l. induction l as [|y l IH]; intros acc; simpl.
    - by rewrite app_nil_r.
    - rewrite IH. by rewrite <- app_assoc. }
  assert (∀ l acc,
            foldl (λ coords x,
                     foldl (λ coords y, coords ++ [mkCoordinate x y]) coords
                       (seqZ 0 size)) acc l
            = acc ++ (x ← l; mkCoordinate x <$> seqZ 0 size)) as Houter.
  { intros l. induction l as [|x l IH]; intros acc.
    - simpl. by rewrite app_nil_r.
    - rewrite bind_cons. simpl. rewrite IH, Hinner. by rewrite <- app_assoc. }
  by rewrite Houter.
Qed.

Lemma all_coords_length size :
  0 ≤ size → Z.of_nat (length (all_coords size)) = size * size.
Proof.
  intros Hsize. rewrite all_coords_bind.
  assert (∀ l : list Z,
            length (x ← l; mkCoordinate x <$> seqZ 0 size)
            = (length l * Z.to_nat size)%nat) as Hlen.
  { induction l as [|x l IH]; [done|].
    rewrite bind_cons, length_app, length_fmap, length_seqZ, IH. simpl. lia. }
  rewrite Hlen, length_seqZ. lia.
Qed.

Lemma elem_of_all_coords size c :
  c ∈ all_coords size ↔ (0 ≤ X c < size ∧ 0 ≤ Y c < size).
Proof.
  rewrite all_coords_bind, list_elem_of_bind. split.
  - intros (x & (y & -> & Hy)%list_elem_of_fmap & Hx).
    apply elem_of_seqZ in Hx, Hy. simpl. lia.
  - intros [Hx Hy]. exists (X c). split; [|apply elem_of_seqZ; lia].
    apply list_elem_of_fmap. exists (Y c).
    split; [by destruct c|apply elem_of_seqZ; lia].
Qed.

(** [createPodWithRetry] on each coordinate in turn, with the outcome of
    each: what [SpawnGrid] does when the batches are forgotten. *)
Fixpoint run_all (s : GridSpawner) (k : Cluster) (coords : list Coordinate)
  : Cluster * list (Coordinate * option error) :=
  match coords with
  | [] => (k, [])
  | c :: coords' =>
      let '(k1, e) := createPodWithRetry s k c in
      let '(k2, outs) := run_all s k1 coords' in
      (k2, (c, e) :: outs)
  end.

Definition failed (o : Coordinate * option error) : Prop := is_Some o.2.

Global Instance failed_dec o : Decision (failed o).
Proof. unfold failed. apply _. Defined.

Lemma failed_Some c e : failed (c, Some e).
Proof. unfold failed. simpl. by eexists. Qed.

Lemma failed_None c : ¬ failed (c, None).
Proof. unfold failed. simpl. by intros [? ?]. Qed.

(** The counters after the outcomes [outs]. *)
Definition tally (r : SpawnResult) (outs : list (Coordinate * option error))
  : SpawnResult :=
  mkSpawnResult (TotalPods r)
    (CreatedPods r + Z.of_nat (length (filter (λ o, ¬ failed o) outs)))
    (FailedPods r + Z.of_nat (length (filter failed outs)))
    (FailedCoords r ++ (fst <$> filter failed outs)).

Lemma filter_failed_length (outs : list (Coordinate * option error)) :
  (length (filter failed outs) + length (filter (λ o, ¬ failed o) outs)
   = length outs)%nat.
Proof.
  induction outs as [|o outs IH]; simpl; [done|].
  rewrite !filter_cons. destruct (decide (failed o)).
  - rewrite decide_False by tauto. simpl. lia.
  - rewrite decide_True by done. simpl. lia.
Qed.

Lemma run_all_length s k coords : length (run_all s k coords).2 = length coords.
Proof.
  revert k. induction coords as [|c coords IH]; intros k; simpl; [done|].
  destruct (createPodWithRetry s k c) as [k1 e].
  specialize (IH k1). destruct (run_all s k1 coords) as [k2 outs].
  simpl in *. by rewrite IH.
Qed.

Lemma run_all_coords s k coords : (run_all s k coords).2.*1 = coords.
Proof.
  revert k. induction coords as [|c coords IH]; intros k; simpl; [done|].
  destruct (createPodWithRetry s k c) as [k1 e].
  specialize (IH k1). destruct (run_all s k1 coords) as [k2 outs].
  simpl in *. f_equal. exact IH.
Qed.

Lemma tally_cons_failed r c e outs :
  tally r ((c, Some e) :: outs)
  = tally (mkSpawnResult (TotalPods r) (CreatedPods r) (FailedPods r + 1)
             (FailedCoords r ++ [c])) outs.
Proof.
  unfold tally.
  rewrite (filter_cons_True failed) by apply failed_Some.
  rewrite (filter_cons_False (λ o, ¬ failed o))
    by (intros Hn; apply Hn, failed_Some).
  rewrite fmap_cons. cbn [length fst TotalPods CreatedPods FailedPods FailedCoords].
  rewrite <- app_assoc. f_equal. lia.
Qed.

Lemma tally_cons_created r c outs :
  tally r ((c, None) :: outs)
  = tally (mkSpawnResult (TotalPods r) (CreatedPods r + 1) (FailedPods r)
             (FailedCoords r)) outs.
Proof.
  unfold tally.
  rewrite (filter_cons_False failed) by apply failed_None.
  rewrite (filter_cons_True (λ o, ¬ failed o)) by apply failed_None.
  cbn [length fst TotalPods CreatedPods FailedPods FailedCoords].
  f_equal. lia.
Qed.

(** The loop over a batch is the run over its coordinates, as long as the
    counters do not overflow. *)
Lemma foldl_spawn_one s k r coords :
  0 ≤ CreatedPods r → 0 ≤ FailedPods r →
  CreatedPods r + FailedPods r + Z.of_nat (length coords) ≤ int_max →
  foldl (spawn_one s) (k, r) coords
  = ((run_all s k coords).1, tally r (run_all s k coords).2).
Proof.
  revert k r. induction coords as [|c coords IH]; intros k r Hc Hf Hmax.
  { simpl. unfold tally. simpl. rewrite !Z.add_0_r, app_nil_r. by destruct r. }
  simpl. simpl in Hmax.
  assert (∀ z, 0 ≤ z → z + 1 ≤ int_max → wrap (z + 1) = z + 1) as Hwrap.
  { intros z ? ?. apply wrap_in_int. unfold in_int, int_min, int_max in *. lia. }
  destruct (createPodWithRetry s k c) as [k1 [e|]].
  - rewrite Hwrap by lia. rewrite IH by (simpl; lia).
    destruct (run_all s k1 coords) as [k2 outs]. simpl.
    by rewrite tally_cons_failed.
  - rewrite Hwrap by lia. rewrite IH by (simpl; lia).
    destruct (run_all s k1 coords) as [k2 outs]. simpl.
    by rewrite tally_cons_created.
Qed.

(** The batches cover the coordinates from index [i] on, each once and in
    order: the batched loop is the loop over all of them. *)
Lemma batch_loop_flat s coords fuel i acc :
  0 < batchSize s →
  Z.of_nat (length coords) + batchSize s ≤ int_max →
  0 ≤ i →
  (i < Z.of_nat (length coords) → Z.of_nat (length coords) - i < Z.of_nat fuel) →
  batch_loop fuel s coords i acc
  = Some (foldl (spawn_one s) acc (drop (Z.to_nat i) coords)).
Proof.
  intros Hbs Hfit. revert i acc.
  induction fuel as [|fuel IH]; intros i acc Hi Hfuel; simpl.
  - case_decide as Hlt; [lia|]. by rewrite drop_ge by lia.
  - case_decide as Hlt; [|by rewrite drop_ge by lia].
    assert (wrap (i + batchSize s) = i + batchSize s) as ->.
    { apply wrap_in_int. unfold in_int, int_min, int_max in *. lia. }
    set (e := if decide (i + batchSize s > Z.of_nat (length coords))
              then Z.of_nat (length coords) else i + batchSize s).
    assert (i < e ≤ Z.of_nat (length coords)) as He
      by (unfold e; case_decide; lia).
    unfold slice. rewrite decide_True by lia. simpl.
    rewrite IH by lia. f_equal.
    rewrite <- (take_drop (Z.to_nat (e - i)) (drop (Z.to_nat i) coords)) at 2.
    rewrite foldl_app. f_equal. rewrite drop_drop.
    unfold e. case_decide.
    + rewrite !drop_ge by lia. done.
    + f_equal. lia.
Qed.

Lemma retry_loop_requests s attempts k c lastErr :
  ∃ more, requests (retry_loop s attempts k c lastErr).1 = requests k ++ more ∧
    fault (retry_loop s attempts k c lastErr).1 = fault k ∧
    ∀ r, r ∈ more → r = ReqWait ∨ r = ReqCreate (PodName c).
Proof.
  revert k lastErr. induction attempts as [|a attempts IH]; intros k lastErr.
  { exists []. simpl. rewrite app_nil_r. split_and!; [done..|].
    intros r Hr. by apply elem_of_nil in Hr. }
  simpl. unfold Wait, Create, scheduled.
  destruct (decide (a > 0)); simpl.
  - destruct (fault k (length (requests k))) as [e|] eqn:Hf1; simpl.
    { exists [ReqWait]. split_and!; [done..|].
      intros r ->%list_elem_of_singleton. by left. }
    rewrite length_app. simpl.
    destruct (fault k (length (requests k) + 1)%nat) as [e|]; simpl.
    { destruct (IsAlreadyExists e).
      - exists [ReqWait; ReqCreate (PodName c)]. simpl.
        rewrite <- app_assoc. split_and!; [done..|].
        intros r Hr. rewrite !elem_of_cons in Hr.
        destruct Hr as [->|[->|Hr]]; [by left|by right|by apply elem_of_nil in Hr].
      - destruct (IH (issue (issue k ReqWait) (ReqCreate (PodName c))) (Some e))
          as (more & Hreq & Hfault & Hmore).
        exists (ReqWait :: ReqCreate (PodName c) :: more).
        rewrite Hreq, Hfault. simpl. rewrite <- !app_assoc. simpl.
        split_and!; [done..|].
        intros r Hr. rewrite !elem_of_cons in Hr.
        destruct Hr as [->|[->|Hr]]; [by left|by right|by apply Hmore]. }
    destruct (pods k !! PodName c); simpl.
    + exists [ReqWait; ReqCreate (PodName c)]. simpl.
      rewrite <- app_assoc. split_and!; [done..|].
      intros r Hr. rewrite !elem_of_cons in Hr.
      destruct Hr as [->|[->|Hr]]; [by left|by right|by apply elem_of_nil in Hr].
    + exists [ReqWait; ReqCreate (PodName c)]. simpl.
      rewrite <- app_assoc. split_and!; [done..|].
      intros r Hr. rewrite !elem_of_cons in Hr.
      destruct Hr as [->|[->|Hr]]; [by left|by right|by apply elem_of_nil in Hr].
  - destruct (fault k (length (requests k))) as [e|]; simpl.
    { destruct (IsAlreadyExists e).
      - exists [ReqCreate (PodName c)]. split_and!; [done..|].
        intros r ->%list_elem_of_singleton. by right.
      - destruct (IH (issue k (ReqCreate (PodName c))) (Some e))
          as (more & Hreq & Hfault & Hmore).
        exists (ReqCreate (PodName c) :: more).
        rewrite Hreq, Hfault. simpl. rewrite <- !app_assoc. simpl.
        split_and!; [done..|].
        intros r Hr. rewrite !elem_of_cons in Hr.
        destruct Hr as [->|Hr]; [by right|by apply Hmore]. }
    destruct (pods k !! PodName c); simpl.
    + exists [ReqCreate (PodName c)]. split_and!; [done..|].
      intros r ->%list_elem_of_singleton. by right.
    + exists [ReqCreate (PodName c)]. split_and!; [done..|].
      intros r ->%list_elem_of_singleton. by right.
Qed.

(** The constructor never builds a spawner with an empty batch or without
    an attempt. *)
Lemma NewGridSpawner_positive (cfg : GridSpawnerConfig) :
  0 < batchSize (NewGridSpawner cfg) ∧ 0 < retryAttempts (NewGridSpawner cfg).
Proof.
  unfold NewGridSpawner, DefaultBatchSize, DefaultRetryAttempts. simpl.
  repeat case_decide; lia.
Qed.

(** A server none of whose requests fails. *)
Definition fault_free (k : Cluster) : Prop := ∀ n, fault k n = None.

(** With at least one attempt allowed, the first request is the creation
    of the pod of the coordinate. *)
Lemma createPodWithRetry_requests s k c :
  0 < retryAttempts s →
  ∃ more,
    requests (createPodWithRetry s k c).1
      = requests k ++ ReqCreate (PodName c) :: more ∧
    fault (createPodWithRetry s k c).1 = fault k.
Proof.
  intros Hn. unfold createPodWithRetry. rewrite seqZ_cons by lia. simpl.
  unfold Create, scheduled.
  destruct (fault k (length (requests k))) as [e|]; simpl.
  { destruct (IsAlreadyExists e); [by exists []|].
    destruct (retry_loop_requests s (seqZ (Z.succ 0) (Z.pred (retryAttempts s)))
                (issue k (ReqCreate (PodName c))) c (Some e))
      as (more & Hreq & Hfault & _).
    exists more. rewrite Hreq, Hfault. simpl. by rewrite <- app_assoc. }
  destruct (pods k !! PodName c); simpl; by exists [].
Qed.

(** "Already exists" is a success, at the first attempt. *)
Lemma createPodWithRetry_already_exists s k c :
  0 < retryAttempts s → scheduled k = None →
  is_Some (pods k !! PodName c) →
  createPodWithRetry s k c = (issue k (ReqCreate (PodName c)), None).
Proof.
  intros Hn Hf [p Hp]. unfold createPodWithRetry.
  rewrite seqZ_cons by lia. simpl. unfold Create. by rewrite Hf, Hp.
Qed.

(** On a server that does not fail, every coordinate succeeds at its first
    attempt, created or already there. *)
Lemma createPodWithRetry_fault_free s k c :
  0 < retryAttempts s → fault_free k →
  (createPodWithRetry s k c).2 = None ∧
  fault_free (createPodWithRetry s k c).1.
Proof.
  intros Hn Hff. split.
  - unfold createPodWithRetry. rewrite seqZ_cons by lia. simpl.
    unfold Create, scheduled. rewrite Hff.
    by destruct (pods k !! PodName c).
  - destruct (createPodWithRetry_requests s k c Hn) as (more & _ & Hfault).
    intros n. rewrite Hfault. apply Hff.
Qed.

Lemma run_all_fault_free s k coords :
  0 < retryAttempts s → fault_free k →
  filter failed (run_all s k coords).2 = [].
Proof.
  intros Hn. revert k. induction coords as [|c coords IH]; intros k Hff; simpl.
  { done. }
  destruct (createPodWithRetry_fault_free s k c Hn Hff) as [Hnone Hff1].
  destruct (createPodWithRetry s k c) as [k1 e]. simpl in *. subst e.
  specialize (IH k1 Hff1). destruct (run_all s k1 coords) as [k2 outs].
  simpl in *. rewrite filter_cons_False by apply failed_None. done.
Qed.

Lemma run_all_requests s k coords :
  0 < retryAttempts s →
  ∃ new,
    requests (run_all s k coords).1 = requests k ++ new ∧
    fault (run_all s k coords).1 = fault k ∧
    ∀ c, c ∈ coords → ReqCreate (PodName c) ∈ new.
Proof.
  intros Hn. revert k. induction coords as [|c coords IH]; intros k; simpl.
  { exists []. rewrite app_nil_r. split_and!; [done..|].
    intros c Hc. by apply elem_of_nil in Hc. }
  destruct (createPodWithRetry_requests s k c Hn) as (more & Hreq & Hfault).
  destruct (createPodWithRetry s k c) as [k1 e]. simpl in *.
  destruct (IH k1) as (new & Hreq1 & Hfault1 & Hnew).
  destruct (run_all s k1 coords) as [k2 outs]. simpl in *.
  exists (ReqCreate (PodName c) :: more ++ new).
  rewrite Hreq1, Hreq, Hfault1, Hfault. rewrite <- app_assoc. simpl.
  split_and!; [done..|].
  intros c' [->|Hc']%elem_of_cons; [by left|].
  right. apply elem_of_app. right. by apply Hnew.
Qed.

End SpawnerFacts.

(** *** Retries of a creation *)

Section RetryFacts.
Import Game Api Spawner.

(** The creation requested as request number [i] fails: the server answers
    with an error other than "already exists". *)
Definition create_fails (k : Cluster) (i : nat) : Prop :=
  ∃ e, fault k i = Some e ∧ IsAlreadyExists e = false.

(** [j] failed attempts from request number [n0] on, each followed by a wait
    that runs to its end. *)
Definition retries (k : Cluster) (n0 j : nat) : Prop :=
  ∀ i, (i < j)%nat →
    create_fails k (n0 + 2 * i) ∧ fault k (n0 + 2 * i + 1) = None.

(** The requests of [j] such attempts: a creation and a wait, [j] times. *)
Fixpoint attempt_log (name : string) (j : nat) : list Request :=
  match j with
  | O => []
  | S j' => ReqCreate name :: ReqWait :: attempt_log name j'
  end.

(** The same seen from inside the loop, where an iteration waits first. *)
Fixpoint wait_log (name : string) (j : nat) : list Request :=
  match j with
  | O => []
  | S j' => ReqWait :: ReqCreate name :: wait_log name j'
  end.

Lemma attempt_log_wait_log name j :
  attempt_log name j ++ [ReqCreate name] = ReqCreate name :: wait_log name j.
Proof. induction j as [|j IH]; simpl; [done|]. by rewrite IH. Qed.

Lemma wait_log_snoc name j :
  wait_log name (S j) = wait_log name j ++ [ReqWait; ReqCreate name].
Proof. induction j as [|j IH]; [done|]. simpl in *. by rewrite IH. Qed.

Lemma length_wait_log name j : length (wait_log name j) = (2 * j)%nat.
Proof. induction j as [|j IH]; simpl; [done|]. rewrite IH. lia. Qed.

Definition tail_retries (k : Cluster) (n0 j : nat) : Prop :=
  ∀ i, (i < j)%nat →
    fault k (n0 + 2 * i) = None ∧ create_fails k (n0 + 2 * i + 1).

Definition after_failures (k : Cluster) (name : string) (j : nat) : Cluster :=
  mkCluster (pods k) (requests k ++ wait_log name j) (fault k).

Definition last_error (k : Cluster) (n0 j : nat) (lastErr : option error)
  : option error :=
  match j with
  | O => lastErr
  | S j' => fault k (n0 + 2 * j' + 1)
  end.

(** The loop goes through [j] failed iterations without changing a pod. *)
Lemma retry_loop_skip s c j : ∀ attempts k lastErr,
  Forall (λ a, a > 0) attempts → (j ≤ length attempts)%nat →
  tail_retries k (length (requests k)) j →
  retry_loop s attempts k c lastErr
  = retry_loop s (drop j attempts) (after_failures k (PodName c) j) c
      (last_error k (length (requests k)) j lastErr).
Proof.
  induction j as [|j IH]; intros attempts k lastErr Hpos Hlen Hfail.
  { simpl. unfold after_failures. simpl. rewrite app_nil_r, drop_0.
    by destruct k. }
  destruct attempts as [|a attempts]; [simpl in Hlen; lia|].
  apply Forall_cons in Hpos as [Ha Hpos]. simpl in Hlen.
  destruct (Hfail 0%nat) as [Hw (e & He & Hne)]; [lia|].
  rewrite Nat.mul_0_r, Nat.add_0_r in Hw, He.
  cbn [retry_loop drop]. rewrite decide_True by done.
  unfold Wait at 1. unfold scheduled at 1. rewrite Hw.
  unfold Create at 1. unfold scheduled at 1. cbn [issue requests fault].
  rewrite length_app. cbn [length].
  rewrite He, Hne.
  rewrite IH; [|done|lia|].
  - f_equal.
    + unfold after_failures. cbn [issue requests pods fault]. f_equal.
      rewrite <- !app_assoc. done.
    + cbn [issue requests fault]. rewrite !length_app. cbn [length].
      destruct j as [|j']; cbn [last_error]; [rewrite <- He|]; f_equal; lia.
  - intros i Hi. cbn [issue requests fault]. rewrite !length_app. cbn [length].
    destruct (Hfail (S i)) as [Hw' Hc']; [lia|].
    replace (length (requests k) + 1 + 1 + 2 * i)%nat
      with (length (requests k) + 2 * S i)%nat by lia.
    split; [done|].
    replace (length (requests k) + 2 * S i + 1)%nat
      with (length (requests k) + 2 * S i + 1)%nat by lia. done.
Qed.

Lemma retry_attempts_tail (n : Z) :
  Forall (λ a, a > 0) (seqZ 1 (n - 1)) ∧
  length (seqZ 1 (n - 1)) = Z.to_nat (n - 1).
Proof.
  split; [|by rewrite length_seqZ].
  apply Forall_forall. intros a Ha%elem_of_seqZ. lia.
Qed.

(** The first attempt is a creation without a wait; when it fails the loop
    goes on with the attempts that wait first. *)
Lemma createPodWithRetry_first s k c e :
  0 < retryAttempts s →
  fault k (length (requests k)) = Some e → IsAlreadyExists e = false →
  createPodWithRetry s k c
  = retry_loop s (seqZ 1 (retryAttempts s - 1))
      (issue k (ReqCreate (PodName c))) c (Some e).
Proof.
  intros Hn He Hne. unfold createPodWithRetry.
  rewrite seqZ_cons by lia. cbn [retry_loop].
  rewrite decide_False by lia. unfold Create, scheduled.
  rewrite He, Hne. done.
Qed.

Lemma retries_tail k c n0 j :
  n0 = length (requests k) →
  retries k n0 (S j) →
  tail_retries (issue k (ReqCreate (PodName c)))
    (length (requests (issue k (ReqCreate (PodName c))))) j ∧
  fault k (n0 + 2 * j + 1) = None.
Proof.
  intros -> Hr. split.
  - intros i Hi. cbn [issue requests fault]. rewrite length_app. cbn [length].
    destruct (Hr i) as [_ Hw]; [lia|]. destruct (Hr (S i)) as [Hc _]; [lia|].
    split.
    + rewrite <- Hw. f_equal. lia.
    + destruct Hc as (e & He & Hne). exists e. split; [|done].
      rewrite <- He. f_equal. lia.
  - by destruct (Hr j) as [_ Hw]; [lia|].
Qed.

(** Success at the attempt number [j], after [j] failed ones. *)
Lemma createPodWithRetry_success s k c j :
  Z.of_nat j < retryAttempts s →
  retries k (length (requests k)) j →
  ¬ create_fails k (length (requests k) + 2 * j) →
  ∃ k', createPodWithRetry s k c = (k', None) ∧
    requests k'
      = requests k ++ attempt_log (PodName c) j ++ [ReqCreate (PodName c)] ∧
    fault k' = fault k ∧
    (∀ name, name ≠ PodName c → pods k' !! name = pods k !! name) ∧
    (fault k (length (requests k) + 2 * j) = None →
       pods k' !! PodName c
       = Some (default (buildCellPod s c) (pods k !! PodName c))) ∧
    (is_Some (fault k (length (requests k) + 2 * j)) → pods k' = pods k).
Proof.
  intros Hj Hr Hok.
  (* the creation that succeeds, from a cluster [k0] with the pods of [k] *)
  assert (∀ k0, pods k0 = pods k → fault k0 = fault k →
            length (requests k0) = (length (requests k) + 2 * j)%nat →
            ∃ k', (let '(k2, r) := Create k0 (PodName c) (buildCellPod s c) in
                   match r with
                   | Some err => if IsAlreadyExists err then Some k2 else None
                   | None => Some k2
                   end) = Some k' ∧
              requests k' = requests k0 ++ [ReqCreate (PodName c)] ∧
              fault k' = fault k ∧
              (∀ name, name ≠ PodName c → pods k' !! name = pods k !! name) ∧
              (fault k (length (requests k) + 2 * j) = None →
                 pods k' !! PodName c
                 = Some (default (buildCellPod s c) (pods k !! PodName c))) ∧
              (is_Some (fault k (length (requests k) + 2 * j)) →
                 pods k' = pods k)) as Hcreate.
  { intros k0 Hp Hf Hlen. unfold Create, scheduled. rewrite Hf, Hlen, Hp.
    destruct (fault k (length (requests k) + 2 * j)) as [e|] eqn:He.
    - destruct (IsAlreadyExists e) eqn:Hae.
      + eexists. split; [done|]. cbn [issue requests fault pods].
        split_and!; try done; by rewrite ?Hp.
      + exfalso. apply Hok. by exists e.
    - destruct (pods k !! PodName c) as [p|] eqn:Hpod.
      + eexists. split; [done|]. cbn [issue requests fault pods].
        rewrite ?Hp. split_and!; try done; by intros [? ?].
      + eexists. split; [done|]. cbn [issue requests fault pods].
        rewrite ?Hp. split_and!; try done.
        * intros name Hne. by rewrite lookup_insert_ne.
        * intros _. by rewrite lookup_insert_eq. }
  destruct j as [|j].
  - destruct (Hcreate k) as (k' & Hk' & Hreq & Hrest); [done|done|lia|].
    exists k'. split; [|by split].
    unfold createPodWithRetry. rewrite seqZ_cons by lia. cbn [retry_loop].
    rewrite decide_False by lia.
    destruct (Create k (PodName c) (buildCellPod s c)) as [k2 [err|]].
    + destruct (IsAlreadyExists err); [|done]. by injection Hk' as ->.
    + by injection Hk' as ->.
  - destruct (Hr 0%nat) as [(e0 & He0 & Hne0) _]; [lia|].
    rewrite Nat.mul_0_r, Nat.add_0_r in He0.
    destruct (retries_tail k c _ j eq_refl Hr) as [Htail Hwait].
    destruct (retry_attempts_tail (retryAttempts s)) as [Hpos Hlen].
    rewrite (createPodWithRetry_first s k c e0) by (done || lia).
    rewrite (retry_loop_skip s c j) by (done || lia).
    set (k1 := issue k (ReqCreate (PodName c))) in *.
    set (kj := after_failures k1 (PodName c) j).
    destruct (drop j (seqZ 1 (retryAttempts s - 1))) as [|a rest] eqn:Hdrop.
    { apply (f_equal length) in Hdrop. rewrite length_drop, Hlen in Hdrop.
      simpl in Hdrop. lia. }
    assert (a > 0) as Ha.
    { assert (a ∈ drop j (seqZ 1 (retryAttempts s - 1))) as Hin
        by (rewrite Hdrop; by left).
      apply subseteq_drop, elem_of_seqZ in Hin. lia. }
    assert (length (requests kj) = (length (requests k) + 2 * j + 1)%nat)
      as Hlenj.
    { unfold kj, after_failures, k1. cbn [issue requests].
      rewrite !length_app, length_wait_log. simpl. lia. }
    cbn [retry_loop]. rewrite decide_True by done.
    unfold Wait. unfold scheduled at 1.
    assert (fault kj = fault k) as Hfj by done.
    rewrite Hfj, Hlenj, Hwait.
    destruct (Hcreate (issue kj ReqWait)) as (k' & Hk' & Hreq & Hrest);
      [done|done|cbn [issue requests]; rewrite length_app, Hlenj; simpl; lia|].
    exists k'. split.
    + destruct (Create (issue kj ReqWait) (PodName c) (buildCellPod s c))
        as [k2 [err|]].
      * destruct (IsAlreadyExists err); [|done]. by injection Hk' as ->.
      * by injection Hk' as ->.
    + split; [|done]. rewrite Hreq. unfold kj, after_failures, k1.
      cbn [issue requests]. rewrite <- !app_assoc. f_equal.
      change (ReqCreate (PodName c) :: ReqWait :: attempt_log (PodName c) j
                ++ [ReqCreate (PodName c)])
        with ([ReqCreate (PodName c); ReqWait]
                ++ (attempt_log (PodName c) j ++ [ReqCreate (PodName c)])).
      rewrite attempt_log_wait_log. simpl.
      rewrite <- wait_log_snoc. done.
Qed.

(** The first creation fails and [j] iterations of the loop fail after it. *)
Lemma retries_then_fail k c j :
  retries k (length (requests k)) j →
  create_fails k (length (requests k) + 2 * j) →
  (∃ e0, fault k (length (requests k)) = Some e0 ∧ IsAlreadyExists e0 = false) ∧
  tail_retries (issue k (ReqCreate (PodName c)))
    (length (requests (issue k (ReqCreate (PodName c))))) j.
Proof.
  intros Hr Hc. split.
  - destruct j as [|j].
    + by rewrite Nat.mul_0_r, Nat.add_0_r in Hc.
    + destruct (Hr 0%nat) as [H0 _]; [lia|].
      by rewrite Nat.mul_0_r, Nat.add_0_r in H0.
  - intros i Hi. cbn [issue requests fault]. rewrite length_app. cbn [length].
    destruct (Hr i) as [_ Hw]; [lia|]. split.
    + rewrite <- Hw. f_equal. lia.
    + assert (create_fails k (length (requests k) + 2 * S i)) as (e & He & Hne).
      { destruct (decide (S i = j)) as [->|Hne]; [done|].
        by destruct (Hr (S i)) as [? _]; [lia|]. }
      exists e. split; [|done]. rewrite <- He. f_equal. lia.
Qed.

(** Permanent failure: every one of the attempts allowed fails; the error
    of the last one is returned, wrapped, and no pod has changed. *)
Lemma createPodWithRetry_gives_up s k c j e :
  retryAttempts s = Z.of_nat (S j) →
  retries k (length (requests k)) j →
  fault k (length (requests k) + 2 * j) = Some e → IsAlreadyExists e = false →
  createPodWithRetry s k c
  = (mkCluster (pods k)
       (requests k ++ attempt_log (PodName c) j ++ [ReqCreate (PodName c)])
       (fault k),
     Some (Wrapped "after attempts" e)).
Proof.
  intros Hn Hr He Hne.
  destruct (retries_then_fail k c j Hr) as [(e0 & He0 & Hne0) Htail];
    [by exists e|].
  destruct (retry_attempts_tail (retryAttempts s)) as [Hpos Hlen].
  rewrite (createPodWithRetry_first s k c e0) by (done || lia).
  rewrite (retry_loop_skip s c j) by (done || lia).
  rewrite drop_ge by lia. cbn [retry_loop].
  unfold after_failures. cbn [issue requests pods fault].
  rewrite attempt_log_wait_log, <- app_assoc. f_equal.
  assert (last_error (issue k (ReqCreate (PodName c)))
            (length (requests k ++ [ReqCreate (PodName c)])) j (Some e0)
          = Some e) as ->; [|done].
  destruct j as [|j]; cbn [last_error].
  - rewrite Nat.mul_0_r, Nat.add_0_r in He. congruence.
  - cbn [issue fault]. rewrite length_app. cbn [length].
    rewrite <- He. f_equal. lia.
Qed.

(** A wait that is cut short ends the call with its error, at once. *)
Lemma createPodWithRetry_cancelled s k c j e :
  Z.of_nat (S j) < retryAttempts s →
  retries k (length (requests k)) j →
  create_fails k (length (requests k) + 2 * j) →
  fault k (length (requests k) + 2 * j + 1) = Some e →
  createPodWithRetry s k c
  = (mkCluster (pods k)
       (requests k ++ attempt_log (PodName c) j
          ++ [ReqCreate (PodName c); ReqWait])
       (fault k),
     Some e).
Proof.
  intros Hn Hr Hc He.
  destruct (retries_then_fail k c j Hr Hc) as [(e0 & He0 & Hne0) Htail].
  destruct (retry_attempts_tail (retryAttempts s)) as [Hpos Hlen].
  rewrite (createPodWithRetry_first s k c e0) by (done || lia).
  rewrite (retry_loop_skip s c j) by (done || lia).
  destruct (drop j (seqZ 1 (retryAttempts s - 1))) as [|a rest] eqn:Hdrop.
  { apply (f_equal length) in Hdrop. rewrite length_drop, Hlen in Hdrop.
    simpl in Hdrop. lia. }
  assert (a > 0) as Ha.
  { assert (a ∈ drop j (seqZ 1 (retryAttempts s - 1))) as Hin
      by (rewrite Hdrop; by left).
    apply subseteq_drop, elem_of_seqZ in Hin. lia. }
  cbn [retry_loop]. rewrite decide_True by done.
  unfold Wait, scheduled, after_failures. cbn [issue requests pods fault].
  rewrite !length_app, length_wait_log. cbn [length].
  replace (length (requests k) + 1 + 2 * j)%nat
    with (length (requests k) + 2 * j + 1)%nat by lia.
  rewrite He. f_equal. unfold issue. cbn [requests pods fault]. f_equal.
  change (attempt_log (PodName c) j ++ [ReqCreate (PodName c); ReqWait])
    with (attempt_log (PodName c) j ++ [ReqCreate (PodName c)] ++ [ReqWait]).
  rewrite (app_assoc (attempt_log _ _)), attempt_log_wait_log.
  by rewrite <- !app_assoc.
Qed.

Global Instance create_fails_dec k i : Decision (create_fails k i).
Proof.
  unfold create_fails. destruct (fault k i) as [e|].
  - destruct (IsAlreadyExists e) eqn:He.
    + right. intros (e' & [= <-] & He'). congruence.
    + left. by exists e.
  - right. by intros (e' & [=] & _).
Defined.

(** Whatever the server does, the call ends in one of three ways: an attempt
    succeeds, the attempts are used up, or a wait is cut short. *)
Lemma retries_cases k n0 m :
  ∃ j, (j ≤ m)%nat ∧ retries k n0 j ∧
    (j = m ∨
     ¬ create_fails k (n0 + 2 * j) ∨
     (create_fails k (n0 + 2 * j) ∧ is_Some (fault k (n0 + 2 * j + 1)))).
Proof.
  induction m as [|m (j & Hj & Hr & Hcase)].
  { exists 0%nat. split; [done|]. split; [|by left]. intros i Hi. lia. }
  destruct Hcase as [->|Hstop]; [|exists j; split_and!; [lia|done|by right]].
  destruct (decide (create_fails k (n0 + 2 * m))) as [Hc|Hc].
  - destruct (fault k (n0 + 2 * m + 1)) as [e|] eqn:Hw.
    + exists m. split_and!; [lia|done|]. right. right. split; [done|].
      rewrite Hw. by eexists.
    + exists (S m). split_and!; [done| |by left].
      intros i Hi. destruct (decide (i = m)) as [->|Hne]; [done|].
      apply Hr. lia.
  - exists m. split_and!; [lia|done|]. right. by left.
Qed.

(** The call returns an error exactly when the server fails every attempt
    allowed, or fails some and the wait that follows is cut short. *)
Lemma createPodWithRetry_error_iff s k c :
  0 < retryAttempts s →
  is_Some (createPodWithRetry s k c).2 ↔
  ∃ j, retries k (length (requests k)) j ∧
    create_fails k (length (requests k) + 2 * j) ∧
    (Z.of_nat (S j) = retryAttempts s ∨
     (Z.of_nat (S j) < retryAttempts s ∧
      is_Some (fault k (length (requests k) + 2 * j + 1)))).
Proof.
  intros Hn. split.
  - intros Herr.
    destruct (retries_cases k (length (requests k))
                (Z.to_nat (retryAttempts s) - 1))
      as (j & Hj & Hr & Hcase).
    destruct (decide (create_fails k (length (requests k) + 2 * j)))
      as [Hc|Hc].
    + exists j. split_and!; [done..|].
      destruct Hcase as [->|[?|[_ Hw]]]; [left; lia|done|].
      destruct (decide (Z.of_nat (S j) = retryAttempts s)); [by left|].
      right. split; [lia|done].
    + destruct (createPodWithRetry_success s k c j) as (k' & Heq & _);
        [lia|done|done|].
      rewrite Heq in Herr. by apply is_Some_None in Herr.
  - intros (j & Hr & Hc & [Hlast|[Hmore [e He]]]).
    + destruct Hc as (e & He & Hne).
      rewrite (createPodWithRetry_gives_up s k c j e) by done. by eexists.
    + rewrite (createPodWithRetry_cancelled s k c j e) by done. by eexists.
Qed.

(** On a server that does not fail, the run leaves a pod for every
    coordinate, keeps the pods that were there and adds no other. *)
Lemma run_all_pods_fault_free s coords : ∀ k,
  0 < retryAttempts s → fault_free k →
  (∀ name p, pods k !! name = Some p →
     pods (run_all s k coords).1 !! name = Some p) ∧
  (∀ c, c ∈ coords → is_Some (pods (run_all s k coords).1 !! PodName c)) ∧
  (∀ name p, pods (run_all s k coords).1 !! name = Some p →
     pods k !! name = Some p ∨
     ∃ c, c ∈ coords ∧ name = PodName c ∧ p = buildCellPod s c).
Proof.
  induction coords as [|c coords IH]; intros k Hn Hff.
  { simpl. split_and!; [done| |by left].
    intros c Hc. by apply elem_of_nil in Hc. }
  destruct (createPodWithRetry_success s k c 0)
    as (k1 & Heq & _ & Hf1 & Hother & Hnew & _).
  { lia. }
  { intros i Hi. lia. }
  { intros (e & He & _). by rewrite Hff in He. }
  specialize (Hnew (Hff _)).
  assert (fault_free k1) as Hff1 by (intros n; rewrite Hf1; apply Hff).
  destruct (IH k1 Hn Hff1) as (Hmono & Hall & Honly).
  cbn [run_all]. rewrite Heq.
  destruct (run_all s k1 coords) as [k2 outs]. cbn [fst] in *.
  assert (∀ name p, pods k !! name = Some p → pods k1 !! name = Some p)
    as Hmono1.
  { intros name p Hp. destruct (decide (name = PodName c)) as [->|Hne].
    - by rewrite Hnew, Hp.
    - by rewrite Hother. }
  split_and!.
  - intros name p Hp. by apply Hmono, Hmono1.
  - intros c' [->|Hc']%elem_of_cons; [|by apply Hall].
    eexists. by apply Hmono.
  - intros name p Hp. destruct (Honly name p Hp) as [Hp1|(c' & Hc' & -> & ->)].
    + destruct (decide (name = PodName c)) as [->|Hne].
      * rewrite Hnew in Hp1. injection Hp1 as <-.
        destruct (pods k !! PodName c) as [p0|] eqn:Hp0; [by left|].
        right. exists c. split_and!; [by left|done|done].
      * left. by rewrite <- Hother.
    + right. exists c'. split_and!; [by right|done|done].
Qed.

(** The server fails every creation, and no wait is cut short: the requests
    come in blocks, one per coordinate, of as many creations as attempts are
    allowed with a wait between two of them. *)
Definition every_creation_fails (s : GridSpawner) (k : Cluster)
    (blocks : nat) : Prop :=
  let n := Z.to_nat (retryAttempts s) in
  ∀ b, (b < blocks)%nat →
    retries k (length (requests k) + b * (2 * n - 1)) (n - 1) ∧
    create_fails k (length (requests k) + b * (2 * n - 1) + 2 * (n - 1)).

Lemma run_all_every_creation_fails s coords : ∀ k,
  0 < retryAttempts s → every_creation_fails s k (length coords) →
  pods (run_all s k coords).1 = pods k ∧
  fault (run_all s k coords).1 = fault k ∧
  requests (run_all s k coords).1
  = requests k ++
      (c ← coords;
       attempt_log (PodName c) (Z.to_nat (retryAttempts s) - 1)
         ++ [ReqCreate (PodName c)]) ∧
  filter failed (run_all s k coords).2 = (run_all s k coords).2.
Proof.
  induction coords as [|c coords IH]; intros k Hn Hfail.
  { simpl. by rewrite app_nil_r. }
  set (n := Z.to_nat (retryAttempts s)) in *.
  destruct (Hfail 0%nat) as [Hr (e & He & Hne)]; [simpl; lia|].
  rewrite Nat.mul_0_l, Nat.add_0_r in Hr, He.
  set (k1 := mkCluster (pods k)
               (requests k ++ attempt_log (PodName c) (n - 1)
                  ++ [ReqCreate (PodName c)]) (fault k)).
  assert (length (requests k1) = (length (requests k) + (2 * n - 1))%nat)
    as Hlen1.
  { unfold k1. cbn [requests]. rewrite attempt_log_wait_log.
    rewrite length_app. cbn [length]. rewrite length_wait_log. lia. }
  destruct (IH k1 Hn) as (Hpods & Hfault & Hreq & Hall).
  { intros b Hb. destruct (Hfail (S b)) as [Hr' Hc']; [simpl; lia|].
    fold n in Hr', Hc' |- *. rewrite Hlen1.
    replace (length (requests k) + (2 * n - 1) + b * (2 * n - 1))%nat
      with (length (requests k) + S b * (2 * n - 1))%nat by lia.
    done. }
  cbn [run_all]. fold n.
  match goal with |- context [createPodWithRetry s k c] =>
    replace (createPodWithRetry s k c)
      with (k1, Some (Wrapped "after attempts" e))
  end.
  2:{ symmetry. apply (createPodWithRetry_gives_up s k c (n - 1) e);
        [lia|done..]. }
  destruct (run_all s k1 coords) as [k2 outs]. cbn [fst snd] in *.
  split_and!; [done|done| |].
  - rewrite Hreq. unfold k1. cbn [requests]. rewrite bind_cons.
    by rewrite <- !app_assoc.
  - rewrite filter_cons_True by apply failed_Some. by rewrite Hall.
Qed.
End RetryFacts.

Section SpawnerClaims.
Import Game Api Spawner.

(** C9: with a spawner that has a positive batch size and at least one
    attempt (every spawner the constructor builds), and a grid whose cell
    count fits an [int],
    [SpawnGrid] returns; what it does is [createPodWithRetry] on each of
    the size * size coordinates, once and in order, whatever the outcome of
    the others (the batches only group them); each coordinate gets a
    creation request; an "already exists" answer makes the coordinate a
    success; the result counts every coordinate as created or failed, so
    that created + failed = total, and lists the failed ones; an error is
    returned exactly when a coordinate failed; and on a server that does
    not fail, a spawn, first or repeated, reports no failure.

    The retry of one coordinate, on any server.  A creation fails when the
    server answers with an error other than "already exists".  After [j]
    failed creations, each followed by a wait that ran to its end, a
    creation that does not fail makes the coordinate a success: the log
    shows the [j + 1] creations with the waits between them, no other pod
    is touched, and the pod of the coordinate is there when the server
    accepted the creation.  When the server fails every one of the attempts
    allowed, the coordinate fails for good, with the error of the last
    attempt, wrapped, after exactly that many creations, and no pod has
    changed.  When a wait is cut short, the call ends at once with the error
    of the wait.  These are the only ways for a coordinate to fail.

    On a server that does not fail, the pod of every coordinate of the grid
    is there after the spawn, the pods that were there are kept, and no
    other pod appears.  On a server that fails every creation, every
    coordinate is attempted as many times as allowed and reported failed:
    the call returns an error, nothing was created, the failed coordinates
    are all the coordinates in order, and no pod has changed. *)
Theorem C9_spawn_grid (s : GridSpawner) (k : Cluster) (state : GameState) :
  0 < batchSize s → 0 < retryAttempts s → 0 ≤ Size state →
  Size state * Size state + batchSize s ≤ int_max →
  ∃ result err,
    SpawnGrid s k state
      = Some ((run_all s k (all_coords (Size state))).1, result, err) ∧
    Z.of_nat (length (all_coords (Size state))) = Size state * Size state ∧
    (∀ c, c ∈ all_coords (Size state) ↔ in_grid state (X c) (Y c)) ∧
    (run_all s k (all_coords (Size state))).2.*1 = all_coords (Size state) ∧
    result = tally (mkSpawnResult (Size state * Size state) 0 0 [])
               (run_all s k (all_coords (Size state))).2 ∧
    TotalPods result = Size state * Size state ∧
    CreatedPods result + FailedPods result = TotalPods result ∧
    0 ≤ CreatedPods result ∧ 0 ≤ FailedPods result ∧
    Z.of_nat (length (FailedCoords result)) = FailedPods result ∧
    (is_Some err ↔ FailedPods result > 0) ∧
    (is_Some err ↔
     ∃ c e, (c, Some e) ∈ (run_all s k (all_coords (Size state))).2) ∧
    (∃ new,
       requests (run_all s k (all_coords (Size state))).1 = requests k ++ new ∧
       ∀ c, in_grid state (X c) (Y c) → ReqCreate (PodName c) ∈ new) ∧
    (∀ k0 c, scheduled k0 = None → is_Some (pods k0 !! PodName c) →
       (createPodWithRetry s k0 c).2 = None) ∧
    (fault_free k →
       err = None ∧ FailedPods result = 0 ∧
       CreatedPods result = TotalPods result) ∧
    (∀ k0 c j,
       Z.of_nat j < retryAttempts s →
       retries k0 (length (requests k0)) j →
       ¬ create_fails k0 (length (requests k0) + 2 * j) →
       ∃ k', createPodWithRetry s k0 c = (k', None) ∧
         requests k'
           = requests k0 ++ attempt_log (PodName c) j
               ++ [ReqCreate (PodName c)] ∧
         fault k' = fault k0 ∧
         (∀ name, name ≠ PodName c → pods k' !! name = pods k0 !! name) ∧
         (fault k0 (length (requests k0) + 2 * j) = None →
            pods k' !! PodName c
            = Some (default (buildCellPod s c) (pods k0 !! PodName c))) ∧
         (is_Some (fault k0 (length (requests k0) + 2 * j)) →
            pods k' = pods k0)) ∧
    (∀ k0 c j e,
       retryAttempts s = Z.of_nat (S j) →
       retries k0 (length (requests k0)) j →
       fault k0 (length (requests k0) + 2 * j) = Some e →
       IsAlreadyExists e = false →
       createPodWithRetry s k0 c
       = (mkCluster (pods k0)
            (requests k0 ++ attempt_log (PodName c) j
               ++ [ReqCreate (PodName c)])
            (fault k0),
          Some (Wrapped "after attempts" e))) ∧
    (∀ k0 c j e,
       Z.of_nat (S j) < retryAttempts s →
       retries k0 (length (requests k0)) j →
       create_fails k0 (length (requests k0) + 2 * j) →
       fault k0 (length (requests k0) + 2 * j + 1) = Some e →
       createPodWithRetry s k0 c
       = (mkCluster (pods k0)
            (requests k0 ++ attempt_log (PodName c) j
               ++ [ReqCreate (PodName c); ReqWait])
            (fault k0),
          Some e)) ∧
    (∀ k0 c,
       is_Some (createPodWithRetry s k0 c).2 ↔
       ∃ j, retries k0 (length (requests k0)) j ∧
         create_fails k0 (length (requests k0) + 2 * j) ∧
         (Z.of_nat (S j) = retryAttempts s ∨
          (Z.of_nat (S j) < retryAttempts s ∧
           is_Some (fault k0 (length (requests k0) + 2 * j + 1))))) ∧
    (fault_free k →
       (∀ c, in_grid state (X c) (Y c) →
          is_Some (pods (run_all s k (all_coords (Size state))).1
                     !! PodName c)) ∧
       (∀ name p, pods k !! name = Some p →
          pods (run_all s k (all_coords (Size state))).1 !! name = Some p) ∧
       (∀ name p,
          pods (run_all s k (all_coords (Size state))).1 !! name = Some p →
          pods k !! name = Some p ∨
          ∃ c, in_grid state (X c) (Y c) ∧ name = PodName c ∧
               p = buildCellPod s c)) ∧
    (every_creation_fails s k (Z.to_nat (Size state * Size state)) →
       (0 < Size state → is_Some err) ∧
       FailedPods result = TotalPods result ∧
       CreatedPods result = 0 ∧
       FailedCoords result = all_coords (Size state) ∧
       pods (run_all s k (all_coords (Size state))).1 = pods k ∧
       requests (run_all s k (all_coords (Size state))).1
       = requests k ++
           (c ← all_coords (Size state);
            attempt_log (PodName c) (Z.to_nat (retryAttempts s) - 1)
              ++ [ReqCreate (PodName c)])).
Proof.
  intros Hbs Hretry Hsize Hfit. unfold SpawnGrid.
  assert (wrap (Size state * Size state) = Size state * Size state) as ->.
  { apply wrap_in_int. unfold in_int, int_min, int_max in *. nia. }
  rewrite decide_False by nia.
  pose proof (all_coords_length (Size state) Hsize) as Hlen.
  rewrite batch_loop_flat; [|done|lia|done|lia].
  simpl. rewrite drop_0.
  rewrite foldl_spawn_one by (simpl; lia).
  pose proof (run_all_length s k (all_coords (Size state))) as Houts.
  pose proof (filter_failed_length (run_all s k (all_coords (Size state))).2)
    as Hsplit.
  destruct (run_all_requests s k (all_coords (Size state)) Hretry)
    as (new & Hreq & _ & Hnew).
  pose proof (run_all_coords s k (all_coords (Size state))) as Hfst.
  assert (∀ c, c ∈ all_coords (Size state) ↔ in_grid state (X c) (Y c))
    as Hcells.
  { intros c. by rewrite elem_of_all_coords. }
  assert (fault_free k →
            (∀ c, in_grid state (X c) (Y c) →
               is_Some (pods (run_all s k (all_coords (Size state))).1
                          !! PodName c)) ∧
            (∀ name p, pods k !! name = Some p →
               pods (run_all s k (all_coords (Size state))).1 !! name
               = Some p) ∧
            (∀ name p,
               pods (run_all s k (all_coords (Size state))).1 !! name
               = Some p →
               pods k !! name = Some p ∨
               ∃ c, in_grid state (X c) (Y c) ∧ name = PodName c ∧
                    p = buildCellPod s c)) as Hpods.
  { intros Hff.
    destruct (run_all_pods_fault_free s (all_coords (Size state)) k Hretry Hff)
      as (Hmono & Hall & Honly).
    split_and!; [|done|].
    - intros c Hc. by apply Hall, Hcells.
    - intros name p Hp. destruct (Honly name p Hp) as [?|(c & Hc & ? & ?)];
        [by left|].
      right. exists c. split_and!; [by apply Hcells|done|done]. }
  assert (every_creation_fails s k (Z.to_nat (Size state * Size state)) →
            pods (run_all s k (all_coords (Size state))).1 = pods k ∧
            requests (run_all s k (all_coords (Size state))).1
            = requests k ++
                (c ← all_coords (Size state);
                 attempt_log (PodName c) (Z.to_nat (retryAttempts s) - 1)
                   ++ [ReqCreate (PodName c)]) ∧
            filter failed (run_all s k (all_coords (Size state))).2
            = (run_all s k (all_coords (Size state))).2) as Hgiveup.
  { intros Hfail.
    destruct (run_all_every_creation_fails s (all_coords (Size state)) k)
      as (? & _ & ? & ?); [done| |done].
    replace (length (all_coords (Size state)))
      with (Z.to_nat (Size state * Size state)) by lia. done. }
  set (outs := (run_all s k (all_coords (Size state))).2) in *.
  set (result := tally (mkSpawnResult (Size state * Size state) 0 0 []) outs).
  assert (FailedPods result = Z.of_nat (length (filter failed outs))) as Hfailed
    by (simpl; lia).
  assert (FailedPods result > 0 ↔ ∃ c e, (c, Some e) ∈ outs) as Hex.
  { rewrite Hfailed. split.
    - intros Hpos. destruct (filter failed outs) as [|[c o] l] eqn:Hfl;
        [simpl in Hpos; lia|].
      assert ((c, o) ∈ filter failed outs) as Hin by (rewrite Hfl; by left).
      apply list_elem_of_filter in Hin as [[e He] Hin]. simpl in He. subst o.
      by exists c, e.
    - intros (c & e & Hin).
      assert ((c, Some e) ∈ filter failed outs) as Hin'.
      { apply list_elem_of_filter. split; [apply failed_Some|done]. }
      destruct (filter failed outs); [by apply elem_of_nil in Hin'|].
      simpl. lia. }
  assert (Z.of_nat (length (FailedCoords result)) = FailedPods result) as Hfc.
  { simpl. rewrite length_fmap. lia. }
  assert (CreatedPods result + FailedPods result = TotalPods result
          ∧ 0 ≤ CreatedPods result ∧ 0 ≤ FailedPods result) as (Hsum & ? & ?).
  { simpl. lia. }
  assert (∀ k0 c, scheduled k0 = None → is_Some (pods k0 !! PodName c) →
            (createPodWithRetry s k0 c).2 = None) as Hexists.
  { intros k0 c Hf Hp. by rewrite createPodWithRetry_already_exists. }
  assert (∃ new, requests (run_all s k (all_coords (Size state))).1
                 = requests k ++ new ∧
            ∀ c, in_grid state (X c) (Y c) → ReqCreate (PodName c) ∈ new)
    as Hlog.
  { exists new. split; [done|]. intros c Hc. by apply Hnew, Hcells. }
  assert (fault_free k → FailedPods result = 0) as Hclean.
  { intros Hff. rewrite Hfailed.
    unfold outs. by rewrite run_all_fault_free. }
  assert (every_creation_fails s k (Z.to_nat (Size state * Size state)) →
            FailedPods result = TotalPods result ∧
            CreatedPods result = 0 ∧
            FailedCoords result = all_coords (Size state) ∧
            pods (run_all s k (all_coords (Size state))).1 = pods k ∧
            requests (run_all s k (all_coords (Size state))).1
            = requests k ++
                (c ← all_coords (Size state);
                 attempt_log (PodName c) (Z.to_nat (retryAttempts s) - 1)
                   ++ [ReqCreate (PodName c)])) as Hallfail.
  { intros Hfail. destruct (Hgiveup Hfail) as (Hp & Hr & Hall).
    assert (FailedPods result = TotalPods result) as Hft.
    { rewrite Hfailed, Hall. simpl. lia. }
    split_and!; [done|lia| |done|done].
    simpl. by rewrite Hall. }
  assert (∀ k0 c j,
            Z.of_nat j < retryAttempts s →
            retries k0 (length (requests k0)) j →
            ¬ create_fails k0 (length (requests k0) + 2 * j) →
            ∃ k', createPodWithRetry s k0 c = (k', None) ∧
              requests k'
                = requests k0 ++ attempt_log (PodName c) j
                    ++ [ReqCreate (PodName c)] ∧
              fault k' = fault k0 ∧
              (∀ name, name ≠ PodName c → pods k' !! name = pods k0 !! name) ∧
              (fault k0 (length (requests k0) + 2 * j) = None →
                 pods k' !! PodName c
                 = Some (default (buildCellPod s c) (pods k0 !! PodName c))) ∧
              (is_Some (fault k0 (length (requests k0) + 2 * j)) →
                 pods k' = pods k0)) as Hsuccess.
  { intros k0 c j. apply createPodWithRetry_success. }
  assert (∀ k0 c,
            is_Some (createPodWithRetry s k0 c).2 ↔
            ∃ j, retries k0 (length (requests k0)) j ∧
              create_fails k0 (length (requests k0) + 2 * j) ∧
              (Z.of_nat (S j) = retryAttempts s ∨
               (Z.of_nat (S j) < retryAttempts s ∧
                is_Some (fault k0 (length (requests k0) + 2 * j + 1)))))
    as Hiff.
  { intros k0 c. by apply createPodWithRetry_error_iff. }
  exists result.
  destruct (decide (FailedPods result > 0)) as [Hpos|Hzero].
  - exists (Some (Failed "failed to create pods")).
    split_and!; try done.
    + split; [|intros _; by eexists]. intros _. by apply Hex.
    + intros Hff. specialize (Hclean Hff). lia.
    + intros k0 c j e. apply createPodWithRetry_gives_up.
    + intros k0 c j e. apply createPodWithRetry_cancelled.
    + intros Hfail. split; [intros _; by eexists|by apply Hallfail].
  - exists None. split_and!; try done.
    + split; [by intros [? ?]|]. intros Hf. by apply Hex in Hf.
    + intros Hff. specialize (Hclean Hff). split_and!; [done|done|lia].
    + intros k0 c j e. apply createPodWithRetry_gives_up.
    + intros k0 c j e. apply createPodWithRetry_cancelled.
    + intros Hfail. split; [|by apply Hallfail].
      intros Hpos. destruct (Hallfail Hfail) as (Hft & _).
      assert (TotalPods result = Size state * Size state) as Htot by done.
      nia.
Qed.

End SpawnerClaims.
Section SpawnerWitness.
Import Game Api Spawner.

(** The spawner built from an empty configuration: every default applies. *)
Definition default_spawner : GridSpawner :=
  NewGridSpawner (mkGridSpawnerConfig "" "" 0 0 0).

Lemma C9_spawn_grid_witness :
  0 < batchSize default_spawner ∧ 0 < retryAttempts default_spawner ∧
  0 ≤ Size sample_state ∧
  Size sample_state * Size sample_state + batchSize default_spawner ≤ int_max ∧
  ∃ result err,
    SpawnGrid default_spawner empty_cluster sample_state
      = Some ((run_all default_spawner empty_cluster (all_coords (Size sample_state))).1, result, err) ∧
    Z.of_nat (length (all_coords (Size sample_state))) = Size sample_state * Size sample_state ∧
    (∀ c, c ∈ all_coords (Size sample_state) ↔ in_grid sample_state (X c) (Y c)) ∧
    (run_all default_spawner empty_cluster (all_coords (Size sample_state))).2.*1 = all_coords (Size sample_state) ∧
    result = tally (mkSpawnResult (Size sample_state * Size sample_state) 0 0 [])
               (run_all default_spawner empty_cluster (all_coords (Size sample_state))).2 ∧
    TotalPods result = Size sample_state * Size sample_state ∧
    CreatedPods result + FailedPods result = TotalPods result ∧
    0 ≤ CreatedPods result ∧ 0 ≤ FailedPods result ∧
    Z.of_nat (length (FailedCoords result)) = FailedPods result ∧
    (is_Some err ↔ FailedPods result > 0) ∧
    (is_Some err ↔
     ∃ c e, (c, Some e) ∈ (run_all default_spawner empty_cluster (all_coords (Size sample_state))).2) ∧
    (∃ new,
       requests (run_all default_spawner empty_cluster (all_coords (Size sample_state))).1 = requests empty_cluster ++ new ∧
       ∀ c, in_grid sample_state (X c) (Y c) → ReqCreate (PodName c) ∈ new) ∧
    (∀ k0 c, scheduled k0 = None → is_Some (pods k0 !! PodName c) →
       (createPodWithRetry default_spawner k0 c).2 = None) ∧
    (fault_free empty_cluster →
       err = None ∧ FailedPods result = 0 ∧
       CreatedPods result = TotalPods result) ∧
    (∀ k0 c j,
       Z.of_nat j < retryAttempts default_spawner →
       retries k0 (length (requests k0)) j →
       ¬ create_fails k0 (length (requests k0) + 2 * j) →
       ∃ k', createPodWithRetry default_spawner k0 c = (k', None) ∧
         requests k'
           = requests k0 ++ attempt_log (PodName c) j
               ++ [ReqCreate (PodName c)] ∧
         fault k' = fault k0 ∧
         (∀ name, name ≠ PodName c → pods k' !! name = pods k0 !! name) ∧
         (fault k0 (length (requests k0) + 2 * j) = None →
            pods k' !! PodName c
            = Some (default (buildCellPod default_spawner c) (pods k0 !! PodName c))) ∧
         (is_Some (fault k0 (length (requests k0) + 2 * j)) →
            pods k' = pods k0)) ∧
    (∀ k0 c j e,
       retryAttempts default_spawner = Z.of_nat (S j) →
       retries k0 (length (requests k0)) j →
       fault k0 (length (requests k0) + 2 * j) = Some e →
       IsAlreadyExists e = false →
       createPodWithRetry default_spawner k0 c
       = (mkCluster (pods k0)
            (requests k0 ++ attempt_log (PodName c) j
               ++ [ReqCreate (PodName c)])
            (fault k0),
          Some (Wrapped "after attempts" e))) ∧
    (∀ k0 c j e,
       Z.of_nat (S j) < retryAttempts default_spawner →
       retries k0 (length (requests k0)) j →
       create_fails k0 (length (requests k0) + 2 * j) →
       fault k0 (length (requests k0) + 2 * j + 1) = Some e →
       createPodWithRetry default_spawner k0 c
       = (mkCluster (pods k0)
            (requests k0 ++ attempt_log (PodName c) j
               ++ [ReqCreate (PodName c); ReqWait])
            (fault k0),
          Some e)) ∧
    (∀ k0 c,
       is_Some (createPodWithRetry default_spawner k0 c).2 ↔
       ∃ j, retries k0 (length (requests k0)) j ∧
         create_fails k0 (length (requests k0) + 2 * j) ∧
         (Z.of_nat (S j) = retryAttempts default_spawner ∨
          (Z.of_nat (S j) < retryAttempts default_spawner ∧
           is_Some (fault k0 (length (requests k0) + 2 * j + 1))))) ∧
    (fault_free empty_cluster →
       (∀ c, in_grid sample_state (X c) (Y c) →
          is_Some (pods (run_all default_spawner empty_cluster (all_coords (Size sample_state))).1
                     !! PodName c)) ∧
       (∀ name p, pods empty_cluster !! name = Some p →
          pods (run_all default_spawner empty_cluster (all_coords (Size sample_state))).1 !! name = Some p) ∧
       (∀ name p,
          pods (run_all default_spawner empty_cluster (all_coords (Size sample_state))).1 !! name = Some p →
          pods empty_cluster !! name = Some p ∨
          ∃ c, in_grid sample_state (X c) (Y c) ∧ name = PodName c ∧
               p = buildCellPod default_spawner c)) ∧
    (every_creation_fails default_spawner empty_cluster (Z.to_nat (Size sample_state * Size sample_state)) →
       (0 < Size sample_state → is_Some err) ∧
       FailedPods result = TotalPods result ∧
       CreatedPods result = 0 ∧
       FailedCoords result = all_coords (Size sample_state) ∧
       pods (run_all default_spawner empty_cluster (all_coords (Size sample_state))).1 = pods empty_cluster ∧
       requests (run_all default_spawner empty_cluster (all_coords (Size sample_state))).1
       = requests empty_cluster ++
           (c ← all_coords (Size sample_state);
            attempt_log (PodName c) (Z.to_nat (retryAttempts default_spawner) - 1)
              ++ [ReqCreate (PodName c)])).
Proof.
  assert (0 < batchSize default_spawner) as H1 by reflexivity.
  assert (0 < retryAttempts default_spawner) as H2 by reflexivity.
  assert (0 ≤ Size sample_state) as H3 by (simpl; lia).
  assert (Size sample_state * Size sample_state + batchSize default_spawner
          ≤ int_max) as H4 by (vm_compute; discriminate).
  split_and!; [exact H1|exact H2|exact H3|exact H4|].
  apply (C9_spawn_grid default_spawner empty_cluster sample_state H1 H2 H3 H4).
Defined.

(** A server that fails every creation and lets every wait run to its end,
    for a spawner with three attempts: of five requests in a row, the
    first, the third and the fifth fail. *)
Definition refusing_cluster : Cluster :=
  mkCluster ∅ []
    (λ n, if decide (Nat.even (n `mod` 5) = true) then Some ServerError
          else None).

(** On that server the spawn of a 2 by 2 grid tries every coordinate three
    times and reports the four of them failed. *)
Lemma SpawnGrid_on_a_refusing_server :
  every_creation_fails default_spawner refusing_cluster 4 ∧
  ∃ k' result,
    SpawnGrid default_spawner refusing_cluster sample_state
    = Some (k', result, Some (Failed "failed to create pods")) ∧
    TotalPods result = 4 ∧ CreatedPods result = 0 ∧ FailedPods result = 4 ∧
    FailedCoords result
    = [mkCoordinate 0 0; mkCoordinate 0 1; mkCoordinate 1 0; mkCoordinate 1 1] ∧
    pods k' = ∅ ∧
    take 5 (requests k')
    = [ReqCreate "pod-0-0"; ReqWait; ReqCreate "pod-0-0"; ReqWait;
       ReqCreate "pod-0-0"] ∧
    length (requests k') = 20%nat.
Proof.
  split.
  - intros b Hb. simpl in Hb.
    assert (b = 0 ∨ b = 1 ∨ b = 2 ∨ b = 3)%nat as Hcases by lia.
    split.
    + intros i Hi.
      assert (i = 0 ∨ i = 1)%nat as Hi'.
      { change (Z.to_nat (retryAttempts default_spawner) - 1)%nat
          with 2%nat in Hi. lia. }
      destruct Hcases as [-> | [-> | [-> | ->]]], Hi' as [-> | ->];
        (split; [by exists ServerError|done]).
    + destruct Hcases as [-> | [-> | [-> | ->]]]; by exists ServerError.
  - eexists _, _. split; [vm_compute; reflexivity|].
    split_and!; by vm_compute.
Qed.

End SpawnerWitness.

(** ** The mine-hit handler *)

Section MineHitFacts.
Import Game Api Store Controller.

(** The names [wipeGamePods] deletes. *)
Definition is_game_pod (name : string) : bool :=
  IsPodName name || IsHintPodName name.

(** The loop of [wipeGamePods]. *)
Definition wipe_loop (k : Cluster) (items : list (string * Pod)) : Cluster :=
  foldl (λ k (item : string * Pod),
      if IsPodName item.1 || IsHintPodName item.1
      then (Api.Delete k item.1).1 else k)
    k items.

Lemma Delete_fault k name : fault (Api.Delete k name).1 = fault k.
Proof.
  unfold Api.Delete. destruct (scheduled k); [done|].
  by destruct (pods k !! name).
Qed.

Lemma Delete_requests k name :
  requests (Api.Delete k name).1 = requests k ++ [ReqDelete name].
Proof.
  unfold Api.Delete. destruct (scheduled k); [done|].
  by destruct (pods k !! name).
Qed.

Lemma Delete_other k name name' :
  name' ≠ name → pods (Api.Delete k name).1 !! name' = pods k !! name'.
Proof.
  intros Hne. unfold Api.Delete. destruct (scheduled k); [done|].
  destruct (pods k !! name); simpl; [|done]. by rewrite lookup_delete_ne.
Qed.

Lemma Delete_unscheduled k name :
  scheduled k = None → pods (Api.Delete k name).1 = delete name (pods k).
Proof.
  intros Hs. unfold Api.Delete. rewrite Hs.
  destruct (pods k !! name) eqn:Hp; simpl; [done|].
  by rewrite delete_id.
Qed.

(** Every game pod of the list gets its deletion request, in order, whether
    or not earlier deletions failed. *)
Lemma wipe_loop_requests items k :
  requests (wipe_loop k items)
    = requests k ++ (ReqDelete <$> filter (λ n, is_game_pod n = true) items.*1) ∧
  fault (wipe_loop k items) = fault k.
Proof.
  revert k. induction items as [|[name p] items IH]; intros k.
  { simpl. by rewrite app_nil_r. }
  unfold wipe_loop. rewrite fmap_cons, filter_cons. simpl.
  fold (is_game_pod name). destruct (is_game_pod name) eqn:Hg.
  - rewrite decide_True by done.
    destruct (IH (Api.Delete k name).1) as [Hreq Hf].
    unfold wipe_loop in Hreq, Hf. rewrite Hreq, Hf.
    rewrite Delete_requests, Delete_fault. rewrite <- app_assoc. done.
  - rewrite decide_False by done. apply IH.
Qed.

(** Pods that are not game pods are left alone. *)
Lemma wipe_loop_other items k name :
  is_game_pod name = false → pods (wipe_loop k items) !! name = pods k !! name.
Proof.
  intros Hng. revert k. induction items as [|[name' p] items IH]; intros k.
  { done. }
  unfold wipe_loop. simpl. fold (is_game_pod name').
  destruct (is_game_pod name') eqn:Hg.
  - unfold wipe_loop in IH. rewrite IH.
    apply Delete_other. intros ->. congruence.
  - apply IH.
Qed.

(** The loop creates nothing. *)
Lemma wipe_loop_subset items k name p :
  pods (wipe_loop k items) !! name = Some p → pods k !! name = Some p.
Proof.
  revert k. induction items as [|[name' p'] items IH]; intros k; [done|].
  unfold wipe_loop. simpl. fold (is_game_pod name').
  destruct (is_game_pod name').
  - intros Hp. apply IH in Hp. unfold Api.Delete in Hp.
    destruct (scheduled k); [done|].
    destruct (pods k !! name'); simpl in Hp; [|done].
    apply lookup_delete_Some in Hp. tauto.
  - apply IH.
Qed.

(** Without faults, every game pod of the list is gone. *)
Lemma wipe_loop_fault_free items k name :
  fault_free k → is_game_pod name = true → name ∈ items.*1 →
  pods (wipe_loop k items) !! name = None.
Proof.
  intros Hff Hg. revert k Hff.
  induction items as [|[name' p'] items IH]; intros k Hff Hin.
  { by apply elem_of_nil in Hin. }
  rewrite fmap_cons in Hin. simpl in Hin.
  unfold wipe_loop. simpl. fold (is_game_pod name').
  destruct (decide (name = name')) as [<-|Hne].
  - rewrite Hg.
    destruct (pods (wipe_loop (Api.Delete k name).1 items) !! name) as [p|] eqn:Hp;
      [|done].
    apply wipe_loop_subset in Hp.
    rewrite Delete_unscheduled in Hp by apply Hff.
    by rewrite lookup_delete_eq in Hp.
  - apply elem_of_cons in Hin as [?|Hin]; [done|].
    destruct (is_game_pod name'); [|by apply IH].
    apply IH; [|done]. intros n. rewrite Delete_fault. apply Hff.
Qed.

Lemma wipeGamePods_unfold k :
  wipeGamePods k
  = match scheduled k with
    | Some e => (issue k ReqList, Some e)
    | None => (wipe_loop (issue k ReqList) (map_to_list (pods k)), None)
    end.
Proof. unfold wipeGamePods, List. by destruct (scheduled k). Qed.

Lemma elem_of_map_to_list_names (m : gmap string Pod) name :
  name ∈ (map_to_list m).*1 ↔ is_Some (m !! name).
Proof.
  rewrite list_elem_of_fmap. split.
  - intros ([n p] & -> & Hin). apply elem_of_map_to_list in Hin. by eexists.
  - intros [p Hp]. exists (name, p). split; [done|].
    by apply elem_of_map_to_list.
Qed.

End MineHitFacts.

Section MineHitClaims.
Import Game Api Store Controller.

(** The pod that marks the defeat. *)
Definition explosion_pod : Pod := mkPod "explosion" None false.

(** C3, amended: when the cell of a deletion holds a mine and is not
    revealed, the handler marks it revealed, sets the status to Lost and the
    end time to the clock, and saves that state.  If the save fails it stops
    there with the error.  Otherwise it lists the pods (an error of the
    listing ends the call with nothing deleted), requests the deletion of
    every pod whose name is that of a cell or of a hint, in turn and
    whatever the outcome of the earlier deletions, touches no other pod,
    and then creates the marker pod, which is named "explosion".  When no
    request fails, no cell or hint pod remains and there is one
    "explosion" pod (the creation fails with "already exists" when one was
    there already). *)
Theorem C3_mine_hit {S} `{!Store.Store S} (store : S) (k : Cluster)
    (state : GameState) (c : Coordinate) (now : Time) :
  wf state →
  IsMine state (X c) (Y c) = Some true →
  IsRevealed state (X c) (Y c) = Some false →
  ∃ revealed,
    Reveal state (X c) (Y c) = Some (revealed, true) ∧
    IsRevealed (SetLost revealed now) (X c) (Y c) = Some true ∧
    Status (SetLost revealed now) = StatusLost ∧
    EndedAt (SetLost revealed now) = now ∧
    MineMap (SetLost revealed now) = MineMap state ∧
    (∀ store' e,
       Save store (SetLost revealed now) = Some (store', Some e) →
       HandleMineHit (store, k) state c now = Some ((store', k), Some e)) ∧
    (∀ store',
       Save store (SetLost revealed now) = Some (store', None) →
       ∃ k' err,
         HandleMineHit (store, k) state c now = Some ((store', k'), err) ∧
         (∀ e, scheduled k = Some e → err = Some e ∧ pods k' = pods k) ∧
         (scheduled k = None →
            requests k'
              = requests k ++ ReqList ::
                  (ReqDelete <$> filter (λ n, is_game_pod n = true)
                                   (map_to_list (pods k)).*1)
                  ++ [ReqCreate "explosion"] ∧
            (∀ name, is_game_pod name = false → name ≠ "explosion" →
               pods k' !! name = pods k !! name) ∧
            (∀ name p, pods k' !! name = Some p →
               name = "explosion" ∨ pods k !! name = Some p) ∧
            (fault_free k →
               (∀ name, is_game_pod name = true → pods k' !! name = None) ∧
               (pods k !! "explosion" = None →
                  err = None ∧ pods k' !! "explosion" = Some explosion_pod) ∧
               (is_Some (pods k !! "explosion") →
                  err = Some AlreadyExists)))).
Proof.
  intros Hwf Hmine Hrev.
  destruct (Reveal_spec state (X c) (Y c) Hwf)
    as (r & ok & Heq & Hwf' & Hsz & _ & Hmm & _ & _ & Hok & _ & Hyes & _).
  apply IsMine_true_in_grid, IsValidCoordinate_true in Hmine.
  rewrite Hmine, Hrev in Hok. simpl in Hok. subst ok.
  destruct (Hyes eq_refl) as [Hrev' _].
  exists r. split_and!; try done.
  - intros store' e HS. unfold HandleMineHit. rewrite Heq. simpl.
    rewrite HS. done.
  - intros store' HS. unfold HandleMineHit. rewrite Heq. simpl.
    rewrite HS. simpl. rewrite wipeGamePods_unfold.
    destruct (scheduled k) as [e|] eqn:Hsched.
    { eexists _, _. split; [done|]. split; [|done].
      intros e' [= <-]. done. }
    set (kw := wipe_loop (issue k ReqList) (map_to_list (pods k))).
    destruct (wipe_loop_requests (map_to_list (pods k)) (issue k ReqList))
      as [Hreq Hfault]. fold kw in Hreq, Hfault.
    assert (∀ name, is_game_pod name = false →
              pods kw !! name = pods k !! name) as Hother.
    { intros name Hn. unfold kw. by rewrite wipe_loop_other. }
    assert (∀ name p, pods kw !! name = Some p → pods k !! name = Some p)
      as Hsub.
    { intros name p Hp. by apply wipe_loop_subset in Hp. }
    assert (∃ k' err, spawnExplosionPod kw c = (k', err) ∧
              requests k' = requests kw ++ [ReqCreate "explosion"] ∧
              (∀ name, name ≠ "explosion" → pods k' !! name = pods kw !! name) ∧
              (∀ p, pods k' !! "explosion" = Some p →
                    p = explosion_pod ∨ pods kw !! "explosion" = Some p) ∧
              (scheduled kw = None →
                 (pods kw !! "explosion" = None →
                    err = None ∧ pods k' !! "explosion" = Some explosion_pod) ∧
                 (is_Some (pods kw !! "explosion") → err = Some AlreadyExists)))
      as (k' & err & Hspawn & Hreq' & Hother' & Hmarker & Hok).
    { unfold spawnExplosionPod, Create.
      destruct (scheduled kw) as [e|].
      { eexists _, _. split; [done|]. simpl. split_and!; try done.
        intros p' Hp'. by right. }
      destruct (pods kw !! "explosion") as [p|] eqn:Hp.
      - eexists _, _. split; [done|]. simpl. split_and!; try done.
        intros p0 Hp0. right. congruence.
      - eexists _, _. split; [done|]. simpl. split_and!; try done.
        + intros name Hne. apply lookup_insert_ne. congruence.
        + intros p. rewrite lookup_insert_eq. intros [= <-]. by left.
        + intros _. split.
          * intros _. by rewrite lookup_insert_eq.
          * intros Hs. by apply is_Some_None in Hs. }
    rewrite Hspawn. exists k', err. split; [by destruct err|].
    split; [done|]. intros _. split_and!.
    + rewrite Hreq', Hreq. simpl. by rewrite <- !app_assoc.
    + intros name Hn Hne. by rewrite Hother', Hother.
    + intros name p Hp. destruct (decide (name = "explosion")) as [->|Hne];
        [by left|].
      right. rewrite Hother' in Hp by done. by apply Hsub.
    + intros Hff.
      assert (scheduled kw = None) as Hskw.
      { unfold scheduled. rewrite Hfault. apply Hff. }
      split_and!.
      * intros name Hg.
        assert (name ≠ "explosion") as Hne by (intros ->; done).
        rewrite Hother' by done.
        destruct (pods k !! name) as [p|] eqn:Hp.
        -- apply wipe_loop_fault_free; [done|done|].
           apply elem_of_map_to_list_names. by eexists.
        -- destruct (pods kw !! name) as [p|] eqn:Hp'; [|done].
           apply Hsub in Hp'. congruence.
      * intros Hnone. apply (Hok Hskw). by rewrite Hother.
      * intros Hsome. apply (Hok Hskw). by rewrite Hother.
Qed.

Definition cell_pod : Pod := mkPod "cell" None false.

(** Two cell pods, and a server that fails the second request it gets. *)
Definition flaky_cluster : Cluster :=
  mkCluster (list_to_map [("pod-0-0", cell_pod); ("pod-0-1", cell_pod)]) []
    (λ n, if decide (n = 1%nat) then Some ServerError else None).

(** The same two pods on a server that does not fail. *)
Definition steady_cluster : Cluster :=
  mkCluster (list_to_map [("pod-0-0", cell_pod); ("pod-0-1", cell_pod)]) []
    (λ _, None).

(** C3, the claim as stated fails: with a server that fails one deletion,
    the handler returns no error, yet the cell pod "pod-0-1" is still there;
    and the marker it creates is named "explosion", there is no pod named
    "defeat". *)
Lemma C3_failed_deletion_leaves_a_pod :
  ∃ store' k',
    HandleMineHit (mkMemoryStore (Some sample_state), flaky_cluster)
      sample_state (mkCoordinate 0 0) 9
    = Some ((store', k'), None) ∧
    is_game_pod "pod-0-1" = true ∧
    pods k' !! "pod-0-1" = Some cell_pod ∧
    requests k'
    = [ReqList; ReqDelete "pod-0-1"; ReqDelete "pod-0-0";
       ReqCreate "explosion"] ∧
    pods k' !! "defeat" = None ∧
    pods k' !! "explosion" = Some explosion_pod.
Proof.
  eexists _, _. split; [vm_compute; reflexivity|].
  split_and!; by vm_compute.
Qed.

Lemma C3_mine_hit_witness :
  wf sample_state ∧
  IsMine sample_state 0 0 = Some true ∧
  IsRevealed sample_state 0 0 = Some false ∧
  ∃ revealed,
    Reveal sample_state 0 0 = Some (revealed, true) ∧
    IsRevealed (SetLost revealed 9) 0 0 = Some true ∧
    Status (SetLost revealed 9) = StatusLost ∧
    EndedAt (SetLost revealed 9) = 9 ∧
    MineMap (SetLost revealed 9) = MineMap sample_state ∧
    (∀ store' e,
       Save (mkMemoryStore (Some sample_state)) (SetLost revealed 9)
       = Some (store', Some e) →
       HandleMineHit (mkMemoryStore (Some sample_state), steady_cluster)
         sample_state (mkCoordinate 0 0) 9
       = Some ((store', steady_cluster), Some e)) ∧
    (∀ store',
       Save (mkMemoryStore (Some sample_state)) (SetLost revealed 9)
       = Some (store', None) →
       ∃ k' err,
         HandleMineHit (mkMemoryStore (Some sample_state), steady_cluster)
           sample_state (mkCoordinate 0 0) 9
         = Some ((store', k'), err) ∧
         (∀ e, scheduled steady_cluster = Some e →
               err = Some e ∧ pods k' = pods steady_cluster) ∧
         (scheduled steady_cluster = None →
            requests k'
              = requests steady_cluster ++ ReqList ::
                  (ReqDelete <$> filter (λ n, is_game_pod n = true)
                                   (map_to_list (pods steady_cluster)).*1)
                  ++ [ReqCreate "explosion"] ∧
            (∀ name, is_game_pod name = false → name ≠ "explosion" →
               pods k' !! name = pods steady_cluster !! name) ∧
            (∀ name p, pods k' !! name = Some p →
               name = "explosion" ∨ pods steady_cluster !! name = Some p) ∧
            (fault_free steady_cluster →
               (∀ name, is_game_pod name = true → pods k' !! name = None) ∧
               (pods steady_cluster !! "explosion" = None →
                  err = None ∧ pods k' !! "explosion" = Some explosion_pod) ∧
               (is_Some (pods steady_cluster !! "explosion") →
                  err = Some AlreadyExists)))).
Proof.
  assert (wf sample_state) as Hwf.
  { split_and!; try done.
    - split; [reflexivity|]. by repeat constructor.
    - split; [reflexivity|]. by repeat constructor. }
  split_and!; [exact Hwf|reflexivity|reflexivity|].
  apply (C3_mine_hit (mkMemoryStore (Some sample_state)) steady_cluster
           sample_state (mkCoordinate 0 0) 9 Hwf eq_refl eq_refl).
Defined.

End MineHitClaims.

(** * Further properties of the code *)

Section SampleStates.
Import Game.

Lemma sample_state_wf : wf sample_state.
Proof.
  split_and!; try done.
  - split; [reflexivity|]. by repeat constructor.
  - split; [reflexivity|]. by repeat constructor.
Qed.

Lemma corner_mine_state_wf : wf corner_mine_state.
Proof.
  split_and!; try done.
  - split; [reflexivity|]. by repeat constructor.
  - split; [reflexivity|]. by repeat constructor.
Qed.

Lemma small_int_in_range : int_min < 1 < int_max.
Proof. unfold int_min, int_max. lia. Qed.

End SampleStates.

(** ** Neighbours and adjacency (game.go) *)

Section Neighbourhood.
Import Game.

(** The eight coordinates around (x, y), in the order of the two loops. *)
Definition around (x y : Z) : list Coordinate :=
  [mkCoordinate (wrap (x + -1)) (wrap (y + -1));
   mkCoordinate (wrap (x + -1)) (wrap (y + 0));
   mkCoordinate (wrap (x + -1)) (wrap (y + 1));
   mkCoordinate (wrap (x + 0)) (wrap (y + -1));
   mkCoordinate (wrap (x + 0)) (wrap (y + 1));
   mkCoordinate (wrap (x + 1)) (wrap (y + -1));
   mkCoordinate (wrap (x + 1)) (wrap (y + 0));
   mkCoordinate (wrap (x + 1)) (wrap (y + 1))].

Definition valid_in (g : GameState) (c : Coordinate) : Prop :=
  IsValidCoordinate g (X c) (Y c) = true.

Definition mined_in (g : GameState) (c : Coordinate) : Prop :=
  IsMine g (X c) (Y c) = Some true.

Global Instance valid_in_dec g c : Decision (valid_in g c).
Proof. unfold valid_in. apply _. Defined.

Global Instance mined_in_dec g c : Decision (mined_in g c).
Proof. unfold mined_in. apply _. Defined.

Lemma foldl_keep_valid g (l acc : list Coordinate) :
  foldl (λ ns c, if IsValidCoordinate g (X c) (Y c) then ns ++ [c] else ns)
    acc l
  = acc ++ filter (valid_in g) l.
Proof.
  revert acc. induction l as [|c l IH]; intros acc; simpl.
  { by rewrite app_nil_r. }
  rewrite IH, filter_cons.
  destruct (decide (valid_in g c)) as [Hv|Hv]; unfold valid_in in Hv.
  - rewrite Hv. by rewrite <- app_assoc.
  - apply not_true_is_false in Hv. by rewrite Hv.
Qed.

Lemma GetNeighbors_around g x y :
  GetNeighbors g x y = filter (valid_in g) (around x y).
Proof.
  change (GetNeighbors g x y)
    with (foldl (λ ns c, if IsValidCoordinate g (X c) (Y c)
                         then ns ++ [c] else ns) [] (around x y)).
  by rewrite foldl_keep_valid.
Qed.

(** The counting loop of [AdjacentMines] over a list of coordinates. *)
Definition count_step (g : GameState) (count : Z) (c : Coordinate) : option Z :=
  m ← IsMine g (X c) (Y c);
  Some (if (m : bool) then wrap (count + 1) else count).

Lemma foldlM_app {A B} (f : B → A → option B) (l1 l2 : list A) (b : B) :
  foldlM f b (l1 ++ l2) = foldlM f b l1 ≫= λ b', foldlM f b' l2.
Proof.
  revert b. induction l1 as [|a l1 IH]; intros b; simpl; [done|].
  destruct (f b a) as [b'|]; simpl; [apply IH|done].
Qed.

Lemma AdjacentMines_around g x y :
  AdjacentMines g x y = foldlM (count_step g) 0 (around x y).
Proof.
  change (around x y)
    with (take 3 (around x y) ++ take 2 (drop 3 (around x y))
            ++ drop 5 (around x y)).
  rewrite !foldlM_app.
  change (AdjacentMines g x y)
    with (foldlM (count_step g) 0 (take 3 (around x y)) ≫= λ b,
          foldlM (count_step g) b (take 2 (drop 3 (around x y))) ≫= λ b',
          foldlM (count_step g) b' (drop 5 (around x y)) ≫= Some).
  destruct (foldlM (count_step g) 0 (take 3 (around x y))) as [b|]; simpl;
    [|done].
  destruct (count_step g b _) as [b1|]; simpl; [|done].
  destruct (count_step g b1 _) as [b2|]; simpl; [|done].
  destruct (count_step g b2 _) as [b3|]; simpl; [|done].
  destruct (count_step g b3 _) as [b4|]; simpl; [|done].
  by destruct (count_step g b4 _).
Qed.

Lemma count_step_fold g l n :
  wf g → 0 ≤ n → n + Z.of_nat (length l) ≤ int_max →
  foldlM (count_step g) n l
  = Some (n + Z.of_nat (length (filter (mined_in g) l))).
Proof.
  intros Hwf. revert n. induction l as [|c l IH]; intros n Hn Hmax;
    cbn [foldlM].
  { rewrite filter_nil. simpl. f_equal. lia. }
  cbn [length] in Hmax.
  destruct (IsMine_is_Some g (X c) (Y c) Hwf) as [m Hm].
  assert (count_step g n c = Some (if m then wrap (n + 1) else n)) as ->.
  { unfold count_step. by rewrite Hm. }
  cbn [mbind option_bind]. rewrite filter_cons.
  destruct (decide (mined_in g c)) as [Hc|Hc]; unfold mined_in in Hc;
    rewrite Hm in Hc.
  - injection Hc as ->.
    rewrite wrap_in_int by (unfold in_int, int_min, int_max in *; lia).
    rewrite IH by lia. f_equal. simpl. lia.
  - destruct m; [done|]. by rewrite IH by lia.
Qed.

Lemma filter_mined_valid g (l : list Coordinate) :
  filter (mined_in g) (filter (valid_in g) l) = filter (mined_in g) l.
Proof.
  induction l as [|c l IH]; [done|].
  rewrite !filter_cons. destruct (decide (valid_in g c)) as [Hv|Hv].
  - rewrite filter_cons. by rewrite IH.
  - rewrite IH. rewrite decide_False; [done|].
    intros Hm. apply Hv. apply IsValidCoordinate_true.
    by apply IsMine_true_in_grid.
Qed.

(** X1: on a well-formed state the adjacency count of a coordinate is the
    number of its neighbours, as [GetNeighbors] lists them, that hold a mine;
    there are at most eight neighbours. *)
Theorem AdjacentMines_counts_mined_neighbours (g : GameState) (x y : Z) :
  wf g →
  AdjacentMines g x y
  = Some (Z.of_nat (length (filter (mined_in g) (GetNeighbors g x y)))) ∧
  (length (GetNeighbors g x y) ≤ 8)%nat.
Proof.
  intros Hwf. split.
  - rewrite AdjacentMines_around, GetNeighbors_around, filter_mined_valid.
    rewrite count_step_fold; [done|done|lia|]. simpl. unfold int_max. lia.
  - rewrite GetNeighbors_around.
    etrans; [apply length_filter|]. done.
Qed.

Lemma AdjacentMines_counts_mined_neighbours_witness :
  wf corner_mine_state ∧
  AdjacentMines corner_mine_state 1 1
  = Some (Z.of_nat (length (filter (mined_in corner_mine_state)
                              (GetNeighbors corner_mine_state 1 1)))) ∧
  (length (GetNeighbors corner_mine_state 1 1) ≤ 8)%nat.
Proof.
  split; [exact corner_mine_state_wf|].
  apply (AdjacentMines_counts_mined_neighbours corner_mine_state 1 1
           corner_mine_state_wf).
Defined.


Lemma around_in_range x y :
  int_min < x < int_max → int_min < y < int_max →
  around x y
  = [mkCoordinate (x + -1) (y + -1); mkCoordinate (x + -1) (y + 0);
     mkCoordinate (x + -1) (y + 1); mkCoordinate (x + 0) (y + -1);
     mkCoordinate (x + 0) (y + 1); mkCoordinate (x + 1) (y + -1);
     mkCoordinate (x + 1) (y + 0); mkCoordinate (x + 1) (y + 1)].
Proof.
  intros Hx Hy. unfold around.
  rewrite !wrap_in_int by (unfold in_int; lia). done.
Qed.

Lemma elem_of_around x y c :
  int_min < x < int_max → int_min < y < int_max →
  c ∈ around x y ↔
  c ≠ mkCoordinate x y ∧ x - 1 ≤ X c ≤ x + 1 ∧ y - 1 ≤ Y c ≤ y + 1.
Proof.
  intros Hx Hy. rewrite around_in_range by done.
  rewrite !elem_of_cons, elem_of_nil. destruct c as [cx cy]. simpl. split.
  - intros H. repeat (destruct H as [H|H]); try done;
      injection H as -> ->; (split; [intros [= ? ?]; lia|lia]).
  - intros (Hne & Hcx & Hcy).
    assert (cx = x + -1 ∨ cx = x + 0 ∨ cx = x + 1) as Hx' by lia.
    assert (cy = y + -1 ∨ cy = y + 0 ∨ cy = y + 1) as Hy' by lia.
    destruct Hx' as [-> | [-> | ->]], Hy' as [-> | [-> | ->]];
      try (repeat (first [left; reflexivity | right])).
    exfalso. apply Hne. f_equal; lia.
Qed.

Lemma NoDup_around x y :
  int_min < x < int_max → int_min < y < int_max → NoDup (around x y).
Proof.
  intros Hx Hy. rewrite around_in_range by done.
  repeat (apply NoDup_cons_2;
    [rewrite ?elem_of_cons, elem_of_nil;
     intros H; repeat (destruct H as [H|H]); try done;
     injection H; intros; lia|]).
  apply NoDup_nil_2.
Qed.

(** X2: the neighbours of a coordinate are the cells of the grid at distance
    one from it, each listed once and the coordinate itself never; so being
    a neighbour is symmetric between two cells of the grid. *)
Theorem GetNeighbors_are_the_adjacent_cells (g : GameState) (x y : Z) :
  int_min < x < int_max → int_min < y < int_max →
  NoDup (GetNeighbors g x y) ∧
  (∀ c, c ∈ GetNeighbors g x y ↔
     in_grid g (X c) (Y c) ∧ c ≠ mkCoordinate x y ∧
     x - 1 ≤ X c ≤ x + 1 ∧ y - 1 ≤ Y c ≤ y + 1) ∧
  (∀ x' y', int_min < x' < int_max → int_min < y' < int_max →
     in_grid g x y → mkCoordinate x' y' ∈ GetNeighbors g x y →
     mkCoordinate x y ∈ GetNeighbors g x' y').
Proof.
  intros Hx Hy.
  assert (∀ x y c, int_min < x < int_max → int_min < y < int_max →
            c ∈ GetNeighbors g x y ↔
            in_grid g (X c) (Y c) ∧ c ≠ mkCoordinate x y ∧
            x - 1 ≤ X c ≤ x + 1 ∧ y - 1 ≤ Y c ≤ y + 1) as Hspec.
  { intros x0 y0 c Hx0 Hy0. rewrite GetNeighbors_around, list_elem_of_filter.
    unfold valid_in. rewrite IsValidCoordinate_true.
    by rewrite elem_of_around. }
  split_and!.
  - rewrite GetNeighbors_around. apply NoDup_filter. by apply NoDup_around.
  - intros c. by apply Hspec.
  - intros x' y' Hx' Hy' Hin Hn. apply Hspec in Hn; [|done..].
    apply Hspec; [done..|]. simpl in *.
    destruct Hn as (_ & Hne & ? & ?). split_and!; [done| |lia..].
    intros [= -> ->]. done.
Qed.

Lemma GetNeighbors_are_the_adjacent_cells_witness :
  int_min < 1 < int_max ∧ int_min < 1 < int_max ∧
  NoDup (GetNeighbors corner_mine_state 1 1) ∧
  (∀ c, c ∈ GetNeighbors corner_mine_state 1 1 ↔
     in_grid corner_mine_state (X c) (Y c) ∧ c ≠ mkCoordinate 1 1 ∧
     1 - 1 ≤ X c ≤ 1 + 1 ∧ 1 - 1 ≤ Y c ≤ 1 + 1) ∧
  (∀ x' y', int_min < x' < int_max → int_min < y' < int_max →
     in_grid corner_mine_state 1 1 →
     mkCoordinate x' y' ∈ GetNeighbors corner_mine_state 1 1 →
     mkCoordinate 1 1 ∈ GetNeighbors corner_mine_state x' y').
Proof.
  split; [exact small_int_in_range|]. split; [exact small_int_in_range|].
  apply (GetNeighbors_are_the_adjacent_cells corner_mine_state 1 1
           small_int_in_range small_int_in_range).
Defined.

End Neighbourhood.

(** ** Victory (game.go) *)

Section VictoryFacts.
Import Game Spawner.

(** A cell that holds no mine and is not revealed. *)
Definition safe_hidden (g : GameState) (c : Coordinate) : Prop :=
  IsMine g (X c) (Y c) = Some false ∧ IsRevealed g (X c) (Y c) = Some false.

Global Instance safe_hidden_dec g c : Decision (safe_hidden g c).
Proof. unfold safe_hidden. apply _. Defined.

Lemma in_grid_accessors g x y :
  in_grid g x y →
  IsMine g x y = index2 (MineMap g) x y ∧
  IsRevealed g x y = index2 (Revealed g) x y.
Proof.
  intros Hin%IsValidCoordinate_true. unfold IsMine, IsRevealed.
  by rewrite Hin.
Qed.

(** The body of the inner loop of [UnrevealedSafeCells]. *)
Definition safe_step (g : GameState) (x : Z) (count y : Z) : option Z :=
  m ← index2 (MineMap g) x y;
  if (m : bool) then Some count
  else
    r ← index2 (Revealed g) x y;
    Some (if (r : bool) then count else wrap (count + 1)).

(** The inner loop of [UnrevealedSafeCells], on the row [x]. *)
Lemma count_safe_row g x (ys : list Z) n :
  wf g → 0 ≤ x < Size g → Forall (λ y, 0 ≤ y < Size g) ys →
  0 ≤ n → n + Z.of_nat (length ys) ≤ int_max →
  foldlM (safe_step g x) n ys
  = Some (n + Z.of_nat (length (filter (safe_hidden g)
                                  (mkCoordinate x <$> ys)))).
Proof.
  intros Hwf Hx Hys. revert n.
  induction Hys as [|y ys Hy Hys IH]; intros n Hn Hmax; cbn [foldlM].
  { simpl. f_equal. lia. }
  cbn [length] in Hmax.
  destruct (in_grid_accessors g x y) as [Hm Hr]; [done|].
  destruct (IsMine_is_Some g x y Hwf) as [m Hm'].
  destruct (IsRevealed_is_Some g x y Hwf) as [r Hr'].
  assert (safe_step g x n y
          = Some (if m then n else if r then n else wrap (n + 1))) as ->.
  { unfold safe_step. rewrite <- Hm, <- Hr, Hm'. simpl.
    destruct m; [done|]. by rewrite Hr'. }
  cbn [mbind option_bind].
  rewrite fmap_cons, filter_cons.
  destruct (decide (safe_hidden g (mkCoordinate x y))) as [[Hc1 Hc2]|Hc];
    cbn [X Y] in *.
  - rewrite Hm' in Hc1. injection Hc1 as ->.
    rewrite Hr' in Hc2. injection Hc2 as ->.
    rewrite wrap_in_int by (unfold in_int, int_min, int_max in *; lia).
    rewrite IH by lia. f_equal. cbn [length]. lia.
  - assert ((if m then n else if r then n else wrap (n + 1)) = n) as ->.
    { destruct m; [done|]. destruct r; [done|].
      exfalso. apply Hc. by split. }
    by rewrite IH by lia.
Qed.

Lemma count_safe_rows g (xs : list Z) n :
  wf g → Forall (λ x, 0 ≤ x < Size g) xs →
  0 ≤ n → n + Z.of_nat (length xs) * Size g ≤ int_max →
  foldlM (λ count x, foldlM (safe_step g x) count (seqZ 0 (Size g))) n xs
  = Some (n + Z.of_nat (length (filter (safe_hidden g)
                                  (x ← xs; mkCoordinate x <$> seqZ 0 (Size g))))).
Proof.
  intros Hwf Hxs. revert n.
  induction Hxs as [|x xs Hx Hxs IH]; intros n Hn Hmax; cbn [foldlM].
  { simpl. f_equal. lia. }
  cbn [length] in Hmax.
  assert (0 ≤ Size g) as Hsize by lia.
  rewrite (count_safe_row g x (seqZ 0 (Size g)) n); [|done|done| |done|].
  2:{ apply Forall_forall. intros y Hy%elem_of_seqZ. lia. }
  2:{ rewrite length_seqZ. nia. }
  cbn [mbind option_bind].
  pose proof (length_filter (safe_hidden g)
                (mkCoordinate x <$> seqZ 0 (Size g))) as Hle.
  rewrite length_fmap, length_seqZ in Hle.
  rewrite IH by nia.
  rewrite bind_cons, filter_app, length_app. f_equal. lia.
Qed.

(** The count that [UnrevealedSafeCells] returns. *)
Lemma UnrevealedSafeCells_count g :
  wf g → 0 ≤ Size g →
  UnrevealedSafeCells g
  = Some (Z.of_nat (length (filter (safe_hidden g) (all_coords (Size g))))).
Proof.
  intros Hwf Hsize.
  change (UnrevealedSafeCells g)
    with (foldlM (λ count x, foldlM (safe_step g x) count (seqZ 0 (Size g)))
            0 (seqZ 0 (Size g))).
  rewrite (count_safe_rows g (seqZ 0 (Size g)) 0); [|done| |done|].
  - by rewrite all_coords_bind.
  - apply Forall_forall. intros y Hy%elem_of_seqZ. lia.
  - destruct Hwf as (_ & _ & Hfit). rewrite length_seqZ.
    replace (Z.of_nat (Z.to_nat (Size g))) with (Size g) by lia. lia.
Qed.

Lemma wf_Size_nonneg g : wf g → 0 ≤ Size g.
Proof. intros ([Hlen _] & _). lia. Qed.

(** X3: on a well-formed state [UnrevealedSafeCells] returns a count between
    zero and the number of cells, [CheckVictory] says whether it is zero, and
    [CheckVictory] is true exactly when every cell of the grid that holds no
    mine is revealed. *)
Theorem CheckVictory_iff_all_safe_cells_revealed (g : GameState) :
  wf g →
  (∃ n, UnrevealedSafeCells g = Some n ∧ 0 ≤ n ≤ Size g * Size g ∧
        CheckVictory g = Some (bool_decide (n = 0))) ∧
  (CheckVictory g = Some true ↔
   ∀ x y, in_grid g x y → IsMine g x y = Some false →
          IsRevealed g x y = Some true).
Proof.
  intros Hwf. pose proof (wf_Size_nonneg g Hwf) as Hsize.
  pose proof (UnrevealedSafeCells_count g Hwf Hsize) as Hcount.
  pose proof (length_filter (safe_hidden g) (all_coords (Size g))) as Hle.
  pose proof (all_coords_length (Size g) Hsize) as Hlen.
  split.
  - eexists. split; [done|]. split; [lia|].
    unfold CheckVictory. by rewrite Hcount.
  - unfold CheckVictory. rewrite Hcount. cbn [mbind option_bind].
    split.
    + intros [= Hz%bool_decide_eq_true] x y Hin Hmine.
      assert (filter (safe_hidden g) (all_coords (Size g)) = []) as Hnil.
      { destruct (filter _ _); [done|]. simpl in Hz. lia. }
      destruct (IsRevealed_is_Some g x y Hwf) as [[] Hr]; [done|].
      assert (mkCoordinate x y ∈ filter (safe_hidden g) (all_coords (Size g)))
        as Hc; [|rewrite Hnil in Hc; by apply elem_of_nil in Hc].
      apply list_elem_of_filter. split; [by split|].
      by apply elem_of_all_coords.
    + intros Hall. f_equal. apply bool_decide_eq_true.
      destruct (filter (safe_hidden g) (all_coords (Size g))) as [|c l] eqn:Hf;
        [done|].
      assert (c ∈ filter (safe_hidden g) (all_coords (Size g))) as Hc
        by (rewrite Hf; by left).
      apply list_elem_of_filter in Hc as [[Hm Hr] Hin].
      apply elem_of_all_coords in Hin.
      rewrite (Hall (X c) (Y c)) in Hr; done.
Qed.

Lemma CheckVictory_iff_all_safe_cells_revealed_witness :
  wf corner_mine_state ∧
  (∃ n, UnrevealedSafeCells corner_mine_state = Some n ∧
        0 ≤ n ≤ Size corner_mine_state * Size corner_mine_state ∧
        CheckVictory corner_mine_state = Some (bool_decide (n = 0))) ∧
  (CheckVictory corner_mine_state = Some true ↔
   ∀ x y, in_grid corner_mine_state x y →
          IsMine corner_mine_state x y = Some false →
          IsRevealed corner_mine_state x y = Some true).
Proof.
  split; [exact corner_mine_state_wf|].
  apply (CheckVictory_iff_all_safe_cells_revealed corner_mine_state
           corner_mine_state_wf).
Defined.


Lemma NoDup_all_coords size : NoDup (all_coords size).
Proof.
  rewrite all_coords_bind. apply NoDup_bind.
  - intros x1 x2 c _ _ (y1 & -> & _)%list_elem_of_fmap
      (y2 & [= -> _] & _)%list_elem_of_fmap. done.
  - intros x _. apply NoDup_fmap_2; [|apply NoDup_seqZ].
    intros y1 y2 [= ->]. done.
  - apply NoDup_seqZ.
Qed.

Lemma filter_ext_in {A} (P P' : A → Prop)
    `{!∀ a, Decision (P a)} `{!∀ a, Decision (P' a)} (l : list A) :
  (∀ a, a ∈ l → P a ↔ P' a) → filter P l = filter P' l.
Proof.
  induction l as [|a l IH]; intros Hiff; [done|].
  rewrite !filter_cons.
  rewrite IH by (intros a' Ha'; apply Hiff; by right).
  assert (P a ↔ P' a) as Ha by (apply Hiff; by left).
  destruct (decide (P a)), (decide (P' a)); tauto.
Qed.

(** Taking one element out of the elements that a filter keeps. *)
Lemma length_filter_one_less {A} (P P' : A → Prop)
    `{!∀ a, Decision (P a)} `{!∀ a, Decision (P' a)} (l : list A) (a0 : A) :
  NoDup l → a0 ∈ l → P a0 → (∀ a, P' a ↔ P a ∧ a ≠ a0) →
  length (filter P l) = S (length (filter P' l)).
Proof.
  intros Hnd Hin Ha0 Hiff.
  induction Hnd as [|a l Hnotin Hnd IH]; [by apply elem_of_nil in Hin|].
  rewrite !filter_cons. apply elem_of_cons in Hin as [<-|Hin].
  - rewrite decide_True by done.
    rewrite decide_False by (rewrite Hiff; tauto).
    cbn [length]. do 2 f_equal. apply filter_ext_in.
    intros a Ha. rewrite Hiff. split; [|tauto].
    intros HP. split; [done|]. intros ->. done.
  - assert (a ≠ a0) as Hne by (intros ->; done).
    specialize (IH Hin).
    destruct (decide (P a)) as [HP|HP].
    + rewrite decide_True by (rewrite Hiff; tauto). cbn [length]. by rewrite IH.
    + rewrite decide_False by (rewrite Hiff; tauto). done.
Qed.

(** X4: revealing an unrevealed cell of the grid that holds no mine lowers
    [UnrevealedSafeCells] by exactly one; revealing a mine leaves the count
    as it was. *)
Theorem Reveal_lowers_the_count_of_safe_cells (g : GameState) (x y : Z) :
  wf g → in_grid g x y → IsRevealed g x y = Some false →
  ∃ g' n,
    Reveal g x y = Some (g', true) ∧
    UnrevealedSafeCells g = Some n ∧
    (IsMine g x y = Some false →
       0 < n ∧ UnrevealedSafeCells g' = Some (n - 1)) ∧
    (IsMine g x y = Some true → UnrevealedSafeCells g' = Some n).
Proof.
  intros Hwf Hin Hrev.
  destruct (Reveal_spec g x y Hwf)
    as (g' & ok & Heq & Hwf' & Hsz & _ & Hmm & _ & _ & Hok & _ & Hyes & Hothers).
  pose proof Hin as Hv%IsValidCoordinate_true.
  rewrite Hv, Hrev in Hok. simpl in Hok. subst ok.
  destruct (Hyes eq_refl) as [Hrev' _].
  pose proof (wf_Size_nonneg g Hwf) as Hsize.
  exists g', (Z.of_nat (length (filter (safe_hidden g) (all_coords (Size g))))).
  split; [done|]. split; [by apply UnrevealedSafeCells_count|].
  rewrite (UnrevealedSafeCells_count g') by (done || lia). rewrite Hsz.
  assert (∀ a b, IsMine g' a b = IsMine g a b) as Hmine.
  { intros a b. unfold IsMine, IsValidCoordinate. by rewrite Hsz, Hmm. }
  split.
  - intros Hm.
    rewrite (length_filter_one_less (safe_hidden g) (safe_hidden g')
               (all_coords (Size g)) (mkCoordinate x y)).
    + split; [lia|]. f_equal. lia.
    + apply NoDup_all_coords.
    + by apply elem_of_all_coords.
    + by split.
    + intros c. unfold safe_hidden. rewrite Hmine.
      destruct (decide (c = mkCoordinate x y)) as [->|Hne]; simpl.
      * rewrite Hrev'. split; [by intros [_ [=]]|by intros [_ ?]].
      * rewrite Hothers by (intros [= ? ?]; apply Hne; by destruct c; subst).
        tauto.
  - intros Hm. do 3 f_equal. apply filter_ext_in. intros c Hc.
    unfold safe_hidden. rewrite Hmine.
    destruct (decide (c = mkCoordinate x y)) as [->|Hne]; simpl.
    + rewrite Hm. split; by intros [[=] _].
    + by rewrite Hothers
        by (intros [= ? ?]; apply Hne; by destruct c; subst).
Qed.

Lemma Reveal_lowers_the_count_of_safe_cells_witness :
  wf corner_mine_state ∧ in_grid corner_mine_state 1 1 ∧
  IsRevealed corner_mine_state 1 1 = Some false ∧
  ∃ g' n,
    Reveal corner_mine_state 1 1 = Some (g', true) ∧
    UnrevealedSafeCells corner_mine_state = Some n ∧
    (IsMine corner_mine_state 1 1 = Some false →
       0 < n ∧ UnrevealedSafeCells g' = Some (n - 1)) ∧
    (IsMine corner_mine_state 1 1 = Some true →
       UnrevealedSafeCells g' = Some n).
Proof.
  assert (in_grid corner_mine_state 1 1) as Hin
    by (unfold in_grid; simpl; lia).
  split; [exact corner_mine_state_wf|]. split; [exact Hin|].
  split; [reflexivity|].
  apply (Reveal_lowers_the_count_of_safe_cells corner_mine_state 1 1
           corner_mine_state_wf Hin eq_refl).
Defined.

End VictoryFacts.
(** ** The generator (generator.go) *)

Section ShuffleFacts.
Import Game Grid.
Context `{RandSource}.

Lemma swap_Permutation (positions : list Z) i j positions' :
  swap positions i j = Some positions' → positions' ≡ₚ positions.
Proof.
  unfold swap. intros Hswap.
  destruct (index positions j) as [pj|] eqn:Hj; simpl in Hswap; [|done].
  destruct (index positions i) as [pi|] eqn:Hi; simpl in Hswap; [|done].
  apply index_inv in Hj as [_ Hj]. apply index_inv in Hi as [_ Hi].
  unfold set_index in Hswap. repeat case_decide; simplify_option_eq.
  by apply Permutation_insert_swap.
Qed.

(** The shuffle runs to its end and only moves the positions around. *)
Lemma shuffle_Permutation (positions : list Z) (r : rng) :
  Z.of_nat (length positions) ≤ int_max →
  ∃ positions' r', shuffle positions r = Some (positions', r') ∧
    positions' ≡ₚ positions.
Proof.
  intros Hlen. unfold shuffle.
  destruct (foldlM_invariant
    (λ acc : list Z * rng, acc.1 ≡ₚ positions)
    (λ i, 1 ≤ i < Z.of_nat (length positions))
    (λ '(positions, r) i,
       '(j, r') ← Intn_call r (wrap (i + 1));
       positions' ← swap positions i j;
       Some (positions', r'))
    (reverse (seqZ 1 (Z.of_nat (length positions) - 1))) (positions, r))
    as ([positions' r'] & Hfold & Hl); [done| |..].
  - apply Forall_forall. intros i Hi.
    apply elem_of_reverse, elem_of_seqZ in Hi. lia.
  - intros [ps r0] i Hps Hi. simpl in Hps.
    pose proof (Permutation_length Hps) as Hpl.
    assert (wrap (i + 1) = i + 1) as ->.
    { apply wrap_in_int. unfold in_int, int_min, int_max in *. lia. }
    unfold Intn_call. rewrite decide_True by lia.
    pose proof (Intn_range r0 (i + 1)) as Hj.
    destruct (Intn r0 (i + 1)) as [j r1]. simpl in *.
    destruct (swap_total ps i j) as (ps' & Hswap & Hps'); [lia|lia|].
    rewrite Hswap. simpl. eexists. split; [done|]. simpl.
    etrans; [by eapply swap_Permutation|done].
  - by exists positions', r'.
Qed.
End ShuffleFacts.

Section PlacementFacts.
Import Game Grid.
Context `{RandSource}.

(** The body of the placement loop. *)
Definition place_step (positions : list Z) (size : Z) (state : GameState)
    (i : Z) : option GameState :=
  pos ← index positions i;
  x ← int_quot pos size;
  y ← int_rem pos size;
  fst <$> SetMine state x y.

(** A mine placed on a cell of the grid that holds none: the map gets one
    more mine, the count goes up by one and nothing else changes. *)
Lemma SetMine_fresh g x y :
  Inv g → in_grid g x y → IsMine g x y = Some false →
  ∃ m', SetMine g x y = Some (set_MineMap g m' (MineCount g + 1), true) ∧
    Inv (set_MineMap g m' (MineCount g + 1)) ∧
    IsMine (set_MineMap g m' (MineCount g + 1)) x y = Some true ∧
    ∀ x' y', (x', y') ≠ (x, y) →
      IsMine (set_MineMap g m' (MineCount g + 1)) x' y' = IsMine g x' y'.
Proof.
  intros HInv Hin Hm.
  destruct (SetMine_spec g x y HInv)
    as (g' & ok & Heq & HInv' & _ & _ & _ & _ & _ & _ & Hyes & Hothers & _).
  pose proof Hin as Hv%IsValidCoordinate_true.
  unfold SetMine in Heq. unfold IsMine in Hm. rewrite Hv in Heq, Hm.
  simpl in Heq, Hm. rewrite Hm in Heq. simpl in Heq.
  destruct (set_index2 (MineMap g) x y true) as [m'|] eqn:Hset;
    simpl in Heq; [|done].
  injection Heq as <- <-.
  pose proof (set_index2_count _ _ _ _ Hm Hset) as Hcount.
  destruct HInv as [Hwf Hc]. destruct HInv' as [Hwf' Hc'].
  simpl in Hc'. rewrite Hcount, <- Hc in Hc'.
  rewrite Hc' in *.
  exists m'. unfold SetMine. rewrite Hv. simpl.
  rewrite Hm. simpl. rewrite Hset. simpl. rewrite Hc'.
  split_and!; [done| |by apply Hyes|done].
  split; [done|]. simpl. lia.
Qed.

Lemma cell_of_position size p :
  0 < size → 0 ≤ p < size * size →
  p ÷ size = p `div` size ∧ p `rem` size = p `mod` size ∧
  0 ≤ p `div` size < size ∧ 0 ≤ p `mod` size < size.
Proof.
  intros Hs Hp. split_and!.
  - apply Z.quot_div_nonneg; lia.
  - apply Z.rem_mod_nonneg; lia.
  - apply Z.div_pos; lia.
  - apply Z.div_lt_upper_bound; lia.
  - apply Z.mod_pos_bound. lia.
  - apply Z.mod_pos_bound. lia.
Qed.

(** The first [k] positions of a list without repetition get a mine each. *)
Lemma place_first (positions : list Z) (size : Z) (st0 : GameState) (k : nat) :
  Inv st0 → Size st0 = size → 0 < size →
  NoDup positions → (∀ p, p ∈ positions → 0 ≤ p < size * size) →
  (∀ x y, IsMine st0 x y = Some false) →
  (k ≤ length positions)%nat →
  ∃ m, foldlM (place_step positions size) st0 (seqZ 0 (Z.of_nat k))
       = Some (set_MineMap st0 m (MineCount st0 + Z.of_nat k)) ∧
    Inv (set_MineMap st0 m (MineCount st0 + Z.of_nat k)) ∧
    ∀ x y, IsMine (set_MineMap st0 m (MineCount st0 + Z.of_nat k)) x y
           = Some true ↔
           ∃ i p, (i < k)%nat ∧ positions !! i = Some p ∧
                  x = p `div` size ∧ y = p `mod` size.
Proof.
  intros HInv0 Hsz Hsize Hnd Hrange Hnone.
  induction k as [|k IH]; intros Hk.
  { exists (MineMap st0). simpl. rewrite Z.add_0_r.
    assert (set_MineMap st0 (MineMap st0) (MineCount st0) = st0) as ->
      by (by destruct st0).
    split_and!; [done|done|]. intros x y. rewrite Hnone.
    split; [done|]. intros (i & p & Hi & _). lia. }
  destruct IH as (m & Hfold & HInv & Hmines); [lia|].
  rewrite seqZ_S, foldlM_app, Hfold. cbn [mbind option_bind foldlM].
  set (st := set_MineMap st0 m (MineCount st0 + Z.of_nat k)) in *.
  destruct (lookup_lt_is_Some_2 positions k) as [p Hp]; [lia|].
  assert (p ∈ positions) as Hpin by (by eapply list_elem_of_lookup_2).
  destruct (cell_of_position size p Hsize (Hrange p Hpin))
    as (Hq & Hr & Hx & Hy).
  assert (Size st = size) as Hszst by done.
  assert (in_grid st (p `div` size) (p `mod` size)) as Hin
    by (unfold in_grid; rewrite Hszst; lia).
  assert (IsMine st (p `div` size) (p `mod` size) = Some false) as Hfree.
  { destruct HInv as [Hwf _].
    destruct (IsMine_is_Some st (p `div` size) (p `mod` size) Hwf)
      as [[] Hb]; [|done].
    apply Hmines in Hb as (i & p' & Hi & Hp' & Hxx & Hyy).
    assert (p' ∈ positions) as Hp'in by (by eapply list_elem_of_lookup_2).
    assert (p' = p) as ->.
    { pose proof (Z.div_mod p size). pose proof (Z.div_mod p' size).
      pose proof (Hrange p' Hp'in). nia. }
    pose proof (NoDup_lookup _ _ _ _ Hnd Hp' Hp). lia. }
  destruct (SetMine_fresh st _ _ HInv Hin Hfree)
    as (m' & Hset & HInv' & Hnew & Hothers).
  assert (place_step positions size st (0 + Z.of_nat k)
          = Some (set_MineMap st m' (MineCount st + 1))) as ->.
  { unfold place_step, index. rewrite decide_True by lia.
    replace (Z.to_nat (0 + Z.of_nat k)) with k by lia. rewrite Hp.
    cbn [mbind option_bind]. unfold int_quot, int_rem.
    rewrite !decide_False by lia. cbn [mbind option_bind].
    rewrite Hq, Hr. rewrite wrap_in_int.
    - by rewrite Hset.
    - destruct HInv0 as [(_ & _ & Hfit) _].
      unfold in_int, int_min, int_max in *. nia. }
  cbn [mbind option_bind].
  assert (set_MineMap st m' (MineCount st + 1)
          = set_MineMap st0 m' (MineCount st0 + Z.of_nat (S k))) as Heq.
  { unfold st, set_MineMap. simpl. f_equal. lia. }
  rewrite Heq in *. exists m'. split_and!; [done|done|].
  intros x y. destruct (decide ((x, y) = (p `div` size, p `mod` size)))
    as [[= -> ->]|Hne].
  - rewrite Hnew. split; [|done]. intros _. exists k, p. split_and!; [lia|done..].
  - rewrite Hothers by done. rewrite Hmines. split.
    + intros (i & p' & Hi & Hrest). exists i, p'. split; [lia|done].
    + intros (i & p' & Hi & Hp' & -> & ->).
      destruct (decide (i = k)) as [->|Hik].
      * rewrite Hp in Hp'. injection Hp' as <-. done.
      * exists i, p'. split_and!; [lia|done..].
Qed.
End PlacementFacts.

Section GenerationFacts.
Import Game Grid.
Context `{RandSource}.

Lemma placeMinesWithRNG_exact (c : Config) (st0 : GameState) (r : rng) :
  Validate c = None → Inv st0 → Size st0 = cfgSize c →
  (∀ x y, IsMine st0 x y = Some false) →
  ∃ m r',
    placeMinesWithRNG c st0 r
    = Some (set_MineMap st0 m (MineCount st0 + CalculateMineCount c), r') ∧
    Inv (set_MineMap st0 m (MineCount st0 + CalculateMineCount c)).
Proof.
  intros Hv HInv Hsz Hnone. unfold placeMinesWithRNG.
  pose proof (CalculateMineCount_clamped c Hv) as (_ & _ & _ & Hcount).
  destruct (Validate_None c Hv) as (Hsize & _).
  assert (1 ≤ cfgSize c * cfgSize c ≤ 10000) as Htotal by nia.
  assert (wrap (cfgSize c * cfgSize c) = cfgSize c * cfgSize c) as ->.
  { apply wrap_in_int. unfold in_int, int_min, int_max. lia. }
  rewrite decide_False by lia.
  destruct (shuffle_Permutation (seqZ 0 (cfgSize c * cfgSize c)) r)
    as (positions & r' & -> & Hperm).
  { rewrite length_seqZ. unfold int_max. lia. }
  cbn [mbind option_bind].
  change (foldlM _ st0 (seqZ 0 (CalculateMineCount c)))
    with (foldlM (place_step positions (cfgSize c)) st0
            (seqZ 0 (CalculateMineCount c))).
  destruct (place_first positions (cfgSize c) st0
              (Z.to_nat (CalculateMineCount c)))
    as (m & Hfold & HInv' & _); [done|done|lia| | |done| |].
  - rewrite Hperm. apply NoDup_seqZ.
  - intros p Hp. rewrite Hperm in Hp. apply elem_of_seqZ in Hp. lia.
  - rewrite (Permutation_length Hperm), length_seqZ. lia.
  - rewrite Z2Nat.id in Hfold, HInv' by lia. rewrite Hfold.
    cbn [mbind option_bind]. by exists m, r'.
Qed.

Lemma replicate_grid_lookup (size x y : Z) (b : bool) :
  index2 (replicate (Z.to_nat size) (replicate (Z.to_nat size) false)) x y
  = Some b → b = false.
Proof.
  unfold index2. intros Hb.
  destruct (index _ x) as [row|] eqn:Hrow; simpl in Hb; [|done].
  apply index_inv in Hrow as [_ Hrow]. apply index_inv in Hb as [_ Hb].
  apply lookup_replicate in Hrow as [-> _].
  by apply lookup_replicate in Hb as [-> _].
Qed.

(** A new state holds no mine and has no cell revealed. *)
Lemma NewGameState_blank size seed now st :
  NewGameState size seed now = Some st →
  wf st →
  ∀ x y, IsMine st x y = Some false ∧ IsRevealed st x y = Some false.
Proof.
  unfold NewGameState, make_grid. case_decide; [|done]. simpl.
  intros [= <-] Hwf x y. split.
  - destruct (IsMine_is_Some _ x y Hwf) as [b Hb]. rewrite Hb. f_equal.
    unfold IsMine in Hb. destruct (negb _); [by injection Hb|].
    by apply replicate_grid_lookup in Hb.
  - destruct (IsRevealed_is_Some _ x y Hwf) as [b Hb]. rewrite Hb. f_equal.
    unfold IsRevealed in Hb. destruct (negb _); [by injection Hb|].
    by apply replicate_grid_lookup in Hb.
Qed.

(** What a state is right after its generation with the configuration
    [c], the seed [seed] and the clock at [now]: the invariant holds, the
    grid has the configured size and exactly the computed number of mines,
    at least one cell without a mine, nothing revealed, and the game is in
    progress. *)
Definition fresh_game (c : Config) (seed : Z) (now : Time) (st : GameState)
  : Prop :=
  Inv st ∧ Seed st = seed ∧
  MineCount st = CalculateMineCount c ∧
  count_mines (MineMap st) = CalculateMineCount c ∧
  0 ≤ MineCount st < Size st * Size st ∧
  Size st = cfgSize c ∧ Level st = 0 ∧
  Status st = StatusPlaying ∧ Clicks st = 0 ∧ HintCells st = [] ∧
  StartedAt st = now ∧ EndedAt st = zero_time ∧
  ∀ x y, IsRevealed st x y = Some false.

Lemma generation_exact (c : Config) (sd : Z) (now : Time) (r : rng) :
  Validate c = None →
  ∃ st r', (state ← NewGameState (cfgSize c) sd now;
            placeMinesWithRNG c state r) = Some (st, r') ∧
    fresh_game c sd now st.
Proof.
  intros Hv.
  destruct (Validate_None _ Hv) as (Hsize & _).
  pose proof (CalculateMineCount_clamped _ Hv) as (_ & _ & _ & Hcount).
  destruct (NewGameState_Inv (cfgSize c) sd now)
    as (st0 & Hnew & HInv0 & Hsz0 & Hseed0 & Hst0 & Hmc0 & Hcl0 & Hh0
          & He0 & Hs0); [lia|unfold int_max; nia|].
  pose proof (NewGameState_blank _ _ _ _ Hnew (proj1 HInv0)) as Hblank.
  destruct (placeMinesWithRNG_exact c st0 r Hv HInv0 Hsz0)
    as (m & r' & Hplace & HInv); [intros x y; apply Hblank|].
  rewrite Hnew. cbn [mbind option_bind]. rewrite Hplace.
  eexists _, _. split; [done|]. rewrite Hmc0, Z.add_0_l in *.
  assert (Level st0 = 0) as Hlv.
  { unfold NewGameState in Hnew. destruct (make_grid _); simpl in Hnew;
      [|done]. by injection Hnew as <-. }
  unfold fresh_game. split_and!; try done.
  - symmetry. apply HInv.
  - simpl. lia.
  - simpl. rewrite Hsz0. lia.
  - intros x y. unfold IsRevealed, IsValidCoordinate. simpl.
    apply Hblank.
Qed.

Lemma GenerateWithSeed_exact (g : Generator) (seed : Z) (now : Time) :
  Validate (config g) = None →
  ∃ st, GenerateWithSeed g seed now = Some (st, g) ∧
    fresh_game (config g) seed now st.
Proof.
  intros Hv.
  destruct (generation_exact (config g) seed now (NewSource seed) Hv)
    as (st & r' & Heq & Hrest).
  exists st. split; [|done]. unfold GenerateWithSeed.
  destruct (NewGameState _ _ _) as [st0|]; simpl in *; [|done].
  by rewrite Heq.
Qed.

(** X5: on a valid configuration [GenerateWithSeed] and [Generate] return a
    state that satisfies the invariant and holds exactly
    [CalculateMineCount] mines, on distinct cells, so that at least one cell
    is safe; the grid has the configured size, nothing is revealed and the
    game is in progress.  [GenerateWithSeed] records the seed it is given
    and hands the generator back as it was; [Generate] records the seed of
    the configuration and advances the generator's own stream. *)
Theorem generated_states_hold_the_computed_number_of_mines
    (g : Generator) (seed : Z) (now : Time) :
  Validate (config g) = None →
  (∃ st, GenerateWithSeed g seed now = Some (st, g) ∧
     fresh_game (config g) seed now st) ∧
  (∃ st g', Generate g now = Some (st, g') ∧ config g' = config g ∧
     fresh_game (config g) (cfgSeed (config g)) now st).
Proof.
  intros Hv. split; [by apply GenerateWithSeed_exact|].
  destruct (generation_exact (config g) (cfgSeed (config g)) now (gen_rng g) Hv)
    as (st & r' & Heq & Hrest).
  exists st, (mkGenerator (config g) r'). split; [|done].
  unfold Generate.
  destruct (NewGameState _ _ _) as [st0|]; simpl in *; [|done].
  by rewrite Heq.
Qed.
End GenerationFacts.

Section GenerationWitness.
Import Game Grid.

Lemma generated_states_hold_the_computed_number_of_mines_witness :
  Validate (config generator_a) = None ∧
  (∃ st, GenerateWithSeed generator_a 42 1000 = Some (st, generator_a) ∧
     fresh_game (config generator_a) 42 1000 st) ∧
  (∃ st g', Generate generator_a 1000 = Some (st, g') ∧
     config g' = config generator_a ∧
     fresh_game (config generator_a) (cfgSeed (config generator_a)) 1000 st).
Proof.
  split; [reflexivity|].
  apply (@generated_states_hold_the_computed_number_of_mines lcg generator_a
           42 1000 eq_refl).
Defined.

End GenerationWitness.

Section GenerationEntryPoints.
Import Game Grid.
Context `{RandSource}.

(** X6: the Fisher-Yates loop never indexes outside the slice and returns a
    permutation of the positions it was given. *)
Theorem shuffle_returns_a_permutation (positions : list Z) (r : rng) :
  Z.of_nat (length positions) ≤ int_max →
  ∃ positions' r', shuffle positions r = Some (positions', r') ∧
    positions' ≡ₚ positions ∧ length positions' = length positions ∧
    (NoDup positions → NoDup positions').
Proof.
  intros Hlen.
  destruct (shuffle_Permutation positions r Hlen) as (ps & r' & Heq & Hperm).
  exists ps, r'. split_and!; [done|done|by apply Permutation_length|].
  intros Hnd. by rewrite Hperm.
Qed.

(** [NewGenerator] followed by [GenerateWithSeed], as [GenerateGrid] and
    [GenerateWithDifficulty] chain them. *)
Lemma generate_with (c : Config) (seed global : Z) (now : Time) :
  Validate c = None →
  ∃ st gen, NewGenerator c global = inr gen ∧
    GenerateWithSeed gen seed now = Some (st, gen) ∧
    fresh_game c seed now st.
Proof.
  intros Hv. unfold NewGenerator. rewrite Hv.
  set (gen := mkGenerator c _).
  destruct (GenerateWithSeed_exact gen seed now Hv) as (st & Heq & Hfresh).
  by exists st, gen.
Qed.



(** The mine count of a preset, as the comments of the presets give it. *)
Definition preset_mines (preset : DifficultyPreset) : Z :=
  if decide (preset = DifficultyEasy) then 6
  else if decide (preset = DifficultyMedium) then 15
  else if decide (preset = DifficultyHard) then 51
  else if decide (preset = DifficultyExpert) then 100
  else 15.

Lemma GetDifficultyConfig_valid (preset : DifficultyPreset) :
  Validate (GetDifficultyConfig preset) = None ∧
  CalculateMineCount (GetDifficultyConfig preset) = preset_mines preset.
Proof.
  unfold GetDifficultyConfig, preset_mines.
  repeat case_decide; split; vm_compute; reflexivity.
Qed.

(** X8: every difficulty preset, and the default configuration that any
    other name falls back to, is valid; its mine count is 6 (easy), 15
    (medium), 51 (hard), 100 (expert) and 15 (default), within the bounds of
    the preset; so [GenerateWithDifficulty] never fails and returns a fresh
    game with that many mines, and neither [NewDefaultGenerator] nor
    [GenerateDefaultGrid] returns a nil pointer. *)
Theorem difficulty_presets_are_valid
    (preset : DifficultyPreset) (seed global : Z) (now : Time) :
  Validate (GetDifficultyConfig preset) = None ∧
  CalculateMineCount (GetDifficultyConfig preset) = preset_mines preset ∧
  MinMineCount (GetDifficultyConfig preset) ≤ preset_mines preset ∧
  (MaxMineCount (GetDifficultyConfig preset) > 0 →
     preset_mines preset ≤ MaxMineCount (GetDifficultyConfig preset)) ∧
  (∃ st, GenerateWithDifficulty preset seed global now = Some (inr st) ∧
     MineCount st = preset_mines preset ∧
     Size st = cfgSize (GetDifficultyConfig preset) ∧
     Seed st = seed ∧ Inv st ∧ Status st = StatusPlaying) ∧
  is_Some (NewDefaultGenerator global) ∧
  (∃ st, GenerateDefaultGrid seed global now = Some (Some st) ∧
     Size st = 10 ∧ MineCount st = 15 ∧ Seed st = seed ∧ Inv st).
Proof.
  destruct (GetDifficultyConfig_valid preset) as [Hv Hcount].
  split_and!; [done|done| | | | |].
  - unfold GetDifficultyConfig, preset_mines. repeat case_decide; simpl; lia.
  - unfold GetDifficultyConfig, preset_mines. repeat case_decide; simpl; lia.
  - set (c := GetDifficultyConfig preset) in *.
    destruct (generate_with
                (mkConfig (cfgSize c) seed (MineDensity c) (MinMineCount c)
                   (MaxMineCount c)) seed global now)
      as (st & gen & Hgen & Heq & Hf); [by destruct c|].
    exists st. unfold GenerateWithDifficulty. fold c. rewrite Hgen, Heq.
    destruct Hf as (HInv & Hseed & Hmc & _ & _ & Hsz & _ & Hst & _).
    split_and!; try done. rewrite Hmc, <- Hcount. by destruct c.
  - unfold NewDefaultGenerator, NewGenerator.
    assert (Validate DefaultConfig = None) as -> by (by vm_compute).
    by eexists.
  - destruct (generate_with (mkConfig DefaultSize seed DefaultMineDensity 1 0)
                seed global now)
      as (st & gen & Hgen & Heq & Hf); [by vm_compute|].
    exists st. unfold GenerateDefaultGrid, GenerateGrid. rewrite Hgen, Heq.
    destruct Hf as (HInv & Hseed & Hmc & _ & _ & Hsz & _).
    split_and!; try done.
Qed.
End GenerationEntryPoints.

Section ShuffleWitness.
Import Game Grid.

Lemma shuffle_returns_a_permutation_witness :
  Z.of_nat (length [0; 1; 2; 3]) ≤ int_max ∧
  ∃ positions' r',
    @shuffle lcg [0; 1; 2; 3] 7 = Some (positions', r') ∧
    positions' ≡ₚ [0; 1; 2; 3] ∧ length positions' = length [0; 1; 2; 3] ∧
    (NoDup [0; 1; 2; 3] → NoDup positions').
Proof.
  assert (Z.of_nat (length [0; 1; 2; 3]) ≤ int_max) as Hlen
    by (unfold int_max; simpl; lia).
  split; [exact Hlen|].
  apply (@shuffle_returns_a_permutation lcg [0; 1; 2; 3] 7 Hlen).
Defined.

End ShuffleWitness.

Section ValidationFacts.
Import Game Grid.

(** X9: [Validate] accepts a configuration exactly when the size is between
    1 and 100, the density is neither below the minimum nor above the
    maximum as float64 comparisons, the two counts are not negative and the
    minimum does not exceed a maximum that is set.  Comparisons with a NaN
    are false, so a NaN density passes both density checks and is accepted;
    an infinite density is rejected. *)
Theorem Validate_accepts_exactly (c : Config) :
  (Validate c = None ↔
   1 ≤ cfgSize c ≤ 100 ∧
   f64_lt (MineDensity c) MinMineDensity = false ∧
   f64_lt MaxMineDensity (MineDensity c) = false ∧
   0 ≤ MinMineCount c ∧ 0 ≤ MaxMineCount c ∧
   (MaxMineCount c > 0 → MinMineCount c ≤ MaxMineCount c)) ∧
  (MineDensity c = S754_nan →
   (Validate c = None ↔
    1 ≤ cfgSize c ≤ 100 ∧ 0 ≤ MinMineCount c ∧ 0 ≤ MaxMineCount c ∧
    (MaxMineCount c > 0 → MinMineCount c ≤ MaxMineCount c))) ∧
  (∀ s, MineDensity c = S754_infinity s → 1 ≤ cfgSize c ≤ 100 →
        Validate c = Some (if s then DensityTooLow else DensityTooHigh)) ∧
  (cfgSize c < 1 → Validate c = Some SizeTooSmall) ∧
  (cfgSize c > 100 → Validate c = Some SizeTooLarge).
Proof.
  assert (Validate c = None ↔
          1 ≤ cfgSize c ≤ 100 ∧
          f64_lt (MineDensity c) MinMineDensity = false ∧
          f64_lt MaxMineDensity (MineDensity c) = false ∧
          0 ≤ MinMineCount c ∧ 0 ≤ MaxMineCount c ∧
          (MaxMineCount c > 0 → MinMineCount c ≤ MaxMineCount c)) as Hiff.
  { split.
    - intros Hv. destruct (Validate_None c Hv) as (? & ? & ? & ? & ? & ?).
      done.
    - intros (Hs & Hlo & Hhi & Hmin & Hmax & Hmm). unfold Validate.
      rewrite Hlo, Hhi. repeat case_decide; try done; lia. }
  split_and!; [done| | | |].
  - intros Hnan. rewrite Hiff, Hnan.
    assert (f64_lt S754_nan MinMineDensity = false) as -> by reflexivity.
    assert (f64_lt MaxMineDensity S754_nan = false) as -> by reflexivity.
    tauto.
  - intros s Hinf Hs. unfold Validate. rewrite Hinf.
    rewrite !decide_False by lia. by destruct s.
  - intros Hs. unfold Validate. by rewrite decide_True.
  - intros Hs. unfold Validate. rewrite decide_False by lia.
    by rewrite decide_True.
Qed.
End ValidationFacts.
(** ** Copies and the in-memory store (game.go, store.go) *)

Section CloneFacts.
Import Game Api Store.

Lemma length_clone_row size row :
  0 ≤ size → Z.of_nat (length (clone_row size row)) = size.
Proof.
  intros Hs. unfold clone_row.
  rewrite length_app, length_take, length_replicate. lia.
Qed.

Lemma clone_row_lookup size row (y : nat) :
  Z.of_nat y < size → is_Some (row !! y) → clone_row size row !! y = row !! y.
Proof.
  intros Hy [b Hb]. unfold clone_row.
  pose proof (lookup_lt_Some _ _ _ Hb).
  rewrite lookup_app_l by (rewrite length_take; lia).
  apply lookup_take_lt. lia.
Qed.

(** When the copy of a matrix returns: the matrix has enough rows, the copy
    has [size] rows of [size] cells, and it agrees with the matrix on every
    cell of the grid that the matrix has. *)
Lemma clone_grid_spec size m :
  (is_Some (clone_grid size m) ↔ 0 ≤ size ≤ Z.of_nat (length m)) ∧
  ∀ m', clone_grid size m = Some m' →
    grid_wf size m' ∧
    ∀ x y b, 0 ≤ x < size → 0 ≤ y < size →
      index2 m x y = Some b → index2 m' x y = Some b.
Proof.
  unfold clone_grid. split.
  - case_decide as Hs; [|split; [by intros [? ?]|lia]].
    rewrite mapM_is_Some, Forall_forall. split.
    + intros Hall. split; [done|].
      destruct (decide (size = 0)) as [->|Hne]; [lia|].
      destruct (Hall (size - 1)) as [row Hrow]; [apply elem_of_seqZ; lia|].
      simpl in Hrow.
      destruct (index m (size - 1)) as [r|] eqn:Hr; simpl in Hrow; [|done].
      apply index_inv in Hr. lia.
    + intros [_ Hlen] i Hi%elem_of_seqZ. simpl.
      destruct (index_Some m i) as [row ->]; [lia|]. by eexists.
  - intros m'. case_decide as Hs; [|done]. intros Hm%mapM_Some_1.
    pose proof (Forall2_length _ _ _ Hm) as Hlen. rewrite length_seqZ in Hlen.
    split.
    + split; [lia|]. apply Forall_forall. intros row' Hin.
      apply list_elem_of_lookup in Hin as [i Hi].
      destruct (Forall2_lookup_r _ _ _ _ _ Hm Hi) as (z & _ & Hz).
      destruct (index m z) as [row|]; simpl in Hz; [|done].
      injection Hz as <-. by apply length_clone_row.
    + intros x y b Hx Hy Hb. unfold index2 in *.
      destruct (index m x) as [row|] eqn:Hrow; simpl in Hb; [|done].
      assert (seqZ 0 size !! Z.to_nat x = Some x) as Hsx.
      { rewrite lookup_seqZ. lia. }
      destruct (Forall2_lookup_l _ _ _ _ _ Hm Hsx) as (row' & Hrow' & Hz).
      rewrite Hrow in Hz. simpl in Hz. injection Hz as <-.
      assert (index m' x = Some (clone_row size row)) as ->.
      { unfold index. by rewrite decide_True by lia. }
      simpl. apply index_inv in Hb as [Hyl Hb]. unfold index.
      rewrite decide_True by lia. rewrite clone_row_lookup; [done|lia|].
      by eexists.
Qed.

Lemma Clone_shape g g' :
  Clone g = Some g' →
  grid_wf (Size g') (MineMap g') ∧ grid_wf (Size g') (Revealed g').
Proof.
  unfold Clone.
  destruct (clone_grid (Size g) (MineMap g)) as [m|] eqn:Em; simpl; [|done].
  destruct (clone_grid (Size g) (Revealed g)) as [r|] eqn:Er; simpl; [|done].
  intros [= <-]. simpl. split; by eapply clone_grid_spec.
Qed.

Lemma Clone_shaped g :
  grid_wf (Size g) (MineMap g) → grid_wf (Size g) (Revealed g) →
  Clone g = Some g.
Proof.
  intros Hm Hr.
  assert (∀ m, grid_wf (Size g) m → clone_grid (Size g) m = Some m) as Hgrid.
  { intros m [Hlen Hrows]. unfold clone_grid.
    rewrite decide_True by lia.
    apply mapM_Some_2. apply Forall2_same_length_lookup_2.
    { rewrite length_seqZ. lia. }
    intros i z row Hz Hrow. apply lookup_seqZ in Hz as [-> Hi].
    unfold index. rewrite decide_True by lia. simpl.
    replace (Z.to_nat (0 + Z.of_nat i)) with i by lia.
    rewrite Hrow. simpl. f_equal.
    rewrite Forall_lookup in Hrows. specialize (Hrows _ _ Hrow).
    unfold clone_row.
    rewrite take_ge by lia.
    replace (Z.to_nat (Size g) - length row)%nat with 0%nat by lia.
    simpl. by rewrite app_nil_r. }
  unfold Clone. rewrite (Hgrid _ Hm), (Hgrid _ Hr). simpl. by destruct g.
Qed.

(** X10: [Clone] returns exactly when the size is not negative and both
    matrices have at least that many rows (otherwise it panics).  Its
    result always has matrices of [Size] rows of [Size] cells, whatever the
    shape of the original (short rows are padded with false, long ones cut);
    it keeps every other field, agrees with the original on every cell of
    the grid that the original has, and is a fixed point of [Clone].  A
    well-formed state is its own copy. *)
Theorem Clone_returns_a_well_shaped_copy (g : GameState) :
  (is_Some (Clone g) ↔
   0 ≤ Size g ∧ Size g ≤ Z.of_nat (length (MineMap g)) ∧
   Size g ≤ Z.of_nat (length (Revealed g))) ∧
  (∀ g', Clone g = Some g' →
     grid_wf (Size g') (MineMap g') ∧ grid_wf (Size g') (Revealed g') ∧
     Size g' = Size g ∧ Seed g' = Seed g ∧ Level g' = Level g ∧
     Status g' = Status g ∧ HintCells g' = HintCells g ∧
     MineCount g' = MineCount g ∧ StartedAt g' = StartedAt g ∧
     EndedAt g' = EndedAt g ∧ Clicks g' = Clicks g ∧
     (∀ x y b, in_grid g x y → index2 (MineMap g) x y = Some b →
        IsMine g' x y = Some b) ∧
     (∀ x y b, in_grid g x y → index2 (Revealed g) x y = Some b →
        IsRevealed g' x y = Some b) ∧
     Clone g' = Some g') ∧
  (wf g → Clone g = Some g).
Proof.
  destruct (clone_grid_spec (Size g) (MineMap g)) as [Hsm Hm].
  destruct (clone_grid_spec (Size g) (Revealed g)) as [Hsr Hr].
  split_and!.
  - unfold Clone. split.
    + intros [g' Hg'].
      destruct (clone_grid (Size g) (MineMap g)) as [m|] eqn:Em;
        simpl in Hg'; [|done].
      destruct (clone_grid (Size g) (Revealed g)) as [r|] eqn:Er;
        simpl in Hg'; [|done].
      assert (is_Some (Some m)) as Hm1 by (by eexists).
      assert (is_Some (Some r)) as Hr1 by (by eexists).
      apply Hsm in Hm1. apply Hsr in Hr1. lia.
    + intros (H0 & H1 & H2).
      destruct (proj2 Hsm) as [m ->]; [lia|].
      destruct (proj2 Hsr) as [r ->]; [lia|]. simpl. by eexists.
  - intros g' Hg'.
    assert (Clone g' = Some g') as Hfix.
    { apply Clone_shaped; apply Clone_shape in Hg'; tauto. }
    revert Hfix Hg'. generalize (Clone g'). intros fixed Hfix. unfold Clone.
    destruct (clone_grid (Size g) (MineMap g)) as [m|] eqn:Em; simpl; [|done].
    destruct (clone_grid (Size g) (Revealed g)) as [r|] eqn:Er; simpl; [|done].
    intros [= <-]. simpl.
    destruct (Hm m eq_refl) as [Hwm Hcm]. destruct (Hr r eq_refl) as [Hwr Hcr].
    split_and!; try done.
    + intros x y b [Hx Hy] Hb. unfold IsMine, IsValidCoordinate. simpl.
      rewrite !bool_decide_eq_true_2 by lia. simpl. by apply Hcm.
    + intros x y b [Hx Hy] Hb. unfold IsRevealed, IsValidCoordinate. simpl.
      rewrite !bool_decide_eq_true_2 by lia. simpl. by apply Hcr.
  - apply Clone_wf.
Qed.

(** X11: the in-memory store.  [Save] puts a copy of the state in the store
    and replaces what was there; [Load] then returns that state (a
    well-formed state comes back as it was saved), again and again, and
    leaves the store alone; [Exists] tells whether a state is stored;
    [Delete] and [Reset] empty the store, after which [Load] finds nothing
    and reports no error.  [Save] panics only where [Clone] does. *)
Theorem MemoryStore_keeps_what_was_saved (m : MemoryStore) (state : GameState) :
  (is_Some (Save m state) ↔ is_Some (Clone state)) ∧
  (∀ copy, Clone state = Some copy →
     Save m state = Some (mkMemoryStore (Some copy), None) ∧
     Load (mkMemoryStore (Some copy))
     = Some (mkMemoryStore (Some copy), Ok (Some copy)) ∧
     Exists (mkMemoryStore (Some copy))
     = (mkMemoryStore (Some copy), Ok true)) ∧
  (wf state →
     Save m state = Some (mkMemoryStore (Some state), None) ∧
     Load (mkMemoryStore (Some state))
     = Some (mkMemoryStore (Some state), Ok (Some state))) ∧
  Delete m = (NewMemoryStore, None) ∧
  MemoryStore_Reset m = NewMemoryStore ∧
  Load NewMemoryStore = Some (NewMemoryStore, Ok None) ∧
  Exists NewMemoryStore = (NewMemoryStore, Ok false).
Proof.
  assert (∀ g, grid_wf (Size g) (MineMap g) → grid_wf (Size g) (Revealed g) →
            Load (mkMemoryStore (Some g))
            = Some (mkMemoryStore (Some g), Ok (Some g))) as HL.
  { intros g Hm Hr. simpl. unfold MemoryStore_Load. simpl.
    by rewrite (Clone_shaped g Hm Hr). }
  split_and!.
  - simpl. unfold MemoryStore_Save.
    destruct (Clone state) as [c|]; simpl.
    + split; intros _; by eexists.
    + split; by intros [? ?].
  - intros copy Hc. split_and!.
    + simpl. unfold MemoryStore_Save. by rewrite Hc.
    + apply Clone_shape in Hc as [Hm Hr]. by apply HL.
    + done.
  - intros Hwf. split.
    + simpl. unfold MemoryStore_Save. by rewrite (Clone_wf state Hwf).
    + destruct Hwf as (Hm & Hr & _). by apply HL.
  - done.
  - done.
  - done.
  - done.
Qed.
End CloneFacts.
(** ** Removing the pods of a game (spawner.go) *)

Section CleanupFacts.
Import Game Api Spawner.

(** The pods that the listing of [CleanupGrid] returns. *)
Definition listed (k : Cluster) (sel : Pod → bool) : list (string * Pod) :=
  filter (λ item, sel item.2 = true) (map_to_list (pods k)).

(** What the deletion answered by request [i] leaves in [lastErr]: the
    error of the server, unless it says that the pod is gone. *)
Definition kept_error (k : Cluster) (i : nat) : option error :=
  e ← fault k i; if IsNotFound e then None else Some e.

Definition kept_errors (k : Cluster) (n0 len : nat) : list error :=
  omap (kept_error k) (seq n0 len).

Lemma cleanup_step_spec k lastErr deleted item :
  ∃ k1 deleted1,
    cleanup_step (k, lastErr, deleted) item
    = (k1, from_option Some lastErr (kept_error k (length (requests k))),
       deleted1) ∧
    requests k1 = requests k ++ [ReqDelete item.1] ∧
    fault k1 = fault k ∧
    pods k1 = match fault k (length (requests k)) with
              | None => delete item.1 (pods k)
              | Some _ => pods k
              end.
Proof.
  unfold cleanup_step, Api.Delete, scheduled, kept_error.
  destruct (fault k (length (requests k))) as [e|] eqn:Hf; simpl.
  - destruct (IsNotFound e); simpl; by eexists _, _.
  - destruct (pods k !! item.1) as [p|] eqn:Hp; simpl.
    + by eexists _, _.
    + eexists _, _. split_and!; try done. simpl. by rewrite delete_id.
Qed.

Lemma kept_errors_fault k k' n0 len :
  fault k' = fault k → kept_errors k' n0 len = kept_errors k n0 len.
Proof. intros Hf. unfold kept_errors, kept_error. by rewrite Hf. Qed.

Lemma kept_errors_S k n0 len lastErr :
  from_option Some lastErr (last (kept_errors k n0 (S len)))
  = from_option Some (from_option Some lastErr (kept_error k n0))
      (last (kept_errors k (S n0) len)).
Proof.
  unfold kept_errors. change (seq n0 (S len)) with (n0 :: seq (S n0) len).
  generalize (seq (S n0) len). intros l.
  change (omap (kept_error k) (n0 :: l))
    with (match kept_error k n0 with
          | Some e => e :: omap (kept_error k) l
          | None => omap (kept_error k) l
          end).
  destruct (kept_error k n0) as [e|]; [|done].
  rewrite last_cons. by destruct (last (omap (kept_error k) l)).
Qed.

Lemma cleanup_fold items : ∀ k lastErr deleted,
  ∃ k' deleted',
    foldl cleanup_step (k, lastErr, deleted) items
    = (k', from_option Some lastErr
             (last (kept_errors k (length (requests k)) (length items))),
       deleted') ∧
    requests k' = requests k ++ (ReqDelete <$> items.*1) ∧
    fault k' = fault k ∧
    (∀ name, pods k' !! name = None ↔
       pods k !! name = None ∨
       ∃ i item, items !! i = Some item ∧ item.1 = name ∧
                 fault k (length (requests k) + i) = None) ∧
    (∀ name p, pods k' !! name = Some p → pods k !! name = Some p).
Proof.
  induction items as [|item items IH]; intros k lastErr deleted.
  - exists k, deleted. simpl. split_and!; try done.
    + by rewrite app_nil_r.
    + intros name. split; [by left|]. intros [?|(i & it & Hi & _)]; [done|].
      by rewrite lookup_nil in Hi.
  - destruct (cleanup_step_spec k lastErr deleted item)
      as (k1 & d1 & Hstep & Hreq1 & Hf1 & Hp1).
    cbn [foldl]. rewrite Hstep.
    destruct (IH k1 (from_option Some lastErr
                       (kept_error k (length (requests k)))) d1)
      as (k' & d' & Hfold & Hreq & Hf & Hgone & Hkept).
    exists k', d'. rewrite Hfold.
    assert (length (requests k1) = S (length (requests k))) as Hlen.
    { rewrite Hreq1, length_app. simpl. lia. }
    split_and!.
    + f_equal. f_equal. rewrite Hlen, (kept_errors_fault k k1) by done.
      cbn [length]. by rewrite kept_errors_S.
    + rewrite Hreq, Hreq1, <- app_assoc. done.
    + by rewrite Hf.
    + intros name. rewrite Hgone, Hlen, Hf1, Hp1. split.
      * intros [Hnone|(i & it & Hi & Hn & Hfi)].
        -- destruct (fault k (length (requests k))) eqn:Hf0; [by left|].
           apply lookup_delete_None in Hnone as [<-|?]; [|by left].
           right. exists 0%nat, item. split_and!; try done.
           by rewrite Nat.add_0_r.
        -- right. exists (S i), it. split_and!; try done.
           by replace (length (requests k) + S i)%nat
             with (S (length (requests k)) + i)%nat by lia.
      * intros [Hnone|(i & it & Hi & Hn & Hfi)].
        -- left. destruct (fault k (length (requests k))); [done|].
           apply lookup_delete_None. by right.
        -- destruct i as [|i]; simpl in Hi.
           ++ injection Hi as <-. left. rewrite Nat.add_0_r in Hfi.
              rewrite Hfi. apply lookup_delete_None. by left.
           ++ right. exists i, it. split_and!; try done.
              by replace (S (length (requests k)) + i)%nat
                with (length (requests k) + S i)%nat by lia.
    + intros name p Hp. apply Hkept in Hp. rewrite Hp1 in Hp.
      destruct (fault k (length (requests k))); [done|].
      by apply lookup_delete_Some in Hp as [_ ?].
Qed.

Lemma listed_lookup k sel name p :
  (name, p) ∈ listed k sel ↔ pods k !! name = Some p ∧ sel p = true.
Proof.
  unfold listed. rewrite list_elem_of_filter, elem_of_map_to_list. tauto.
Qed.

Lemma NoDup_listed k sel : NoDup (listed k sel).*1.
Proof.
  unfold listed. pose proof (NoDup_fst_map_to_list (pods k)) as Hnd.
  induction (map_to_list (pods k)) as [|it l IH]; [constructor|].
  simpl in Hnd. apply NoDup_cons in Hnd as [Hnot Hnd].
  rewrite filter_cons. case_decide; [|by apply IH].
  simpl. apply NoDup_cons. split; [|by apply IH].
  intros Hin. apply Hnot.
  apply list_elem_of_fmap in Hin as (it' & -> & Hin).
  apply list_elem_of_filter in Hin as [_ Hin].
  apply list_elem_of_fmap. by exists it'.
Qed.

(** X12: [CleanupGrid] lists the pods carrying the game's label and sends
    one deletion for each of them, in the order of the listing, whatever
    the earlier deletions answered: a failure never stops the loop.  When
    the listing fails its error is returned, wrapped, and nothing is
    deleted.  Otherwise the result is the error of the last deletion that
    failed with something else than "not found" (nil when there is none);
    a listed pod is gone afterwards exactly when the server took its
    deletion; pods outside the listing are never touched and no pod
    appears.  On a server that answers every request the call returns nil
    and removes exactly the labelled pods. *)
Theorem CleanupGrid_deletes_every_listed_pod
    (s : GridSpawner) (sel : Pod → bool) (k : Cluster) :
  (∀ e, scheduled k = Some e →
     CleanupGrid s sel k
     = (issue k ReqList, Some (Wrapped "failed to list pods" e))) ∧
  (scheduled k = None →
     requests (CleanupGrid s sel k).1
     = requests k ++ ReqList :: (ReqDelete <$> (listed k sel).*1) ∧
     fault (CleanupGrid s sel k).1 = fault k ∧
     (CleanupGrid s sel k).2
     = last (kept_errors k (S (length (requests k)))
               (length (listed k sel))) ∧
     (∀ name p, pods (CleanupGrid s sel k).1 !! name = Some p →
        pods k !! name = Some p) ∧
     (∀ name p, pods k !! name = Some p → sel p = false →
        pods (CleanupGrid s sel k).1 !! name = Some p) ∧
     (∀ i name p, listed k sel !! i = Some (name, p) →
        (pods (CleanupGrid s sel k).1 !! name = None ↔
         fault k (S (length (requests k)) + i) = None))) ∧
  (fault_free k →
     (CleanupGrid s sel k).2 = None ∧
     ∀ name, pods (CleanupGrid s sel k).1 !! name
             = pods k !! name ≫= λ p, if sel p then None else Some p).
Proof.
  assert (scheduled k = None →
    ∃ k' d, foldl cleanup_step (issue k ReqList, None, 0) (listed k sel)
            = (k', last (kept_errors k (S (length (requests k)))
                           (length (listed k sel))), d) ∧
      CleanupGrid s sel k
      = (k', last (kept_errors k (S (length (requests k)))
                     (length (listed k sel)))) ∧
      requests k' = requests k ++ ReqList :: (ReqDelete <$> (listed k sel).*1) ∧
      fault k' = fault k ∧
      (∀ name, pods k' !! name = None ↔
         pods k !! name = None ∨
         ∃ i item, listed k sel !! i = Some item ∧ item.1 = name ∧
                   fault k (S (length (requests k)) + i) = None) ∧
      (∀ name p, pods k' !! name = Some p → pods k !! name = Some p)) as Hrun.
  { intros Hs.
    destruct (cleanup_fold (listed k sel) (issue k ReqList) None 0)
      as (k' & d & Hfold & Hreq & Hf & Hgone & Hkept).
    assert (length (requests (issue k ReqList)) = S (length (requests k)))
      as Hlen by (simpl; rewrite length_app; simpl; lia).
    rewrite Hlen in Hfold, Hgone. simpl in Hfold, Hreq, Hf, Hgone, Hkept.
    assert (kept_errors (issue k ReqList) = kept_errors k) as Hke by done.
    rewrite Hke in Hfold.
    destruct (last (kept_errors k (S (length (requests k)))
                      (length (listed k sel)))) as [e|] eqn:Hlast;
      simpl in Hfold.
    all: exists k', d; split_and!; try done.
    all: try (unfold CleanupGrid, ListMatching; rewrite Hs;
              fold (listed k sel); by rewrite Hfold).
    all: by rewrite Hreq, <- app_assoc. }
  split_and!.
  - intros e He. unfold CleanupGrid, ListMatching. by rewrite He.
  - intros Hs. destruct (Hrun Hs)
      as (k' & d & _ & -> & Hreq & Hf & Hgone & Hkept). simpl.
    split_and!; try done.
    + intros name p Hp Hsel.
      destruct (pods k' !! name) as [p'|] eqn:Hp'.
      { apply Hkept in Hp'. congruence. }
      apply Hgone in Hp' as [?|(i & it & Hi & Hn & _)]; [congruence|].
      apply list_elem_of_lookup_2 in Hi. destruct it as [n p']. simpl in Hn.
      subst n. apply listed_lookup in Hi as [Hp' Hsel']. congruence.
    + intros i name p Hi. rewrite Hgone. split.
      * intros [Hnone|(i' & it & Hi' & Hn & Hfi)].
        { apply list_elem_of_lookup_2, listed_lookup in Hi as [? _].
          congruence. }
        assert (i' = i) as ->; [|done].
        eapply (NoDup_lookup _ _ _ name (NoDup_listed k sel)).
        -- by rewrite list_lookup_fmap, Hi', <- Hn.
        -- by rewrite list_lookup_fmap, Hi.
      * intros Hfi. right. by exists i, (name, p).
  - intros Hff. destruct (Hrun (Hff _))
      as (k' & d & _ & -> & Hreq & Hf & Hgone & Hkept). simpl. split.
    + apply last_None. unfold kept_errors.
      induction (seq _ _) as [|i l IH]; [done|]. simpl.
      unfold kept_error at 1. by rewrite (Hff i).
    + intros name. destruct (pods k !! name) as [p|] eqn:Hp; simpl.
      * destruct (sel p) eqn:Hsel.
        -- apply Hgone. right.
           assert ((name, p) ∈ listed k sel) as Hin by by apply listed_lookup.
           apply list_elem_of_lookup in Hin as [i Hi].
           exists i, (name, p). by split_and!.
        -- destruct (pods k' !! name) as [p'|] eqn:Hp'.
           { apply Hkept in Hp'. congruence. }
           apply Hgone in Hp' as [?|(i & it & Hi & Hn & _)]; [congruence|].
           apply list_elem_of_lookup_2 in Hi. destruct it as [n p'].
           simpl in Hn. subst n. apply listed_lookup in Hi as [Hp' Hsel'].
           congruence.
      * apply Hgone. by left.
Qed.
End CleanupFacts.

Section CleanupExample.
Import Game Api Spawner.

(** Two cells of a game and a pod that does not carry the game's label;
    the server refuses the first deletion. *)
Definition labelled (p : Pod) : bool := bool_decide (component p = "cell").

Definition busy_cluster : Cluster :=
  mkCluster
    (<["pod-0-0" := mkPod "cell" None false]>
       (<["pod-0-1" := mkPod "cell" None false]>
          (<["dns" := mkPod "system" None false]> ∅)))
    []
    (λ n, if decide (n = 1%nat) then Some ServerError else None).

Lemma CleanupGrid_goes_on_after_a_failure :
  ∃ first second,
    listed busy_cluster labelled
    = [(first, mkPod "cell" None false); (second, mkPod "cell" None false)] ∧
    requests (CleanupGrid default_spawner labelled busy_cluster).1
    = [ReqList; ReqDelete first; ReqDelete second] ∧
    (CleanupGrid default_spawner labelled busy_cluster).2 = Some ServerError ∧
    pods (CleanupGrid default_spawner labelled busy_cluster).1 !! first
    = Some (mkPod "cell" None false) ∧
    pods (CleanupGrid default_spawner labelled busy_cluster).1 !! second
    = None ∧
    pods (CleanupGrid default_spawner labelled busy_cluster).1 !! "dns"
    = Some (mkPod "system" None false).
Proof.
  eexists _, _. split; [by vm_compute|]. split_and!; by vm_compute.
Qed.
End CleanupExample.
(** ** The state kept in a Secret (store.go) *)

Section SecretFacts.
Import Game Api Store.
Context {J : JSON}.

(** The server answers the next [n] requests about the Secret. *)
Definition answers (s : SecretStore) (n : nat) : Prop :=
  ∀ i, (i < n)%nat → secret_fault s (secret_requests s + i) = None.

(** The data of the Secret after a successful [Save] of [data]. *)
Definition saved_data (s : SecretStore) (data : string) : gmap string string :=
  match secret s with
  | Some (Some d) => <[StateKey := data]> d
  | _ => {[StateKey := data]}
  end.

(** What [Load] makes of the bytes under the state key. *)
Definition decoded (data : string) : res (option GameState) :=
  match FromJSON data with
  | Ok state => Ok (Some state)
  | Err e => Err (Wrapped "failed to parse game state" e)
  end.

Lemma answers_0 s n : answers s (S n) → secret_fault s (secret_requests s) = None.
Proof. intros Ha. rewrite <- (Nat.add_0_r (secret_requests s)). apply Ha. lia. Qed.

(** X13: [SecretStore.Save] on a server that answers.  When the Secret
    does not exist it is created with the encoded state under the key
    "state"; when it exists its data map gets that key and keeps every
    other; when it exists with a nil data map, the assignment panics.  In
    the first two cases [Save] returns nil after two requests, [Exists]
    then reports true and [Load] decodes the bytes that were written: it
    returns the state that [FromJSON] gives for them, or its error wrapped.
    After [Delete] the Secret is gone, [Load] returns no state and no
    error, [Exists] reports false, and a second [Delete] returns nil
    too. *)
Theorem SecretStore_Save_then_Load
    (s : SecretStore) (state : GameState) (data : string) :
  ToJSON state = Ok data → answers s 4 →
  (secret s = Some None → Save s state = None) ∧
  (secret s ≠ Some None →
   ∃ s2,
     Save s state = Some (s2, None) ∧
     secret s2 = Some (Some (saved_data s data)) ∧
     saved_data s data !! StateKey = Some data ∧
     (∀ d key, secret s = Some (Some d) → key ≠ StateKey →
        saved_data s data !! key = d !! key) ∧
     secret_requests s2 = (secret_requests s + 2)%nat ∧
     secret_fault s2 = secret_fault s ∧
     Load s2 = Some (secret_issue s2, decoded data) ∧
     Exists s2 = (secret_issue s2, Ok true) ∧
     ∃ s3,
       Delete s2 = (s3, None) ∧ secret s3 = None ∧
       Load s3 = Some (secret_issue s3, Ok None) ∧
       Exists s3 = (secret_issue s3, Ok false) ∧
       (Delete s3).2 = None ∧ secret (Delete s3).1 = None).
Proof.
  intros Hj Ha.
  pose proof (answers_0 _ _ Ha) as H0.
  assert (secret_fault s (S (secret_requests s)) = None) as H1.
  { rewrite <- Nat.add_1_r. apply Ha. lia. }
  assert (secret_fault s (S (S (secret_requests s))) = None) as H2.
  { replace (S (S (secret_requests s))) with (secret_requests s + 2)%nat by lia.
    apply Ha. lia. }
  assert (secret_fault s (S (S (S (secret_requests s)))) = None) as H3.
  { replace (S (S (S (secret_requests s))))
      with (secret_requests s + 3)%nat by lia.
    apply Ha. lia. }
  split.
  - intros Hs. simpl. unfold SecretStore_Save, secret_get.
    by rewrite Hj, H0, Hs.
  - intros Hs.
    exists (mkSecretStore (Some (Some (saved_data s data)))
              (S (S (secret_requests s))) (secret_fault s)).
    assert (saved_data s data !! StateKey = Some data) as Hkey.
    { unfold saved_data. destruct (secret s) as [[d|]|].
      - apply lookup_insert_eq.
      - apply lookup_singleton_eq.
      - apply lookup_singleton_eq. }
    split_and!; try done.
    + simpl. unfold SecretStore_Save, secret_get, saved_data.
      rewrite Hj, H0.
      destruct (secret s) as [[d|]|] eqn:Hsec; [|done|].
      * unfold secret_update. simpl. by rewrite H1, Hsec.
      * simpl. unfold secret_create. simpl. by rewrite H1, Hsec.
    + intros d key Hd Hne. unfold saved_data. rewrite Hd.
      by apply lookup_insert_ne.
    + simpl. lia.
    + simpl. unfold SecretStore_Load, secret_get, decoded. simpl.
      rewrite H2. cbn [mbind option_bind].
      change (Some (saved_data s data) ≫= lookup StateKey)
        with (saved_data s data !! StateKey).
      rewrite Hkey. by destruct (FromJSON data).
    + simpl. unfold SecretStore_Exists, secret_get. simpl. by rewrite H2.
    + exists (mkSecretStore None (S (S (S (secret_requests s))))
                (secret_fault s)).
      split_and!; try done.
      * simpl. unfold SecretStore_Delete, secret_delete. simpl. by rewrite H2.
      * simpl. unfold SecretStore_Load, secret_get. simpl. by rewrite H3.
      * simpl. unfold SecretStore_Exists, secret_get. simpl. by rewrite H3.
      * simpl. unfold SecretStore_Delete, secret_delete. simpl. by rewrite H3.
      * simpl. unfold SecretStore_Delete, secret_delete. simpl. by rewrite H3.
Qed.
End SecretFacts.

Section SecretWitness.
Import Game Api Store.

(** A server without the Secret that answers every request. *)
Definition no_secret : SecretStore := mkSecretStore None 0 (λ _, None).

Lemma SecretStore_Save_then_Load_witness :
  @ToJSON null_JSON sample_state = Ok "{}" ∧ answers no_secret 4 ∧
  (secret no_secret = Some None →
   @Save _ (@SecretStore_Store null_JSON) no_secret sample_state = None) ∧
  (secret no_secret ≠ Some None →
   ∃ s2,
     @Save _ (@SecretStore_Store null_JSON) no_secret sample_state
     = Some (s2, None) ∧
     secret s2 = Some (Some (saved_data no_secret "{}")) ∧
     saved_data no_secret "{}" !! StateKey = Some "{}" ∧
     (∀ d key, secret no_secret = Some (Some d) → key ≠ StateKey →
        saved_data no_secret "{}" !! key = d !! key) ∧
     secret_requests s2 = (secret_requests no_secret + 2)%nat ∧
     secret_fault s2 = secret_fault no_secret ∧
     @Load _ (@SecretStore_Store null_JSON) s2
     = Some (secret_issue s2, @decoded null_JSON "{}") ∧
     @Exists _ (@SecretStore_Store null_JSON) s2 = (secret_issue s2, Ok true) ∧
     ∃ s3,
       @Delete _ (@SecretStore_Store null_JSON) s2 = (s3, None) ∧
       secret s3 = None ∧
       @Load _ (@SecretStore_Store null_JSON) s3
       = Some (secret_issue s3, Ok None) ∧
       @Exists _ (@SecretStore_Store null_JSON) s3
       = (secret_issue s3, Ok false) ∧
       (@Delete _ (@SecretStore_Store null_JSON) s3).2 = None ∧
       secret (@Delete _ (@SecretStore_Store null_JSON) s3).1 = None).
Proof.
  assert (answers no_secret 4) as Ha by (by intros i _).
  split; [reflexivity|]. split; [exact Ha|].
  exact (@SecretStore_Save_then_Load null_JSON no_secret sample_state "{}"
           eq_refl Ha).
Defined.
End SecretWitness.
(** ** A click on a cell next to a mine (handlers.go, game_controller.go) *)

Section HintCellFacts.
Import Game Api Store Spawner Controller.

(** The pod that [spawnHintPod] creates for the hint value [n]. *)
Definition hint_pod (n : Z) : Pod := mkPod "hint" (Some n) false.

Definition victory_pod : Pod := mkPod "victory" None false.

(** The state once an unrevealed safe cell of the grid is revealed: one
    safe cell less is left. *)
Lemma Reveal_safe_cell g x y :
  wf g → in_grid g x y →
  IsRevealed g x y = Some false → IsMine g x y = Some false →
  ∃ g' left,
    Reveal g x y = Some (g', true) ∧ wf g' ∧
    Size g' = Size g ∧ Status g' = Status g ∧ MineMap g' = MineMap g ∧
    MineCount g' = MineCount g ∧ HintCells g' = HintCells g ∧
    IsRevealed g' x y = Some true ∧ Clicks g' = wrap (Clicks g + 1) ∧
    (∀ x' y', (x', y') ≠ (x, y) → IsRevealed g' x' y' = IsRevealed g x' y') ∧
    UnrevealedSafeCells g = Some left ∧ 0 < left ∧
    UnrevealedSafeCells g' = Some (left - 1).
Proof.
  intros Hwf Hin Hrev Hm.
  destruct (Reveal_spec g x y Hwf)
    as (g' & ok & Heq & Hwf' & Hsz & Hst & Hmm & Hmc & Hhc & Hok & _ & Hyes
        & Hothers).
  pose proof Hin as Hv%IsValidCoordinate_true.
  rewrite Hv, Hrev in Hok. simpl in Hok. subst ok.
  destruct (Hyes eq_refl) as [Hrev' Hclicks].
  pose proof (wf_Size_nonneg g Hwf) as Hsize.
  exists g', (Z.of_nat (length (filter (safe_hidden g) (all_coords (Size g))))).
  rewrite (UnrevealedSafeCells_count g) by done.
  rewrite (UnrevealedSafeCells_count g') by (done || lia). rewrite Hsz.
  assert (∀ a b, IsMine g' a b = IsMine g a b) as Hmine.
  { intros a b. unfold IsMine, IsValidCoordinate. by rewrite Hsz, Hmm. }
  rewrite (length_filter_one_less (safe_hidden g) (safe_hidden g')
             (all_coords (Size g)) (mkCoordinate x y)).
  - split_and!; try done; try lia. f_equal. lia.
  - apply NoDup_all_coords.
  - by apply elem_of_all_coords.
  - by split.
  - intros c. unfold safe_hidden. rewrite Hmine.
    destruct (decide (c = mkCoordinate x y)) as [->|Hne]; simpl.
    + rewrite Hrev'. split; [by intros [_ [=]]|by intros [_ ?]].
    + rewrite Hothers by (intros [= ? ?]; apply Hne; by destruct c; subst).
      tauto.
Qed.

Lemma AddHintCell_UnrevealedSafeCells g x y :
  UnrevealedSafeCells (AddHintCell g x y) = UnrevealedSafeCells g.
Proof. done. Qed.

Context {S : Type} `{!Store S}.

(** X14: the deletion of the pod of an unrevealed safe cell with [n > 0]
    mines around it, in a game in progress.  The handler reveals the cell,
    records it as a hint cell and creates the pod [hint-x-y] carrying [n]
    before anything is saved: when that creation fails (the pod may be left
    from an earlier attempt) the error is returned and the store keeps the
    old state, in which the cell is not revealed.  Otherwise the new state
    is saved; it is saved as won, and the victory pod created after it,
    exactly when the cell was the last safe cell left. *)
Theorem click_on_a_hint_cell (ns : string) (store store1 : S) (k : Cluster)
    (state : GameState) (c : Coordinate) (n : Z) (now : Time) :
  Load store = Some (store1, Ok (Some state)) →
  wf state → Status state = StatusPlaying →
  in_grid state (X c) (Y c) →
  IsRevealed state (X c) (Y c) = Some false →
  IsMine state (X c) (Y c) = Some false →
  AdjacentMines state (X c) (Y c) = Some n → 0 < n →
  ∃ st1 left,
    wf st1 ∧ Size st1 = Size state ∧ MineMap st1 = MineMap state ∧
    MineCount st1 = MineCount state ∧ Status st1 = StatusPlaying ∧
    IsRevealed st1 (X c) (Y c) = Some true ∧
    (∀ x y, (x, y) ≠ (X c, Y c) →
       IsRevealed st1 x y = IsRevealed state x y) ∧
    Clicks st1 = wrap (Clicks state + 1) ∧
    HintCells st1 = HintCells state ++ [c] ∧
    UnrevealedSafeCells state = Some left ∧ 0 < left ∧
    UnrevealedSafeCells st1 = Some (left - 1) ∧
    handlePodDeletion (NewGameController ns) (store, k) c now
    = match Create k (HintPodName c) (hint_pod n) with
      | (k1, Some e) => Some ((store1, k1), Some e)
      | (k1, None) =>
          if decide (left = 1) then
            '(store2, err) ← Save store1 (SetWon st1 now);
            match err with
            | Some e => Some ((store2, k1), Some e)
            | None =>
                let '(k2, e) := Create k1 "victory" victory_pod in
                Some ((store2, k2), e)
            end
          else
            '(store2, err) ← Save store1 st1;
            Some ((store2, k1), err)
      end.
Proof.
  intros HL Hwf Hplay Hin Hrev Hmine Hadj Hn.
  destruct (Reveal_safe_cell state (X c) (Y c) Hwf Hin Hrev Hmine)
    as (st0 & left & HR & Hwf0 & Hsz & Hst & Hmm & Hmc & Hhc & Hrev0 & Hcl
        & Hoth & Hleft & Hpos & Hleft0).
  exists (AddHintCell st0 (X c) (Y c)), left.
  split_and!; try done.
  - by rewrite <- Hplay.
  - simpl. rewrite Hhc. by destruct c.
  - unfold handlePodDeletion. rewrite HL. cbn [mbind option_bind].
    rewrite decide_False by (intros Hne; by apply Hne).
    rewrite Hrev. cbn [mbind option_bind]. rewrite Hmine.
    cbn [mbind option_bind]. rewrite Hadj. cbn [mbind option_bind].
    rewrite decide_True by lia.
    cbn [NewGameController Handlers NewGameHandlers onHintCell].
    unfold HandleHintCell. rewrite HR. cbn [mbind option_bind].
    unfold spawnHintPod. fold (hint_pod n).
    destruct (Create k (HintPodName c) (hint_pod n)) as [k1 [e|]]; [done|].
    unfold CheckVictory. rewrite AddHintCell_UnrevealedSafeCells, Hleft0.
    cbn [mbind option_bind].
    destruct (decide (left = 1)) as [->|Hne].
    + rewrite bool_decide_eq_true_2 by lia.
      unfold handleVictory, spawnVictoryPod. fold victory_pod.
      destruct (Save store1 _) as [[store2 [e|]]|]; try done.
      cbn [mbind option_bind].
      by destruct (Create k1 "victory" victory_pod) as [k2 [e|]].
    + rewrite bool_decide_eq_false_2 by lia. done.
Qed.
End HintCellFacts.

Section HintCellWitness.
Import Game Api Store Spawner Controller.

Lemma click_on_a_hint_cell_witness :
  Load (mkMemoryStore (Some corner_mine_state))
  = Some (mkMemoryStore (Some corner_mine_state),
          Ok (Some corner_mine_state)) ∧
  wf corner_mine_state ∧ Status corner_mine_state = StatusPlaying ∧
  in_grid corner_mine_state 1 1 ∧
  IsRevealed corner_mine_state 1 1 = Some false ∧
  IsMine corner_mine_state 1 1 = Some false ∧
  AdjacentMines corner_mine_state 1 1 = Some 1 ∧ 0 < 1 ∧
  ∃ st1 left,
    wf st1 ∧ Size st1 = Size corner_mine_state ∧
    MineMap st1 = MineMap corner_mine_state ∧
    MineCount st1 = MineCount corner_mine_state ∧
    Status st1 = StatusPlaying ∧
    IsRevealed st1 1 1 = Some true ∧
    (∀ x y, (x, y) ≠ (1, 1) →
       IsRevealed st1 x y = IsRevealed corner_mine_state x y) ∧
    Clicks st1 = wrap (Clicks corner_mine_state + 1) ∧
    HintCells st1 = HintCells corner_mine_state ++ [mkCoordinate 1 1] ∧
    UnrevealedSafeCells corner_mine_state = Some left ∧ 0 < left ∧
    UnrevealedSafeCells st1 = Some (left - 1) ∧
    handlePodDeletion (NewGameController "podsweeper-game")
      (mkMemoryStore (Some corner_mine_state), corner_mine_cluster)
      (mkCoordinate 1 1) 7
    = match Create corner_mine_cluster (HintPodName (mkCoordinate 1 1))
              (hint_pod 1) with
      | (k1, Some e) => Some ((mkMemoryStore (Some corner_mine_state), k1), Some e)
      | (k1, None) =>
          if decide (left = 1) then
            '(store2, err) ← Save (mkMemoryStore (Some corner_mine_state))
                               (SetWon st1 7);
            match err with
            | Some e => Some ((store2, k1), Some e)
            | None =>
                let '(k2, e) := Create k1 "victory" victory_pod in
                Some ((store2, k2), e)
            end
          else
            '(store2, err) ← Save (mkMemoryStore (Some corner_mine_state)) st1;
            Some ((store2, k1), err)
      end.
Proof.
  assert (in_grid corner_mine_state 1 1) as Hin by (unfold in_grid; simpl; lia).
  split_and!; [reflexivity|exact corner_mine_state_wf|reflexivity|exact Hin
              |reflexivity|reflexivity|reflexivity|lia|].
  exact (click_on_a_hint_cell "podsweeper-game"
           (mkMemoryStore (Some corner_mine_state))
           (mkMemoryStore (Some corner_mine_state)) corner_mine_cluster
           corner_mine_state (mkCoordinate 1 1) 1 7
           eq_refl corner_mine_state_wf eq_refl Hin eq_refl eq_refl eq_refl
           ltac:(lia)).
Defined.

(** The same click when a pod [hint-1-1] is left from an earlier attempt:
    the creation is refused, the reconciler returns the error and the stored
    state still has the cell unrevealed. *)
Definition leftover_cluster : Cluster :=
  mkCluster
    (<["hint-1-1" := hint_pod 1]> (delete "pod-1-1" (pods corner_mine_cluster)))
    [] (λ _, None).

Lemma click_with_a_leftover_hint_pod :
  ∃ k',
    Reconcile (NewGameController "podsweeper-game")
      (mkMemoryStore (Some corner_mine_state), leftover_cluster)
      "podsweeper-game" "pod-1-1" 7
    = Some ((mkMemoryStore (Some corner_mine_state), k'),
            Some AlreadyExists) ∧
    requests k' = [ReqGet "pod-1-1"; ReqCreate "hint-1-1"].
Proof.
  eexists. split; [vm_compute; reflexivity|reflexivity].
Qed.

(** Without the leftover, and once the server has removed the pod of the
    cell: the state is saved with the cell revealed and the hint pod
    carries the number of mines around it. *)
Lemma click_next_to_the_corner_mine :
  ∃ st' k',
    Reconcile (NewGameController "podsweeper-game")
      (mkMemoryStore (Some corner_mine_state),
       mkCluster (delete "pod-1-1" (pods corner_mine_cluster)) [] (λ _, None))
      "podsweeper-game" "pod-1-1" 7
    = Some ((mkMemoryStore (Some st'), k'), None) ∧
    IsRevealed st' 1 1 = Some true ∧ Clicks st' = 1 ∧
    HintCells st' = [mkCoordinate 1 1] ∧ Status st' = StatusPlaying ∧
    pods k' !! "hint-1-1" = Some (hint_pod 1) ∧
    requests k' = [ReqGet "pod-1-1"; ReqCreate "hint-1-1"].
Proof.
  eexists _, _. split; [vm_compute; reflexivity|]. by split_and!.
Qed.
End HintCellWitness.
(** ** A click on a cell with no mine around it (handlers.go) *)

Section RevealedCells.
Import Game Api Store Spawner Controller.

(** A cell of the grid that is not revealed. *)
Definition hidden (g : GameState) (c : Coordinate) : Prop :=
  in_grid g (X c) (Y c) ∧ IsRevealed g (X c) (Y c) = Some false.

(** The counter of clicks after [n] increments. *)
Definition clicked (n : nat) (clicks : Z) : Z :=
  Nat.iter n (λ c, wrap (c + 1)) clicks.

(** [g'] is [g] after one click on each cell of [l]: these cells are
    revealed, the others are as they were, the mines have not moved. *)
Record revealed_by (g : GameState) (l : list Coordinate) (g' : GameState)
  : Prop := {
  rb_wf : wf g';
  rb_size : Size g' = Size g;
  rb_status : Status g' = Status g;
  rb_mines : MineMap g' = MineMap g;
  rb_count : MineCount g' = MineCount g;
  rb_clicks : Clicks g' = clicked (length l) (Clicks g);
  rb_revealed : ∀ x y,
    IsRevealed g' x y
    = if decide (mkCoordinate x y ∈ l) then Some true else IsRevealed g x y
}.

Lemma clicked_small n clicks :
  in_int clicks → clicks + Z.of_nat n ≤ int_max →
  clicked n clicks = clicks + Z.of_nat n.
Proof.
  intros Hc. induction n as [|n IH]; intros Hle.
  - simpl. lia.
  - change (clicked (S n) clicks) with (wrap (clicked n clicks + 1)).
    rewrite IH by lia.
    rewrite wrap_in_int; [lia|]. unfold in_int in *. lia.
Qed.

Lemma revealed_by_nil g : wf g → revealed_by g [] g.
Proof.
  intros Hwf. split; try done.
Qed.

Lemma revealed_by_app g l1 g1 l2 g2 :
  revealed_by g l1 g1 → revealed_by g1 l2 g2 → revealed_by g (l1 ++ l2) g2.
Proof.
  intros [] []. split; try congruence.
  - rewrite rb_clicks1, rb_clicks0, length_app, Nat.add_comm.
    unfold clicked. by rewrite Nat.iter_add.
  - intros x y. rewrite rb_revealed1, rb_revealed0.
    destruct (decide (mkCoordinate x y ∈ l2)) as [H2|H2].
    + by rewrite decide_True by (apply elem_of_app; by right).
    + destruct (decide (mkCoordinate x y ∈ l1)) as [H1|H1].
      * by rewrite decide_True by (apply elem_of_app; by left).
      * rewrite decide_False; [done|]. by intros [?|?]%elem_of_app.
Qed.

Lemma revealed_by_hint g l g' x y :
  revealed_by g l g' → revealed_by g l (AddHintCell g' x y).
Proof. intros []. by split. Qed.

Lemma revealed_by_hidden g l g' c :
  revealed_by g l g' → c ∉ l → hidden g c → hidden g' c.
Proof.
  intros [] Hc [Hin Hr]. split.
  - unfold in_grid. by rewrite rb_size0.
  - rewrite rb_revealed0. rewrite decide_False; [done|]. by destruct c.
Qed.

(** One click on a hidden cell. *)
Lemma Reveal_hidden g c :
  wf g → hidden g c →
  ∃ g', Reveal g (X c) (Y c) = Some (g', true) ∧
        revealed_by g [c] g' ∧ HintCells g' = HintCells g.
Proof.
  intros Hwf [Hin Hrev].
  destruct (Reveal_spec g (X c) (Y c) Hwf)
    as (g' & ok & Heq & Hwf' & Hsz & Hst & Hmm & Hmc & Hhc & Hok & _ & Hyes
        & Hothers).
  pose proof Hin as Hv%IsValidCoordinate_true.
  rewrite Hv, Hrev in Hok. simpl in Hok. subst ok.
  destruct (Hyes eq_refl) as [Hrev' Hclicks].
  exists g'. split_and!; try done. split; try done.
  intros x y. destruct (decide (mkCoordinate x y ∈ [c])) as [Hc|Hc].
  - apply list_elem_of_singleton in Hc. by subst c.
  - apply Hothers. intros [= -> ->]. apply Hc.
    apply list_elem_of_singleton. by destruct c.
Qed.

(** The loop that reveals the cells without a mine around them. *)
Lemma reveal_loop l : ∀ g,
  wf g → NoDup l → (∀ c, c ∈ l → hidden g c) →
  ∃ g', foldlM (λ state c, fst <$> Reveal state (X c) (Y c)) g l = Some g' ∧
        revealed_by g l g' ∧ HintCells g' = HintCells g.
Proof.
  induction l as [|c l IH]; intros g Hwf Hnd Hall.
  - exists g. split_and!; try done; by apply revealed_by_nil.
  - apply NoDup_cons in Hnd as [Hc Hnd].
    destruct (Reveal_hidden g c Hwf) as (g1 & HR & Hrb & Hh);
      [apply Hall; by left|].
    destruct (IH g1) as (g2 & Hfold & Hrb2 & Hh2); [by destruct Hrb|done| |].
    { intros c' Hc'. eapply revealed_by_hidden; [done| |apply Hall; by right].
      intros ->%list_elem_of_singleton. done. }
    exists g2. cbn [foldlM]. rewrite HR. cbn [fmap option_fmap option_map mbind option_bind].
    split_and!; [done| |congruence].
    by apply (revealed_by_app g [c] g1 l g2).
Qed.

Lemma AdjacentMines_same_mines g g' x y :
  Size g' = Size g → MineMap g' = MineMap g →
  AdjacentMines g' x y = AdjacentMines g x y.
Proof.
  intros Hs Hm. unfold AdjacentMines, IsMine, IsValidCoordinate.
  by rewrite Hs, Hm.
Qed.

(** What the loop over the boundary cells does to the cluster: the pod of
    the cell is deleted and its hint pod created, errors being dropped. *)
Definition hint_step (g0 : GameState) (k : Cluster) (c : Coordinate)
  : Cluster :=
  (spawnHintPod (deletePod k c).1 c
     (default 0 (AdjacentMines g0 (X c) (Y c)))).1.

Lemma boundary_loop g0 l : ∀ g k,
  wf g → Size g = Size g0 → MineMap g = MineMap g0 →
  NoDup l → (∀ c, c ∈ l → hidden g c) →
  ∃ g', foldlM reveal_boundary (g, k) l
        = Some (g', foldl (hint_step g0) k l) ∧
        revealed_by g l g' ∧ HintCells g' = HintCells g ++ l.
Proof.
  induction l as [|c l IH]; intros g k Hwf Hs Hm Hnd Hall.
  - exists g. split_and!; try done; try (by apply revealed_by_nil).
    by rewrite app_nil_r.
  - apply NoDup_cons in Hnd as [Hc Hnd].
    destruct (Reveal_hidden g c Hwf) as (g1 & HR & Hrb & Hh);
      [apply Hall; by left|].
    destruct (AdjacentMines_is_Some g (X c) (Y c) Hwf) as (n & Hn & _).
    pose proof (revealed_by_hint g [c] g1 (X c) (Y c) Hrb) as Hrb1.
    destruct (IH (AddHintCell g1 (X c) (Y c)) (hint_step g0 k c))
      as (g2 & Hfold & Hrb2 & Hh2).
    { by destruct Hrb1. }
    { destruct Hrb1. congruence. }
    { destruct Hrb1. congruence. }
    { done. }
    { intros c' Hc'. eapply revealed_by_hidden; [done| |apply Hall; by right].
      intros ->%list_elem_of_singleton. done. }
    assert (reveal_boundary (g, k) c
            = Some (AddHintCell g1 (X c) (Y c), hint_step g0 k c)) as Hstep.
    { unfold reveal_boundary, hint_step.
      rewrite <- (AdjacentMines_same_mines g0 g), Hn by done.
      cbn [mbind option_bind]. by rewrite HR. }
    exists g2. cbn [foldlM foldl]. rewrite Hstep. cbn [mbind option_bind].
    rewrite Hfold. split_and!; [done| |].
    + by apply (revealed_by_app g [c] (AddHintCell g1 (X c) (Y c)) l g2).
    + rewrite Hh2. simpl. rewrite Hh, <- app_assoc. by destruct c.
Qed.
End RevealedCells.

Section FloodFillCluster.
Import Game Api Store Spawner Controller.

Lemma deletePod_cluster k c :
  (deletePod k c).1 = (Api.Delete k (PodName c)).1.
Proof. unfold deletePod. by destruct (Api.Delete k (PodName c)). Qed.

Lemma Delete_lookup k name name' q :
  pods (Api.Delete k name).1 !! name' = Some q → pods k !! name' = Some q.
Proof.
  unfold Api.Delete. destruct (scheduled k); [done|].
  destruct (pods k !! name); simpl; [|done].
  by intros [_ ?]%lookup_delete_Some.
Qed.

Lemma Create_requests k name p :
  requests (Create k name p).1 = requests k ++ [ReqCreate name].
Proof.
  unfold Create. destruct (scheduled k); [done|].
  by destruct (pods k !! name).
Qed.

Lemma Create_fault k name p : fault (Create k name p).1 = fault k.
Proof.
  unfold Create. destruct (scheduled k); [done|].
  by destruct (pods k !! name).
Qed.

(** [Create] never replaces a pod: it adds the pod under a free name or
    leaves the cluster as it is. *)
Lemma Create_lookup k name p name' q :
  pods (Create k name p).1 !! name' = Some q →
  pods k !! name' = Some q ∨ (name' = name ∧ q = p).
Proof.
  unfold Create. destruct (scheduled k); [by left|].
  destruct (pods k !! name) eqn:Hp; simpl; [by left|].
  intros Hq. apply lookup_insert_Some in Hq.
  destruct Hq as [[<- <-]|[_ ?]]; [by right|by left].
Qed.

Lemma Create_kept k name p name' q :
  pods k !! name' = Some q → pods (Create k name p).1 !! name' = Some q.
Proof.
  intros Hq. unfold Create. destruct (scheduled k); [done|].
  destruct (pods k !! name) eqn:Hp; simpl; [done|].
  rewrite lookup_insert_ne; [done|]. intros ->. congruence.
Qed.

Lemma Create_unscheduled k name p :
  scheduled k = None → pods k !! name = None →
  pods (Create k name p).1 !! name = Some p.
Proof.
  intros Hs Hp. unfold Create. rewrite Hs, Hp. simpl.
  apply lookup_insert_eq.
Qed.

Lemma fault_free_scheduled k k' :
  fault k' = fault k → fault_free k → scheduled k' = None.
Proof. intros Hf Hff. unfold scheduled. rewrite Hf. apply Hff. Qed.

Lemma PodName_not_a_hint c c' : PodName c ≠ HintPodName c'.
Proof. done. Qed.

(** The names of the hint pods tell the cells of a grid apart. *)
Lemma HintPodName_inj g c c' :
  wf g → in_grid g (X c) (Y c) → in_grid g (X c') (Y c') →
  HintPodName c = HintPodName c' → c = c'.
Proof.
  intros (_ & _ & Hfit) [Hx Hy] [Hx' Hy'] Heq.
  assert (Size g ≤ int_max) as Hs by nia.
  assert (Some c = Some c') as [= ->]; [|done].
  rewrite <- (parse_with_generated HintPodNameRegex c) by lia.
  rewrite <- (parse_with_generated HintPodNameRegex c') by lia.
  by f_equal.
Qed.

(** The loop that deletes the pods of the cells of [l]. *)
Lemma delete_loop_spec l : ∀ k,
  requests (foldl (λ k c, (deletePod k c).1) k l)
  = requests k ++ (ReqDelete ∘ PodName <$> l) ∧
  fault (foldl (λ k c, (deletePod k c).1) k l) = fault k ∧
  (∀ name p, pods (foldl (λ k c, (deletePod k c).1) k l) !! name = Some p →
     pods k !! name = Some p) ∧
  (fault_free k → ∀ c, c ∈ l →
     pods (foldl (λ k c, (deletePod k c).1) k l) !! PodName c = None).
Proof.
  induction l as [|c l IH]; intros k; cbn [foldl].
  { split_and!; try done.
    - by rewrite app_nil_r.
    - intros _ c Hc. by apply elem_of_nil in Hc. }
  destruct (IH (deletePod k c).1) as (Hreq & Hf & Hsub & Hgone).
  rewrite deletePod_cluster in *.
  split_and!.
  - rewrite Hreq, Delete_requests, <- app_assoc. done.
  - by rewrite Hf, Delete_fault.
  - intros name p Hp. eapply Delete_lookup. by apply Hsub.
  - intros Hff c' Hc'.
    assert (fault_free (Api.Delete k (PodName c)).1) as Hff1.
    { intros i. rewrite Delete_fault. apply Hff. }
    apply elem_of_cons in Hc' as [->|Hc']; [|by apply Hgone].
    destruct (pods (foldl _ _ l) !! PodName c) as [p|] eqn:Hp; [|done].
    apply Hsub in Hp. rewrite Delete_unscheduled in Hp by apply Hff.
    by rewrite lookup_delete_eq in Hp.
Qed.

(** The loop that replaces the pods of the cells of [l] by hint pods. *)
Lemma hint_loop_spec g0 l : ∀ k,
  requests (foldl (hint_step g0) k l)
  = requests k
    ++ (l ≫= λ c, [ReqDelete (PodName c); ReqCreate (HintPodName c)]) ∧
  fault (foldl (hint_step g0) k l) = fault k ∧
  (∀ name p, pods (foldl (hint_step g0) k l) !! name = Some p →
     pods k !! name = Some p ∨
     ∃ c, c ∈ l ∧ name = HintPodName c ∧
          p = hint_pod (default 0 (AdjacentMines g0 (X c) (Y c)))) ∧
  (fault_free k → ∀ c, c ∈ l →
     pods k !! HintPodName c = None →
     ∃ c', c' ∈ l ∧ HintPodName c' = HintPodName c ∧
       pods (foldl (hint_step g0) k l) !! HintPodName c
       = Some (hint_pod (default 0 (AdjacentMines g0 (X c') (Y c'))))) ∧
  (∀ name p, pods k !! name = Some p → (∀ c, c ∈ l → name ≠ PodName c) →
     pods (foldl (hint_step g0) k l) !! name = Some p) ∧
  (fault_free k → ∀ c, c ∈ l →
     pods (foldl (hint_step g0) k l) !! PodName c = None).
Proof.
  induction l as [|c l IH]; intros k; cbn [foldl].
  { split_and!; try done.
    - by rewrite app_nil_r.
    - intros name p Hp. by left.
    - intros _ c Hc. by apply elem_of_nil in Hc.
    - intros _ c Hc. by apply elem_of_nil in Hc. }
  destruct (IH (hint_step g0 k c)) as (Hreq & Hf & Hsub & Hhint & Hkept & Hgone).
  assert (hint_step g0 k c
          = (Create (Api.Delete k (PodName c)).1 (HintPodName c)
               (hint_pod (default 0 (AdjacentMines g0 (X c) (Y c))))).1)
    as Hstep.
  { unfold hint_step, spawnHintPod. by rewrite deletePod_cluster. }
  assert (fault (hint_step g0 k c) = fault k) as Hf1.
  { by rewrite Hstep, Create_fault, Delete_fault. }
  split_and!.
  - rewrite Hreq, Hstep, Create_requests, Delete_requests, bind_cons,
      <- !app_assoc. done.
  - by rewrite Hf.
  - intros name p Hp. apply Hsub in Hp.
    destruct Hp as [Hp|(c' & Hc' & -> & ->)].
    + rewrite Hstep in Hp. apply Create_lookup in Hp.
      destruct Hp as [Hp|[-> ->]].
      * left. by eapply Delete_lookup.
      * right. exists c. split; [by left|done].
    + right. exists c'. split; [by right|done].
  - intros Hff c' Hc' Hfree.
    assert (fault_free (hint_step g0 k c)) as Hff1.
    { intros i. rewrite Hf1. apply Hff. }
    destruct (decide (HintPodName c = HintPodName c')) as [Heq|Hne].
    + exists c. split; [by left|]. split; [done|].
      apply Hkept; [|intros c'' _; rewrite <- Heq; by intros ?%symmetry].
      rewrite Hstep, <- Heq. apply Create_unscheduled.
      * apply (fault_free_scheduled k); [apply Delete_fault|done].
      * rewrite Delete_other by (by intros ?%symmetry). by rewrite Heq.
    + apply elem_of_cons in Hc' as [->|Hc']; [done|].
      destruct (Hhint Hff1 c' Hc') as (c'' & Hc'' & Hn & Hp).
      * rewrite Hstep.
        destruct (pods (Create _ _ _).1 !! HintPodName c') as [q|] eqn:Hq;
          [|done].
        apply Create_lookup in Hq as [Hq|[? _]]; [|done].
        apply Delete_lookup in Hq. congruence.
      * exists c''. split; [by right|done].
  - intros name p Hp Hne. apply Hkept; [|intros c' Hc'; apply Hne; by right].
    rewrite Hstep. apply Create_kept.
    rewrite Delete_other; [done|]. apply Hne. by left.
  - intros Hff c' Hc'.
    assert (fault_free (hint_step g0 k c)) as Hff1.
    { intros i. rewrite Hf1. apply Hff. }
    apply elem_of_cons in Hc' as [->|Hc']; [|by apply Hgone].
    destruct (pods (foldl _ _ l) !! PodName c) as [p|] eqn:Hp; [|done].
    apply Hsub in Hp as [Hp|(c' & _ & Hn & _)]; [|done].
    rewrite Hstep in Hp. apply Create_lookup in Hp as [Hp|[? _]]; [|done].
    rewrite Delete_unscheduled in Hp by apply Hff.
    by rewrite lookup_delete_eq in Hp.
Qed.
End FloodFillCluster.

Section EmptyCellClick.
Import Game Api Store Spawner Controller.

Lemma CheckVictory_true_iff g :
  wf g →
  ∃ won, CheckVictory g = Some won ∧
    (won = true ↔
     ∀ x y, in_grid g x y → IsMine g x y = Some false →
            IsRevealed g x y = Some true).
Proof.
  intros Hwf. pose proof (wf_Size_nonneg g Hwf) as Hsize.
  pose proof (UnrevealedSafeCells_count g Hwf Hsize) as Hcount.
  unfold CheckVictory. rewrite Hcount. cbn [mbind option_bind].
  eexists. split; [done|]. rewrite bool_decide_eq_true. split.
  - intros Hz x y Hin Hmine.
    assert (filter (safe_hidden g) (all_coords (Size g)) = []) as Hnil.
    { destruct (filter _ _); [done|]. simpl in Hz. lia. }
    destruct (IsRevealed_is_Some g x y Hwf) as [[] Hr]; [done|].
    assert (mkCoordinate x y ∈ filter (safe_hidden g) (all_coords (Size g)))
      as Hc; [|rewrite Hnil in Hc; by apply elem_of_nil in Hc].
    apply list_elem_of_filter. split; [by split|].
    by apply elem_of_all_coords.
  - intros Hall.
    destruct (filter (safe_hidden g) (all_coords (Size g))) as [|c l] eqn:Hf;
      [done|].
    assert (c ∈ filter (safe_hidden g) (all_coords (Size g))) as Hc
      by (rewrite Hf; by left).
    apply list_elem_of_filter in Hc as [[Hm Hr] Hin].
    apply elem_of_all_coords in Hin.
    rewrite (Hall (X c) (Y c)) in Hr; done.
Qed.

Context {S : Type} `{!Store S}.

(** X15: the deletion of the pod of an unrevealed safe cell with no mine
    around it, in a game in progress.  The flood fill returns two lists of
    distinct cells of the grid, none of them revealed before and none of
    them holding a mine, the first containing the cell itself.  The
    handler reveals every cell of both lists, one click each, moves no
    mine and records the second list as hint cells.  It sends a deletion
    for the pod of every cell of the first list, then for every cell of
    the second a deletion of its pod followed by the creation of its hint
    pod; the errors of these requests are dropped.  No pod appears but
    hint pods, each carrying the number of mines around its cell, which is
    positive; on a server that answers every request the pods of all these
    cells are gone afterwards and every cell of the second list has its
    hint pod, unless a pod of that name was there before.  The game is won
    exactly when every safe cell of the grid was revealed before or is on
    one of the lists; the state is saved only after the loops, as won
    (followed by the victory pod) or as it is. *)
Theorem click_on_an_empty_cell (ns : string) (store store1 : S)
    (k : Cluster) (state : GameState) (start : Coordinate) (now : Time) :
  Load store = Some (store1, Ok (Some state)) →
  wf state → Status state = StatusPlaying →
  in_grid state (X start) (Y start) →
  IsRevealed state (X start) (Y start) = Some false →
  IsMine state (X start) (Y start) = Some false →
  AdjacentMines state (X start) (Y start) = Some 0 →
  ∃ empty boundary st2 k2 won,
    bfsPropagation state start = Some (empty, boundary) ∧
    start ∈ empty ∧ NoDup (empty ++ boundary) ∧
    (∀ c, c ∈ empty ++ boundary →
       in_grid state (X c) (Y c) ∧ IsMine state (X c) (Y c) = Some false ∧
       IsRevealed state (X c) (Y c) = Some false) ∧
    wf st2 ∧ Size st2 = Size state ∧ MineMap st2 = MineMap state ∧
    MineCount st2 = MineCount state ∧ Status st2 = StatusPlaying ∧
    (∀ x y, IsRevealed st2 x y
            = if decide (mkCoordinate x y ∈ empty ++ boundary)
              then Some true else IsRevealed state x y) ∧
    Clicks st2 = clicked (length empty + length boundary) (Clicks state) ∧
    HintCells st2 = HintCells state ++ boundary ∧
    requests k2
    = requests k ++ (ReqDelete ∘ PodName <$> empty)
      ++ (boundary ≫= λ c, [ReqDelete (PodName c); ReqCreate (HintPodName c)]) ∧
    fault k2 = fault k ∧
    (∀ name p, pods k2 !! name = Some p →
       pods k !! name = Some p ∨
       ∃ c n, c ∈ boundary ∧ name = HintPodName c ∧
              AdjacentMines state (X c) (Y c) = Some n ∧ 0 < n ∧
              p = hint_pod n) ∧
    (fault_free k →
       (∀ c, c ∈ empty ++ boundary → pods k2 !! PodName c = None) ∧
       (∀ c, c ∈ boundary → pods k !! HintPodName c = None →
          ∃ n, AdjacentMines state (X c) (Y c) = Some n ∧ 0 < n ∧
               pods k2 !! HintPodName c = Some (hint_pod n))) ∧
    CheckVictory st2 = Some won ∧
    (won = true ↔
     ∀ x y, in_grid state x y → IsMine state x y = Some false →
            IsRevealed state x y = Some true ∨
            mkCoordinate x y ∈ empty ++ boundary) ∧
    handlePodDeletion (NewGameController ns) (store, k) start now
    = if won then
        '(store2, err) ← Save store1 (SetWon st2 now);
        match err with
        | Some e => Some ((store2, k2), Some e)
        | None =>
            let '(k3, e) := Create k2 "victory" victory_pod in
            Some ((store2, k3), e)
        end
      else
        '(store2, err) ← Save store1 st2;
        Some ((store2, k2), err).
Proof.
  intros HL Hwf Hplay Hin Hrev Hmine Hadj.
  destruct (bfs_loop_spec state Hwf start (bfs_fuel state)
              {[ key start := true ]} [start] [] [] (bfs_start_inv state start))
    as (e & b & Hloop & [Hnd Hempty Hbound Horigin] & Hall).
  { unfold bfs_fuel. simpl. lia. }
  assert (start ∈ e) as Hstart.
  { assert (start ∈ e ++ b) as [?|Hb]%elem_of_app
      by (apply Hall; simpl; by left); [done|].
    destruct (Hbound _ Hb) as (n & Hn & Hpos). unfold adjacent in Hn.
    rewrite Hadj in Hn. injection Hn as <-. lia. }
  assert (∀ c, c ∈ e ++ b →
            in_grid state (X c) (Y c) ∧ IsMine state (X c) (Y c) = Some false ∧
            IsRevealed state (X c) (Y c) = Some false) as Hcells.
  { intros c Hc. destruct (Horigin c Hc) as [->|?]; [done|done]. }
  assert (bfsPropagation state start = Some (e, b)) as Hbfs by done.
  apply NoDup_app in Hnd as Hnd3. destruct Hnd3 as (Hnde & Hdisj & Hndb).
  (* the first loop *)
  destruct (reveal_loop e state Hwf Hnde) as (g1 & Hfold1 & Hrb1 & Hh1).
  { intros c Hc. destruct (Hcells c) as (? & _ & ?);
      [apply elem_of_app; by left|by split]. }
  (* the loop over the boundary *)
  destruct (boundary_loop state b g1
              (foldl (λ k c, (deletePod k c).1) k e))
    as (g2 & Hfold2 & Hrb2 & Hh2); [by destruct Hrb1..|done| |].
  { intros c Hc. eapply revealed_by_hidden; [done| |].
    - intros Hce. by apply (Hdisj c).
    - destruct (Hcells c) as (? & _ & ?);
        [apply elem_of_app; by right|by split]. }
  pose proof (revealed_by_app _ _ _ _ _ Hrb1 Hrb2) as [Hwf2 Hs2 Hst2 Hm2 Hc2 Hcl2 Hr2].
  destruct (delete_loop_spec e k) as (Hreq1 & Hf1 & Hsub1 & Hgone1).
  destruct (hint_loop_spec state b (foldl (λ k c, (deletePod k c).1) k e))
    as (Hreq2 & Hf2 & Hsub2 & Hhint2 & Hkept2 & Hgone2).
  destruct (CheckVictory_true_iff g2 Hwf2) as (won & Hwon & Hiff).
  assert (∀ c, c ∈ b →
            ∃ n, AdjacentMines state (X c) (Y c) = Some n ∧ 0 < n) as Hpos.
  { intros c Hc. by apply Hbound. }
  exists e, b, g2, (foldl (hint_step state)
                      (foldl (λ k c, (deletePod k c).1) k e) b), won.
  split_and!; try done.
  - congruence.
  - by rewrite Hcl2, length_app.
  - by rewrite Hh2, Hh1.
  - by rewrite Hreq2, Hreq1, <- app_assoc.
  - by rewrite Hf2.
  - intros name p Hp. apply Hsub2 in Hp.
    destruct Hp as [Hp|(c & Hc & -> & ->)]; [left; by apply Hsub1|].
    right. destruct (Hpos c Hc) as (n & Hn & Hlt).
    exists c, n. rewrite Hn. by split_and!.
  - intros Hff.
    assert (fault_free (foldl (λ k c, (deletePod k c).1) k e)) as Hff1.
    { intros i. rewrite Hf1. apply Hff. }
    split.
    + intros c [Hc|Hc]%elem_of_app; [|by apply Hgone2].
      destruct (pods _ !! PodName c) as [p|] eqn:Hp; [|done].
      apply Hsub2 in Hp. destruct Hp as [Hp|(c' & _ & Hn & _)]; [|done].
      by rewrite Hgone1 in Hp.
    + intros c Hc Hfree.
      destruct (Hhint2 Hff1 c Hc) as (c' & Hc' & Hn & Hp).
      { destruct (pods (foldl (λ k c, (deletePod k c).1) k e)
                    !! HintPodName c) as [q|] eqn:Hq; [|done].
        apply Hsub1 in Hq. congruence. }
      assert (c' = c) as ->.
      { apply (HintPodName_inj state); [done| | |done].
        - apply Hcells, elem_of_app. by right.
        - apply Hcells, elem_of_app. by right. }
      destruct (Hpos c Hc) as (n & Hadjc & Hlt). exists n.
      rewrite Hp, Hadjc. by split_and!.
  - rewrite Hiff. unfold in_grid. rewrite Hs2.
    assert (∀ a b0, IsMine g2 a b0 = IsMine state a b0) as Hmines.
    { intros a b0. unfold IsMine, IsValidCoordinate. by rewrite Hs2, Hm2. }
    split; intros Hall' x y Hxy Hm.
    + specialize (Hall' x y Hxy). rewrite Hmines, Hr2 in Hall'.
      destruct (decide (mkCoordinate x y ∈ e ++ b)); [by right|].
      left. by apply Hall'.
    + rewrite Hmines in Hm. rewrite Hr2.
      destruct (decide (mkCoordinate x y ∈ e ++ b)); [done|].
      by destruct (Hall' x y Hxy Hm).
  - unfold handlePodDeletion. rewrite HL. cbn [mbind option_bind].
    rewrite decide_False by (intros Hne; by apply Hne).
    rewrite Hrev. cbn [mbind option_bind]. rewrite Hmine.
    cbn [mbind option_bind]. rewrite Hadj. cbn [mbind option_bind].
    rewrite decide_False by lia.
    cbn [NewGameController Handlers NewGameHandlers onEmptyCell].
    unfold HandleEmptyCell. rewrite Hbfs. cbn [mbind option_bind].
    rewrite Hfold1. cbn [mbind option_bind]. rewrite Hfold2.
    cbn [mbind option_bind]. rewrite Hwon. cbn [mbind option_bind].
    destruct won; [|done].
    unfold handleVictory, spawnVictoryPod. fold victory_pod.
    destruct (Save store1 _) as [[store2 [err|]]|]; try done.
    cbn [mbind option_bind].
    by destruct (Create _ "victory" victory_pod) as [k3 [err|]].
Qed.
End EmptyCellClick.

Section EmptyCellWitness.
Import Game Api Store Spawner Controller.

Lemma click_on_an_empty_cell_witness :
  Load (mkMemoryStore (Some corner_mine_state))
  = Some (mkMemoryStore (Some corner_mine_state),
          Ok (Some corner_mine_state)) ∧
  wf corner_mine_state ∧ Status corner_mine_state = StatusPlaying ∧
  in_grid corner_mine_state 2 2 ∧
  IsRevealed corner_mine_state 2 2 = Some false ∧
  IsMine corner_mine_state 2 2 = Some false ∧
  AdjacentMines corner_mine_state 2 2 = Some 0 ∧
  ∃ empty boundary st2 k2 won,
    bfsPropagation corner_mine_state (mkCoordinate 2 2)
    = Some (empty, boundary) ∧
    mkCoordinate 2 2 ∈ empty ∧ NoDup (empty ++ boundary) ∧
    (∀ c, c ∈ empty ++ boundary →
       in_grid corner_mine_state (X c) (Y c) ∧
       IsMine corner_mine_state (X c) (Y c) = Some false ∧
       IsRevealed corner_mine_state (X c) (Y c) = Some false) ∧
    wf st2 ∧ Size st2 = Size corner_mine_state ∧
    MineMap st2 = MineMap corner_mine_state ∧
    MineCount st2 = MineCount corner_mine_state ∧
    Status st2 = StatusPlaying ∧
    (∀ x y, IsRevealed st2 x y
            = if decide (mkCoordinate x y ∈ empty ++ boundary)
              then Some true else IsRevealed corner_mine_state x y) ∧
    Clicks st2
    = clicked (length empty + length boundary) (Clicks corner_mine_state) ∧
    HintCells st2 = HintCells corner_mine_state ++ boundary ∧
    requests k2
    = requests corner_mine_cluster ++ (ReqDelete ∘ PodName <$> empty)
      ++ (boundary ≫= λ c, [ReqDelete (PodName c); ReqCreate (HintPodName c)]) ∧
    fault k2 = fault corner_mine_cluster ∧
    (∀ name p, pods k2 !! name = Some p →
       pods corner_mine_cluster !! name = Some p ∨
       ∃ c n, c ∈ boundary ∧ name = HintPodName c ∧
              AdjacentMines corner_mine_state (X c) (Y c) = Some n ∧ 0 < n ∧
              p = hint_pod n) ∧
    (fault_free corner_mine_cluster →
       (∀ c, c ∈ empty ++ boundary → pods k2 !! PodName c = None) ∧
       (∀ c, c ∈ boundary →
          pods corner_mine_cluster !! HintPodName c = None →
          ∃ n, AdjacentMines corner_mine_state (X c) (Y c) = Some n ∧
               0 < n ∧ pods k2 !! HintPodName c = Some (hint_pod n))) ∧
    CheckVictory st2 = Some won ∧
    (won = true ↔
     ∀ x y, in_grid corner_mine_state x y →
            IsMine corner_mine_state x y = Some false →
            IsRevealed corner_mine_state x y = Some true ∨
            mkCoordinate x y ∈ empty ++ boundary) ∧
    handlePodDeletion (NewGameController "podsweeper-game")
      (mkMemoryStore (Some corner_mine_state), corner_mine_cluster)
      (mkCoordinate 2 2) 7
    = if won then
        '(store2, err) ← Save (mkMemoryStore (Some corner_mine_state))
                           (SetWon st2 7);
        match err with
        | Some e => Some ((store2, k2), Some e)
        | None =>
            let '(k3, e) := Create k2 "victory" victory_pod in
            Some ((store2, k3), e)
        end
      else
        '(store2, err) ← Save (mkMemoryStore (Some corner_mine_state)) st2;
        Some ((store2, k2), err).
Proof.
  assert (in_grid corner_mine_state 2 2) as Hin by (unfold in_grid; simpl; lia).
  split_and!; [reflexivity|exact corner_mine_state_wf|reflexivity|exact Hin
              |reflexivity|reflexivity|reflexivity|].
  exact (click_on_an_empty_cell "podsweeper-game"
           (mkMemoryStore (Some corner_mine_state))
           (mkMemoryStore (Some corner_mine_state)) corner_mine_cluster
           corner_mine_state (mkCoordinate 2 2) 7
           eq_refl corner_mine_state_wf eq_refl Hin eq_refl eq_refl eq_refl).
Defined.

(** On that board the click on (2,2) reveals the eight safe cells, wins the
    game and leaves three hint pods around the mine. *)
Lemma click_far_from_the_corner_mine :
  ∃ st' k',
    handlePodDeletion (NewGameController "podsweeper-game")
      (mkMemoryStore (Some corner_mine_state), corner_mine_cluster)
      (mkCoordinate 2 2) 7
    = Some ((mkMemoryStore (Some st'), k'), None) ∧
    Revealed st'
    = [[false; true; true]; [true; true; true]; [true; true; true]] ∧
    Clicks st' = 8 ∧ Status st' = StatusWon ∧ EndedAt st' = 7 ∧
    length (HintCells st') = 3%nat ∧
    pods k' !! "hint-0-1" = Some (hint_pod 1) ∧
    pods k' !! "hint-1-0" = Some (hint_pod 1) ∧
    pods k' !! "hint-1-1" = Some (hint_pod 1) ∧
    pods k' !! "pod-0-0" = Some (mkPod "cell" None false) ∧
    pods k' !! "pod-2-2" = None ∧
    pods k' !! "victory" = Some victory_pod.
Proof.
  eexists _, _. split; [vm_compute; reflexivity|]. by split_and!.
Qed.
End EmptyCellWitness.
